(** * pylidc: the [Annotation] model class ([pylidc/Annotation.py])

    A shallow embedding of the measurement and rasterisation methods of
    [Annotation] and of its attribute guard.

    Conventions of the embedding.
    - A Python [float] (numpy [float64]) is an exact real number [R]:
      the development is about the arithmetic the code asks for, not
      about rounding.
      Where the comparison of computed numbers decides what is returned
      (the contour [estimate_diameter] reports), the computed numbers are
      a parameter as well, and the exact ones an instance.
    - A Python [int] is a [Z]; a length, a shape or a position in a list
      is a [nat].
    - A raised exception is the [Raise] case of [result]; statements of
      a method are sequenced with [x <- c ;; k].
    - A numpy array of rank one is a [list]; an array of rank three is
      an [ndarray3]: its shape and its entries.
    - What matplotlib and scipy compute (the containment test of a path,
      the interpolation on a grid) is a parameter of the methods that
      call them. *)

From Stdlib Require Import Reals Lra Lia ZArith List String Ascii Bool Sorted.
From Stdlib Require Import DecimalString.
From stdpp Require Import gmap strings.
Import ListNotations.

(* ===================================================================== *)
(** * Definitions                                                         *)
(* ===================================================================== *)

(** ** Exceptions and the error monad *)

(** A value assigned to an attribute. *)
Inductive pyvalue :=
| PyNone
| PyInt (n : Z)
| PyStr (s : string).

(** The axis a padding message of [to_volume] names. *)
Inductive axis := AxisX | AxisY | AxisZ.

(** The exceptions the modelled code can raise. [PadIndexError a lo hi] is
    the [IndexError] of [to_volume] whose message is
    ['Specified a-padding results in out-of-bounds index. index-pad=lo,
    index+pad=hi']; [ReadOnlyError name value] is the [ValueError] of
    [__setattr__], whose message quotes the name and the value. *)
Inductive exc :=
| IndexError                                   (* index out of range *)
| PadIndexError (a : axis) (index_minus_pad index_plus_pad : Z)
| KeyError (key : R)                           (* dict lookup failed *)
| ValueError                                   (* numpy argument error *)
| ReadOnlyError (name : string) (value : pyvalue).

Inductive result (A : Type) :=
| Ok (a : A)
| Raise (e : exc).
Arguments Ok {A} a.
Arguments Raise {A} e.

Definition bind {A B} (c : result A) (k : A -> result B) : result B :=
  match c with
  | Ok a => k a
  | Raise e => Raise e
  end.

Notation "x <- c ;; k" := (bind c (fun x => k))
  (at level 100, c at next level, right associativity).

(** A [for] loop whose body may raise: the state is threaded from left to
    right and the first exception ends the loop. *)
Fixpoint for_each {S A} (body : S -> A -> result S) (l : list A) (s : S)
  : result S :=
  match l with
  | [] => Ok s
  | a :: l' => s' <- body s a ;; for_each body l' s'
  end.

(** [enumerate(l)] from index [i]. *)
Fixpoint enumerate_from {A} (i : nat) (l : list A) : list (nat * A) :=
  match l with
  | [] => []
  | a :: l' => (i, a) :: enumerate_from (S i) l'
  end.
Definition enumerate {A} (l : list A) := enumerate_from 0 l.

(** ** Comparisons of floats *)

Definition Rltb (a b : R) : bool := if Rlt_dec a b then true else false.
Definition Reqb (a b : R) : bool := if Req_dec_T a b then true else false.

(** ** Python indexing *)

(** The position [l[i]] denotes in a sequence of length [n]: a negative
    index counts from the end; outside [-n, n) Python raises. *)
Definition py_index (n : nat) (i : Z) : result nat :=
  if (0 <=? i)%Z then
    if (i <? Z.of_nat n)%Z then Ok (Z.to_nat i) else Raise IndexError
  else
    if (- Z.of_nat n <=? i)%Z then Ok (Z.to_nat (Z.of_nat n + i))
    else Raise IndexError.

Definition getitem {A} (l : list A) (i : Z) : result A :=
  k <- py_index (length l) i ;;
  match l !! k with
  | Some a => Ok a
  | None => Raise IndexError
  end.

Definition setitem {A} (l : list A) (i : Z) (a : A) : result (list A) :=
  k <- py_index (length l) i ;;
  Ok (<[k := a]> l).

(** ** numpy on arrays of rank one *)

(** [np.unique]: the sorted distinct values. *)
Fixpoint insert_unique (x : R) (l : list R) : list R :=
  match l with
  | [] => [x]
  | y :: l' =>
      if Rltb x y then x :: y :: l'
      else if Reqb x y then y :: l'
      else y :: insert_unique x l'
  end.

Definition np_unique (l : list R) : list R := fold_right insert_unique [] l.

(** [a.argmin()] scanning from position [i], with the least value so far
    [best] found at [besti]: a later entry replaces it only when strictly
    smaller, so the first minimum is reported. *)
Fixpoint argmin_from (best : R) (besti i : nat) (l : list R) : nat :=
  match l with
  | [] => besti
  | x :: l' =>
      if Rltb x best then argmin_from x i (S i) l'
      else argmin_from best besti (S i) l'
  end.

Definition np_argmin (l : list R) : result nat :=
  match l with
  | [] => Raise ValueError
  | x :: l' => Ok (argmin_from x 0 1 l')
  end.

(** [a.argmax()] and [a.max()], the first maximum likewise. *)
Fixpoint argmax_from (best : R) (besti i : nat) (l : list R) : nat * R :=
  match l with
  | [] => (besti, best)
  | x :: l' =>
      if Rltb best x then argmax_from x i (S i) l'
      else argmax_from best besti (S i) l'
  end.

Definition np_argmax (l : list R) : result nat :=
  match l with
  | [] => Raise ValueError
  | x :: l' => Ok (fst (argmax_from x 0 1 l'))
  end.

Definition np_max (l : list R) : result R :=
  match l with
  | [] => Raise ValueError
  | x :: l' => Ok (fold_left Rmax l' x)
  end.

(** [np.pad(a, w, 'constant')] on rank one: [w] zeros on either side. *)
Definition np_pad (a : list R) (w : nat) : list R :=
  repeat 0%R w ++ a ++ repeat 0%R w.

(** [np.roll(a, 1)]: the last entry comes first. *)
Definition np_roll1 (a : list R) : list R :=
  match a with
  | [] => []
  | x :: _ => List.last a x :: removelast a
  end.

(** [np.dot] of two vectors. *)
Fixpoint np_dot (a b : list R) : R :=
  match a, b with
  | x :: a', y :: b' => (x * y + np_dot a' b')%R
  | _, _ => 0%R
  end.

(** ** The data model *)

(** A point of a contour, in pixel-index coordinates [(x, y)]. *)
Definition point := (Z * Z)%type.

(** Modelled from the spec: the [Contour] class is not in the source file.
    Section 3 of the specification gives it an ordered sequence of points
    in pixel-index coordinates, a physical z-position and an inclusion
    flag; [to_matrix()] is the matrix whose rows are [(x, y, z)], one per
    point, with the contour's z-position in the last column. *)
Record Contour := {
  points : list point;
  image_z_position : R;
  inclusion : bool
}.

(** Modelled from the spec: an entry of the scan's image stack, with the
    last component of [ImagePositionPatient] and the [pixel_array], whose
    frame the code takes to be 512 by 512. *)
Record Image := {
  image_position_z : R;
  pixel_array : Z -> Z -> R
}.

(** Modelled from the spec: what the [Scan] class provides to an
    annotation; [images] is what [load_all_dicom_images] returns. *)
Record Scan := {
  pixel_spacing : R;
  slice_thickness : R;
  images : list Image
}.

Record Annotation := {
  scan : Scan;
  contours : list Contour
}.

(** ** The attribute guard *)

Definition _all_characteristics_ : list string :=
  ["subtlety"; "internalStructure"; "calcification"; "sphericity";
   "margin"; "lobulation"; "spiculation"; "texture"; "malignancy"]%string.

Definition _off_limits : list string :=
  (["id"; "scan_id"; "_nodule_id"; "scan"]%string ++ _all_characteristics_)%list.

(** [super(Annotation, self).__setattr__(name, value)]: the attribute is
    stored. The object is its attribute dictionary. *)
Definition super_setattr (self : gmap string pyvalue) (name : string)
    (value : pyvalue) : gmap string pyvalue :=
  <[name := value]> self.

(** [Annotation.__setattr__]: the object after the call, and whether the
    call returned or raised. *)
Definition __setattr__ (self : gmap string pyvalue) (name : string)
    (value : pyvalue) : gmap string pyvalue * result unit :=
  if bool_decide (name ∈ _off_limits)
  then (self, Raise (ReadOnlyError name value))
  else (super_setattr self name value, Ok tt).

(** ** Bounding box *)

(** [contour.to_matrix()]: one row [(x, y, z)] per point. *)
Definition to_matrix (c : Contour) : list (Z * Z * R) :=
  map (fun p => (fst p, snd p, image_z_position c)) (points c).

(** [np.vstack] of the contours' matrices; it raises on an empty list. *)
Definition contours_to_matrix (ann : Annotation) : result (list (Z * Z * R)) :=
  match contours ann with
  | [] => Raise ValueError
  | _ => Ok (concat (map to_matrix (contours ann)))
  end.

(** [min] and [max] of a column; numpy raises on an empty one. *)
Definition Zmin_list (l : list Z) : result Z :=
  match l with
  | [] => Raise ValueError
  | x :: l' => Ok (fold_left Z.min l' x)
  end.

Definition Zmax_list (l : list Z) : result Z :=
  match l with
  | [] => Raise ValueError
  | x :: l' => Ok (fold_left Z.max l' x)
  end.

Definition Rmin_list (l : list R) : result R :=
  match l with
  | [] => Raise ValueError
  | x :: l' => Ok (fold_left Rmin l' x)
  end.

(** The 3 by 2 matrix [bbox]: a row [(min, max)] per axis. *)
Record bbox_t := {
  row0 : Z * Z;
  row1 : Z * Z;
  row2 : R * R
}.

Definition bbox (ann : Annotation) : result bbox_t :=
  matrix <- contours_to_matrix ann ;;
  let xs := map (fun r => fst (fst r)) matrix in
  let ys := map (fun r => snd (fst r)) matrix in
  let zs := map (fun r => snd r) matrix in
  xmin <- Zmin_list xs ;; ymin <- Zmin_list ys ;; zmin <- Rmin_list zs ;;
  xmax <- Zmax_list xs ;; ymax <- Zmax_list ys ;; zmax <- np_max zs ;;
  Ok {| row0 := (xmin, xmax); row1 := (ymin, ymax); row2 := (zmin, zmax) |}.

(** [bbox[[1,0,2]]]: the first two rows change places. *)
Definition bbox_swap01 (b : bbox_t) : bbox_t :=
  {| row0 := row1 b; row1 := row0 b; row2 := row2 b |}.

(** ** Arrays of rank three *)

Record ndarray3 (A : Type) := {
  shape3 : nat * nat * nat;
  at3 : nat -> nat -> nat -> A
}.
Arguments shape3 {A} _.
Arguments at3 {A} _ _ _ _.

Definition shape_0 {A} (m : ndarray3 A) : nat := fst (fst (shape3 m)).
Definition shape_1 {A} (m : ndarray3 A) : nat := snd (fst (shape3 m)).
Definition shape_2 {A} (m : ndarray3 A) : nat := snd (shape3 m).

(** [np.zeros((n0, n1, n2))], of booleans ([zero] is [false]) or of
    floats. *)
Definition np_zeros3 {A} (zero : A) (n0 n1 n2 : nat) : ndarray3 A :=
  {| shape3 := (n0, n1, n2); at3 := fun _ _ _ => zero |}.

(** [m[:,:,k]]. *)
Definition get_slice {A} (m : ndarray3 A) (k : nat)
  : result (nat -> nat -> A) :=
  if (k <? shape_2 m)%nat then Ok (fun i j => at3 m i j k)
  else Raise IndexError.

(** [m[:,:,k] = s]. *)
Definition set_slice {A} (m : ndarray3 A) (k : nat) (s : nat -> nat -> A)
  : result (ndarray3 A) :=
  if (k <? shape_2 m)%nat then
    Ok {| shape3 := shape3 m;
          at3 := fun i j k' => if (k' =? k)%nat then s i j else at3 m i j k' |}
  else Raise IndexError.

(** [m.swapaxes(0,1)]. *)
Definition swapaxes01 {A} (m : ndarray3 A) : ndarray3 A :=
  {| shape3 := (shape_1 m, shape_0 m, shape_2 m);
     at3 := fun i j k => at3 m j i k |}.

(** [a.reshape(n0, n1)] of a flat array, row after row. *)
Definition reshape2 (a : list bool) (n0 n1 : nat)
  : result (nat -> nat -> bool) :=
  if (length a =? n0 * n1)%nat
  then Ok (fun i j => nth (i * n1 + j) a false)
  else Raise ValueError.

(** [np.c_[np.where(s)]] for [s] of shape [(n0, n1)]: the positions of the
    true entries, row after row. *)
Definition np_where2 (s : nat -> nat -> bool) (n0 n1 : nat)
  : list (nat * nat) :=
  List.filter (fun ij => s (fst ij) (snd ij))
              (flat_map (fun i => map (fun j => (i, j)) (seq 0 n1)) (seq 0 n0)).

(** ** Dictionaries keyed by floats *)

(** [dict(zip(keys, values))] as the list of its bindings in the order
    they are made; a key bound twice keeps the later value. *)
Fixpoint dict_get {V} (d : list (R * V)) (key : R) : result V :=
  match d with
  | [] => Raise (KeyError key)
  | (k, v) :: d' =>
      match dict_get d' key with
      | Ok v' => Ok v'
      | Raise _ => if Reqb key k then Ok v else Raise (KeyError key)
      end
  end.

(** [zip(a, range(len(a)))]. *)
Definition zip_range (a : list R) : list (R * nat) :=
  combine a (seq 0 (length a)).

(** ** Rasterisation: [as_boolean_mask] *)

(** The test of line 516 and the [np.append] it guards: [(a != b).all()]
    holds when the two rows differ in every column. *)
Definition close_contour (contour_matrix : list point)
  : result (list point) :=
  first <- getitem contour_matrix 0 ;;
  last <- getitem contour_matrix (-1) ;;
  if negb (fst first =? fst last)%Z && negb (snd first =? snd last)%Z
  then Ok (contour_matrix ++ [first])
  else Ok contour_matrix.

Section Rasterizer.

(** [mplpath.Path(vertices, closed=True)] and its [contains_points] belong
    to matplotlib: the test of one point against the path built from
    [vertices] is a parameter. *)
Variable contains_point : list point -> point -> bool.

Definition contains_points (vertices : list point) (pts : list point)
  : list bool :=
  map (contains_point vertices) pts.

(** The body of the first loop (lines 510-525). *)
Definition turn_on (z_to_index : list (R * nat)) (test_points : list point)
    (mask : ndarray3 bool) (contour : Contour) : result (ndarray3 bool) :=
  if inclusion contour then
    zi <- dict_get z_to_index (image_z_position contour) ;;
    contour_matrix <- close_contour (map fst (to_matrix contour)) ;;
    let contains_pts := contains_points contour_matrix test_points in
    s <- reshape2 contains_pts (shape_0 mask) (shape_1 mask) ;;
    set_slice mask zi s
  else Ok mask.

(** The body of the second loop (lines 528-542). *)
Definition turn_off (z_to_index : list (R * nat)) (test_points : list point)
    (mask : ndarray3 bool) (contour : Contour) : result (ndarray3 bool) :=
  if negb (inclusion contour) then
    zi <- dict_get z_to_index (image_z_position contour) ;;
    contour_matrix <- close_contour (map fst (to_matrix contour)) ;;
    let not_contains_pts :=
      map negb (contains_points contour_matrix test_points) in
    n <- reshape2 not_contains_pts (shape_0 mask) (shape_1 mask) ;;
    old <- get_slice mask zi ;;
    set_slice mask zi (fun i j => old i j && n i j)
  else Ok mask.

(** [as_boolean_mask] up to its last line: the grid indexed [(x, y, z)]
    and the bounding box, before the axes are swapped. *)
Definition xyz_mask (ann : Annotation) : result (ndarray3 bool * bbox_t) :=
  bbox <- bbox ann ;;
  let zs := np_unique (map image_z_position (contours ann)) in
  let z_to_index := zip_range zs in
  let nx := Z.to_nat (snd (row0 bbox) - fst (row0 bbox) + 1) in
  let ny := Z.to_nat (snd (row1 bbox) - fst (row1 bbox) + 1) in
  let nz := length zs in
  let mask := np_zeros3 false nx ny nz in
  slice0 <- get_slice mask 0 ;;
  let test_points :=
    map (fun ij => (fst (row0 bbox) + Z.of_nat (fst ij),
                    fst (row1 bbox) + Z.of_nat (snd ij))%Z)
        (np_where2 (fun i j => negb (slice0 i j)) nx ny) in
  mask <- for_each (turn_on z_to_index test_points) (contours ann) mask ;;
  mask <- for_each (turn_off z_to_index test_points) (contours ann) mask ;;
  Ok (mask, bbox).

Definition as_boolean_mask (ann : Annotation)
  : result (ndarray3 bool * bbox_t) :=
  r <- xyz_mask ann ;;
  Ok (swapaxes01 (fst r), bbox_swap01 (snd r)).

End Rasterizer.

(** ** Measurement: [estimate_diameter] *)

(** The running maximum: [-np.inf] before any contour was measured. *)
Inductive diam :=
| NegInf
| Finite (d : R).

(** [diameter > greatest_diameter]: the comparison of the two values as
    they were computed. *)
Definition diam_gt (diameter : R) (greatest_diameter : diam) : bool :=
  match greatest_diameter with
  | NegInf => true
  | Finite g => Rltb g diameter
  end.

(** [to_matrix()[:,:2] * pixel_spacing]. *)
Definition scale_xy (m : list point) (s : R) : list (R * R) :=
  map (fun p => (IZR (fst p) * s, IZR (snd p) * s)%R) m.

Definition euclidean (p q : R * R) : R :=
  sqrt ((fst p - fst q) * (fst p - fst q) + (snd p - snd q) * (snd p - snd q)).

(** [squareform(pdist(a))]: entry [i, j] is the distance between rows [i]
    and [j]; scipy returns the 1 by 1 zero matrix for no row at all. *)
Definition squareform_pdist (a : list (R * R)) : list (list R) :=
  match a with
  | [] => [[0%R]]
  | _ => map (fun p => map (fun q => euclidean p q) a) a
  end.

(** The body of the loop of [estimate_diameter] (lines 227-242); the state
    is [greatest_diameter] and [(i, j, k)]. *)
Definition diameter_step (spacing : R) (st : diam * (nat * nat * nat))
    (ce : nat * Contour) : result (diam * (nat * nat * nat)) :=
  let c := fst ce in
  let contour := snd ce in
  let contour_array := scale_xy (map fst (to_matrix contour)) spacing in
  if (length contour_array =? 1)%nat then Ok st
  else
    let diameters := squareform_pdist contour_array in
    diameter <- np_max (concat diameters) ;;
    if diam_gt diameter (fst st) then
      a <- np_argmax (concat diameters) ;;
      let n := length diameters in
      Ok (Finite diameter, (c, a / n, a mod n)%nat)
    else Ok st.

(** [estimate_diameter]: the diameter, with the indices when
    [return_indices] is set. *)
Definition estimate_diameter (ann : Annotation) (return_indices : bool)
  : result (diam * option (nat * nat * nat)) :=
  st <- for_each (diameter_step (pixel_spacing (scan ann)))
                 (enumerate (contours ann)) (NegInf, (0, 0, 1))%nat ;;
  if negb return_indices then Ok (fst st, None)
  else Ok (fst st, Some (snd st)).

(** ** Measurement: [estimate_volume] *)

(** [to_matrix() * pixel_spacing]: every column is scaled. *)
Definition scale_xyz (m : list (Z * Z * R)) (s : R) : list (R * R * R) :=
  map (fun r => (IZR (fst (fst r)) * s, IZR (snd (fst r)) * s, snd r * s)%R) m.

(** Line 289, the shoelace formula. *)
Definition shoelace_area (contour_array : list (R * R * R)) : R :=
  let x := map (fun r => fst (fst r)) contour_array in
  let y := map (fun r => snd (fst r)) contour_array in
  (0.5 * Rabs (np_dot x (np_roll1 y) - np_dot y (np_roll1 x)))%R.

(** Lines 278-280: the padding of [zvals] and the two assignments. *)
Definition pad_zvals (zvals : list R) : result (list R) :=
  let zvals := np_pad zvals 2 in
  a0 <- getitem zvals 0 ;;
  a1 <- getitem zvals 1 ;;
  zvals <- setitem zvals 0 (a0 - (a1 - a0))%R ;;
  b1 <- getitem zvals (-1) ;;
  b2 <- getitem zvals (-2) ;;
  setitem zvals (-1) (b1 + (b1 - b2))%R.

(** Lines 291-295. *)
Definition spacing_of (ann : Annotation) (zvals : option (list R))
    (contour : Contour) : result R :=
  match zvals with
  | Some zvals =>
      j <- np_argmin
             (map (fun z => Rabs (image_z_position contour - z)) zvals) ;;
      hi <- getitem zvals (Z.of_nat j + 1) ;;
      lo <- getitem zvals (Z.of_nat j - 1) ;;
      Ok (0.5 * (hi - lo))%R
  | None => Ok (slice_thickness (scan ann))
  end.

(** The body of the loop of [estimate_volume] (lines 284-297). *)
Definition volume_step (ann : Annotation) (zvals : option (list R))
    (volume : R) (contour : Contour) : result R :=
  let contour_array :=
    scale_xyz (to_matrix contour) (pixel_spacing (scan ann)) in
  let area := shoelace_area contour_array in
  spacing_z <- spacing_of ann zvals contour ;;
  Ok (volume + (if inclusion contour then 1 else -1) * area * spacing_z)%R.

Definition estimate_volume (ann : Annotation) : result R :=
  let volume := 0%R in
  let zvals := np_unique (map image_z_position (contours ann)) in
  zvals <- (if negb (length (contours ann) =? 1)%nat
            then z <- pad_zvals zvals ;; Ok (Some z)
            else Ok None) ;;
  for_each (volume_step ann zvals) (contours ann) volume.

(** ** Resampling: [to_volume] *)

(** The bound [i] of a slice [l[a:b]] of a sequence of length [n]: a
    negative bound counts from the end, and bounds are clamped. *)
Definition slice_bound (n : nat) (i : Z) : nat :=
  if (i <? 0)%Z then Z.to_nat (Z.max 0 (Z.of_nat n + i))
  else Z.to_nat (Z.min i (Z.of_nat n)).

(** [l[a:b]]. *)
Definition py_slice {A} (l : list A) (a b : Z) : list A :=
  let a' := slice_bound (length l) a in
  let b' := slice_bound (length l) b in
  take (b' - a') (drop a' l).

(** The argument [pad]: [(before, after)] for each of the three axes. *)
Definition pad_t := ((Z * Z) * (Z * Z) * (Z * Z))%type.
Definition pad_0 (pad : pad_t) : Z * Z := fst (fst pad).
Definition pad_1 (pad : pad_t) : Z * Z := snd (fst pad).
Definition pad_2 (pad : pad_t) : Z * Z := snd pad.

Definition pad_nonneg (pad : pad_t) : bool :=
  (0 <=? fst (pad_0 pad))%Z && (0 <=? snd (pad_0 pad))%Z &&
  (0 <=? fst (pad_1 pad))%Z && (0 <=? snd (pad_1 pad))%Z &&
  (0 <=? fst (pad_2 pad))%Z && (0 <=? snd (pad_2 pad))%Z.

(** [np.pad(m, pad_width=pad, mode='constant')]; numpy refuses a negative
    width. *)
Definition np_pad3 {A} (zero : A) (m : ndarray3 A) (pad : pad_t)
  : result (ndarray3 A) :=
  if pad_nonneg pad then
    let b0 := Z.to_nat (fst (pad_0 pad)) in
    let b1 := Z.to_nat (fst (pad_1 pad)) in
    let b2 := Z.to_nat (fst (pad_2 pad)) in
    Ok {| shape3 := (b0 + shape_0 m + Z.to_nat (snd (pad_0 pad)),
                     b1 + shape_1 m + Z.to_nat (snd (pad_1 pad)),
                     b2 + shape_2 m + Z.to_nat (snd (pad_2 pad)))%nat;
          at3 := fun i j k =>
            if ((b0 <=? i) && (i <? b0 + shape_0 m) &&
                (b1 <=? j) && (j <? b1 + shape_1 m) &&
                (b2 <=? k) && (k <? b2 + shape_2 m))%nat
            then at3 m (i - b0) (j - b1) (k - b2)
            else zero |}
  else Raise ValueError.

(** Line 601, for one [k]. *)
Definition place_slice (old_mask : ndarray3 bool) (contour_zs : list R)
    (z_to_index : list (R * nat)) (mask : ndarray3 bool) (k : nat)
  : result (ndarray3 bool) :=
  s <- get_slice old_mask k ;;
  cz <- getitem contour_zs (Z.of_nat k) ;;
  zi <- dict_get z_to_index cz ;;
  set_slice mask zi s.

(** Lines 586-601: the block for contours that skip a slice. *)
Definition reconcile_gaps (mask : ndarray3 bool) (img_zs contour_zs : list R)
    (zi_start zi_stop : nat) : result (ndarray3 bool) :=
  let span := (Z.of_nat zi_stop - Z.of_nat zi_start + 1)%Z in
  if negb (Z.of_nat (shape_2 mask) =? span)%Z then
    let old_mask := mask in
    if (span <? 0)%Z then Raise ValueError
    else
      let mask :=
        np_zeros3 false (shape_0 old_mask) (shape_1 old_mask) (Z.to_nat span) in
      let window := py_slice img_zs (Z.of_nat zi_start) (Z.of_nat zi_stop + 1) in
      let z_to_index := zip_range window in
      for_each (place_slice old_mask contour_zs z_to_index)
               (seq 0 (shape_2 old_mask)) mask
  else Ok mask.

(** Lines 603-607, 621-626 and 627-632: the three tests on the padded
    indices. *)
Definition check_z (zi_start zi_stop : Z) (pad : pad_t) (n_images : nat)
  : result unit :=
  if (zi_start - fst (pad_2 pad) <? 0)%Z ||
     (Z.of_nat n_images <=? zi_stop + snd (pad_2 pad))%Z
  then Raise (PadIndexError AxisZ (zi_start - fst (pad_2 pad))
                                  (zi_stop + snd (pad_2 pad)))
  else Ok tt.

Definition check_x (bbox : bbox_t) (pad : pad_t) : result unit :=
  if (fst (row0 bbox) - fst (pad_0 pad) <? 0)%Z ||
     (512 <=? snd (row0 bbox) + 1 + snd (pad_0 pad))%Z
  then Raise (PadIndexError AxisX (fst (row0 bbox) - fst (pad_0 pad))
                                  (snd (row0 bbox) + snd (pad_0 pad) + 1))
  else Ok tt.

Definition check_y (bbox : bbox_t) (pad : pad_t) : result unit :=
  if (fst (row1 bbox) - fst (pad_1 pad) <? 0)%Z ||
     (512 <=? snd (row1 bbox) + 1 + snd (pad_1 pad))%Z
  then Raise (PadIndexError AxisY (fst (row1 bbox) - fst (pad_1 pad))
                                  (snd (row1 bbox) + snd (pad_1 pad) + 1))
  else Ok tt.

(** Lines 635-639, for one [i]: the slice of the pixel array has the shape
    of the first two axes of [nodule] once the three tests have passed. *)
Definition fill_slice (bbox : bbox_t) (pad : pad_t) (nodule : ndarray3 R)
    (ie : nat * Image) : result (ndarray3 R) :=
  let r0 := (fst (row0 bbox) - fst (pad_0 pad))%Z in
  let c0 := (fst (row1 bbox) - fst (pad_1 pad))%Z in
  set_slice nodule (fst ie)
    (fun r c => pixel_array (snd ie) (r0 + Z.of_nat r)%Z (c0 + Z.of_nat c)%Z).

Section Resampler.

Variable contains_point : list point -> point -> bool.

(** Lines 644-677 rest on scipy's [RegularGridInterpolator]: the
    resampling of the two volumes, from the pixel spacing, the z-positions
    of the slices and the new spacing, is a parameter. *)
Variable resample :
  R -> list R -> R -> ndarray3 R -> ndarray3 bool -> ndarray3 R * ndarray3 bool.

(** Lines 570-601 of [to_volume]: the mask, the bounding box and the two
    slice indices once the block for skipped slices has run. *)
Definition to_volume_mask (ann : Annotation)
  : result (ndarray3 bool * bbox_t * (nat * nat)) :=
  r <- as_boolean_mask contains_point ann ;;
  let mask := fst r in
  let bbox := snd r in
  let images := images (scan ann) in
  let img_zs := np_unique (map image_position_z images) in
  let contour_zs := np_unique (map image_z_position (contours ann)) in
  zi_start <- np_argmin (map (fun z => Rabs (fst (row2 bbox) - z)) img_zs) ;;
  zi_stop <- np_argmin (map (fun z => Rabs (snd (row2 bbox) - z)) img_zs) ;;
  mask <- reconcile_gaps mask img_zs contour_zs zi_start zi_stop ;;
  Ok (mask, bbox, (zi_start, zi_stop)).

Definition to_volume (ann : Annotation) (new_spacing : option R)
    (pad : pad_t) : result (ndarray3 R * ndarray3 bool * bbox_t) :=
  r <- to_volume_mask ann ;;
  let mask := fst (fst r) in
  let bbox := snd (fst r) in
  let zi_start := fst (snd r) in
  let zi_stop := snd (snd r) in
  let images := images (scan ann) in
  let img_zs := np_unique (map image_position_z images) in
  _ <- check_z (Z.of_nat zi_start) (Z.of_nat zi_stop) pad (length images) ;;
  let zi_start := (Z.of_nat zi_start - fst (pad_2 pad))%Z in
  let zi_stop := (Z.of_nat zi_stop + snd (pad_2 pad))%Z in
  let images := py_slice images zi_start (zi_stop + 1) in
  let img_zs := py_slice img_zs zi_start (zi_stop + 1) in
  let nodule := np_zeros3 0%R (shape_0 mask) (shape_1 mask) (shape_2 mask) in
  mask <- np_pad3 false mask pad ;;
  nodule <- np_pad3 0%R nodule pad ;;
  _ <- check_x bbox pad ;;
  _ <- check_y bbox pad ;;
  nodule <- for_each (fill_slice bbox pad) (enumerate images) nodule ;;
  match new_spacing with
  | None => Ok (nodule, mask, bbox)
  | Some new_spacing =>
      let v := resample (pixel_spacing (scan ann)) img_zs new_spacing
                        nodule mask in
      Ok (fst v, snd v, bbox)
  end.

End Resampler.

(** ** Vocabulary of the statements *)

(** The data-model invariant of the specification: an annotation has a
    contour and every contour has a point. *)
Definition well_formed (ann : Annotation) : Prop :=
  contours ann <> [] /\ Forall (fun c => points c <> []) (contours ann).

(** The vertices that reach [mplpath.Path] for a contour: what
    [close_contour] returns on its points. *)
Definition path_vertices (c : Contour) : list point :=
  match points c with
  | [] => []
  | first :: _ =>
      let last := List.last (points c) first in
      if negb (fst first =? fst last)%Z && negb (snd first =? snd last)%Z
      then points c ++ [first]
      else points c
  end.

(** The image coordinates of the grid position [(i, j)] of a bounding
    box. *)
Definition pixel_at (b : bbox_t) (i j : nat) : point :=
  (fst (row0 b) + Z.of_nat i, fst (row1 b) + Z.of_nat j)%Z.

(** The extents of the grid of a bounding box. *)
Definition extent_x (b : bbox_t) : nat :=
  Z.to_nat (snd (row0 b) - fst (row0 b) + 1).
Definition extent_y (b : bbox_t) : nat :=
  Z.to_nat (snd (row1 b) - fst (row1 b) + 1).

Definition on_slice (z : R) (c : Contour) : bool :=
  Reqb (image_z_position c) z.

Section RasterizerVocabulary.

Variable contains_point : list point -> point -> bool.

(** What the first loop leaves at a pixel of the slice at [z] after the
    contours [cs]: the test of the last inclusion contour of that slice. *)
Definition turned_on (cs : list Contour) (z : R) (p : point) : bool :=
  fold_left
    (fun acc c =>
       if inclusion c && on_slice z c
       then contains_point (path_vertices c) p
       else acc)
    cs false.

(** What the second loop keeps at a pixel of the slice at [z]: no
    exclusion contour of that slice contains it. *)
Definition not_carved (cs : list Contour) (z : R) (p : point) : bool :=
  forallb
    (fun c =>
       negb (negb (inclusion c) && on_slice z c
             && contains_point (path_vertices c) p))
    cs.

End RasterizerVocabulary.

(** The closing step as the specification words it: the first point is
    appended when the first and the last point differ. *)
Definition close_if_differ (m : list point) : list point :=
  match m with
  | [] => []
  | first :: _ =>
      let last := List.last m first in
      if (fst first =? fst last)%Z && (snd first =? snd last)%Z
      then m
      else m ++ [first]
  end.

(** The distance in millimetres between two points of a contour, for the
    pixel spacing [s]. *)
Definition pair_distance (s : R) (p q : point) : R :=
  euclidean (IZR (fst p) * s, IZR (snd p) * s)%R
            (IZR (fst q) * s, IZR (snd q) * s)%R.

(** A contour [estimate_diameter] measures: it has two points or more. *)
Definition measured (c : Contour) : Prop := (2 <= length (points c))%nat.

(** Every contour lies on a slice of the scan: its z-position is the
    z-position of an image. *)
Definition on_scan_slices (ann : Annotation) : Prop :=
  Forall (fun c => In (image_z_position c)
                      (map image_position_z (images (scan ann))))
         (contours ann).

(** The sorted distinct z-positions of the images and of the contours, as
    [to_volume] computes them, and the index of the image nearest to a
    z-position, as it computes [zi_start] and [zi_stop]. *)
Definition img_zs_of (ann : Annotation) : list R :=
  np_unique (map image_position_z (images (scan ann))).

Definition contour_zs_of (ann : Annotation) : list R :=
  np_unique (map image_z_position (contours ann)).

Definition nearest_slice (ann : Annotation) (z : R) : result nat :=
  np_argmin (map (fun w => Rabs (z - w)) (img_zs_of ann)).

(** The shoelace formula as it is usually written: half the absolute value
    of the sum, over the sides of the polygon, of
    [x_i * y_(i+1) - x_(i+1) * y_i], the last side leading back to the
    first vertex. *)
Fixpoint shoelace_sides (first : R * R) (l : list (R * R)) : R :=
  match l with
  | [] => 0
  | p :: t =>
      match t with
      | [] => fst p * snd first - fst first * snd p
      | q :: _ => (fst p * snd q - fst q * snd p) + shoelace_sides first t
      end
  end%R.

Definition shoelace_formula (l : list (R * R)) : R :=
  match l with
  | [] => 0
  | first :: _ => 0.5 * Rabs (shoelace_sides first l)
  end%R.

(** The extension of the sorted z-positions as the specification words
    it: one value below the first and one above the last, each mirroring
    the adjacent gap. *)
Definition extend_mirrored (zvals : list R) : list R :=
  match zvals, rev zvals with
  | first :: second :: _, last :: before_last :: _ =>
      ((first - (second - first)) :: zvals
       ++ [last + (last - before_last)])%R
  | _, _ => zvals
  end.

(** ** Sample data *)

(** A containment test to run the rasteriser with: the point lies in the
    axis-parallel box spanned by the vertices, border included. *)
Definition in_box (vertices : list point) (p : point) : bool :=
  match vertices with
  | [] => false
  | v :: vs =>
      (fold_left Z.min (map fst vs) (fst v) <=? fst p)%Z &&
      (fst p <=? fold_left Z.max (map fst vs) (fst v))%Z &&
      (fold_left Z.min (map snd vs) (snd v) <=? snd p)%Z &&
      (snd p <=? fold_left Z.max (map snd vs) (snd v))%Z
  end.

(** The square with corners [(x, y)] and [(x + side, y + side)], drawn
    from its lower left corner without repeating it. *)
Definition square (x y side : Z) (z : R) (incl : bool) : Contour :=
  {| points := [(x, y); (x + side, y); (x + side, y + side); (x, y + side)]%Z;
     image_z_position := z;
     inclusion := incl |}.

(** A scan of five slices, one millimetre apart, with unit pixels. *)
Definition sample_scan : Scan :=
  {| pixel_spacing := 1;
     slice_thickness := 1;
     images := map (fun z => {| image_position_z := z;
                                pixel_array := fun _ _ => 0%R |})
                   [0; 1; 2; 3; 4]%R |}.

(** One contour with the two points (0,0) and (3,4). *)
Definition segment_3_4 : Contour :=
  {| points := [(0, 0); (3, 4)]%Z; image_z_position := 0; inclusion := true |}.

Definition one_segment : Annotation :=
  {| scan := sample_scan; contours := [segment_3_4] |}.

(** A unit square on the slice at 2 mm whose upper side lies on the last
    row, 511, of the 512 by 512 frame. *)
Definition edge_square : Annotation :=
  {| scan := sample_scan; contours := [square 100 510 1 2 true] |}.

(** No padding. *)
Definition no_pad : pad_t := ((0, 0), (0, 0), (0, 0))%Z.

(** A square on the slice at 2 mm and, inside it, a smaller square on the
    same slice, as a second inclusion contour or as an exclusion
    contour. *)
Definition outer_square : Contour := square 0 0 4 2 true.
Definition inner_square (incl : bool) : Contour := square 1 1 2 2 incl.

Definition two_inclusions : Annotation :=
  {| scan := sample_scan; contours := [outer_square; inner_square true] |}.

(** Two unit squares a quarter of a millimetre above the slices at 0 mm
    and at 2 mm. *)
Definition off_slices : Annotation :=
  {| scan := sample_scan;
     contours := [square 0 0 1 0.25 true; square 0 0 1 2.25 true] |}.

(** Two unit squares, on the slices at 1 mm and at 3 mm. *)
Definition two_slices : Annotation :=
  {| scan := sample_scan;
     contours := [square 0 0 1 1 true; square 0 0 1 3 true] |}.

(** ** Vocabulary of the further statements *)

(** The area line 289 gives a contour of an annotation. *)
Definition contour_area (ann : Annotation) (c : Contour) : R :=
  shoelace_area (scale_xyz (to_matrix c) (pixel_spacing (scan ann))).

(** The position of the first entry equal to [z]. *)
Fixpoint position (z : R) (l : list R) : nat :=
  match l with
  | [] => 0
  | y :: l' => if Reqb z y then 0 else S (position z l')
  end.

(** The thickness lines 277-295 give a contour of an annotation, in closed
    form: the slice thickness of the scan for a lone contour; otherwise 0
    for a contour at z-position 0, and else half the difference of the
    next and the previous distinct z-position, 0 standing in for a missing
    neighbour. *)
Definition slice_spacing (ann : Annotation) (c : Contour) : R :=
  if (length (contours ann) =? 1)%nat then slice_thickness (scan ann)
  else if Reqb (image_z_position c) 0 then 0%R
  else
    let zs := contour_zs_of ann in
    let p := position (image_z_position c) zs in
    (0.5 * (nth (S p) zs 0 - match p with
                             | O => 0
                             | S p' => nth p' zs 0
                             end))%R.

(** The contour moved by [(dx, dy)] pixels. *)
Definition translate (dx dy : Z) (c : Contour) : Contour :=
  {| points := map (fun p => (fst p + dx, snd p + dy)%Z) (points c);
     image_z_position := image_z_position c;
     inclusion := inclusion c |}.

(** The sum of the entries of an array. *)
Fixpoint Rsum (l : list R) : R :=
  match l with
  | [] => 0
  | x :: l' => x + Rsum l'
  end%R.

(** The rectangle with the corners [(x, y)] and [(x + w, y + h)]. *)
Definition rectangle (x y w h : Z) (z : R) (incl : bool) : Contour :=
  {| points := [(x, y); (x + w, y); (x + w, y + h); (x, y + h)]%Z;
     image_z_position := z;
     inclusion := incl |}.

(** The indices [estimate_diameter] reports name two points of a contour
    whose distance is the running maximum. *)
Definition indices_realize (s : R) (cs : list Contour)
    (st : diam * (nat * nat * nat)) : Prop :=
  match fst st with
  | NegInf => True
  | Finite D =>
      exists c p q,
        cs !! fst (fst (snd st)) = Some c /\
        points c !! snd (fst (snd st)) = Some p /\
        points c !! snd (snd st) = Some q /\
        pair_distance s p q = D
  end.

(** ** Further methods: [centroid] *)

(** [a.mean()] of a column: the sum of the entries divided by their
    number; for a column without entries numpy returns [nan], which is
    [None] here. *)
Definition np_mean (l : list R) : option R :=
  match l with
  | [] => None
  | _ => Some (Rsum l / INR (length l))%R
  end.

(** [centroid]: the mean of each column of the stacked contours. *)
Definition centroid (ann : Annotation)
  : result (option R * option R * option R) :=
  matrix <- contours_to_matrix ann ;;
  Ok (np_mean (map (fun r => IZR (fst (fst r))) matrix),
      np_mean (map (fun r => IZR (snd (fst r))) matrix),
      np_mean (map (fun r => snd r) matrix)).

(** ** Further sample data *)

(** A square with a square hole, on the slice at 2 mm. *)
Definition holed_square : Annotation :=
  {| scan := sample_scan; contours := [outer_square; inner_square false] |}.

(** ** Further methods: [_as_set] *)

(** A voxel [(x, y, z)] of the scan: a pixel and a z-position. *)
Definition voxel := (Z * Z * R)%type.

Definition voxel_eqb (a b : voxel) : bool :=
  (fst (fst a) =? fst (fst b))%Z && (snd (fst a) =? snd (fst b))%Z &&
  Reqb (snd a) (snd b).

(** A Python [set] of voxels is the list of its elements, each once.
    [s.update(l)] adds the elements of [l] that [s] does not hold yet;
    [s.difference(t)] keeps the elements of [s] that [t] does not hold. *)
Definition set_add (s : list voxel) (v : voxel) : list voxel :=
  if existsb (voxel_eqb v) s then s else s ++ [v].

Definition set_update (s : list voxel) (l : list voxel) : list voxel :=
  fold_left set_add l s.

Definition set_difference (s t : list voxel) : list voxel :=
  List.filter (fun v => negb (existsb (voxel_eqb v) t)) s.

(** [np.mgrid[x0:x1, y0:y1]] flattened to the list of its points, the
    first coordinate varying slowest. *)
Definition np_mgrid2 (x0 x1 y0 y1 : Z) : list point :=
  flat_map (fun i => map (fun j => (x0 + Z.of_nat i, y0 + Z.of_nat j)%Z)
                         (seq 0 (Z.to_nat (y1 - y0))))
           (seq 0 (Z.to_nat (x1 - x0))).

Section VoxelSet.

Variable contains_point : list point -> point -> bool.

(** The body of the loop of [_as_set] (lines 693-724); the state is
    [included] and [excluded]. *)
Definition as_set_step (st : list voxel * list voxel) (contour : Contour)
  : result (list voxel * list voxel) :=
  contour_matrix <- close_contour (map fst (to_matrix contour)) ;;
  mn0 <- Zmin_list (map fst contour_matrix) ;;
  mn1 <- Zmin_list (map snd contour_matrix) ;;
  mx0 <- Zmax_list (map fst contour_matrix) ;;
  mx1 <- Zmax_list (map snd contour_matrix) ;;
  let test_points := np_mgrid2 mn0 (mx0 + 1) mn1 (mx1 + 1) in
  let points_in_contour :=
    List.filter (contains_point contour_matrix) test_points in
  let points_in_contour :=
    map (fun p => (fst p, snd p, image_z_position contour)) points_in_contour in
  if inclusion contour
  then Ok (set_update (fst st) points_in_contour, snd st)
  else Ok (fst st, set_update (snd st) points_in_contour).

Definition _as_set (ann : Annotation) : result (list voxel) :=
  st <- for_each as_set_step (contours ann) ([], []) ;;
  Ok (set_difference (fst st) (snd st)).

End VoxelSet.

(** The pixel lies in the box spanned by the points of the contour, border
    included. *)
Definition in_contour_box (c : Contour) (p : point) : Prop :=
  (exists a, In a (points c) /\ (fst a <= fst p)%Z) /\
  (exists a, In a (points c) /\ (fst p <= fst a)%Z) /\
  (exists a, In a (points c) /\ (snd a <= snd p)%Z) /\
  (exists a, In a (points c) /\ (snd p <= snd a)%Z).

(** The voxel [(p, z)] is gathered from a contour with the inclusion flag
    [incl]: the contour lies at [z], [p] is in its box and passes its
    containment test. *)
Definition gathered (contains_point : list point -> point -> bool)
    (cs : list Contour) (incl : bool) (v : voxel) : Prop :=
  exists c, In c cs /\ inclusion c = incl /\ image_z_position c = snd v /\
            in_contour_box c (fst v) /\
            contains_point (path_vertices c) (fst v) = true.

(** No two inclusion contours share a slice. *)
Definition one_inclusion_per_slice (ann : Annotation) : Prop :=
  forall c1 c2, In c1 (contours ann) -> In c2 (contours ann) ->
    inclusion c1 = true -> inclusion c2 = true ->
    image_z_position c1 = image_z_position c2 -> c1 = c2.

(** The containment test holds only inside the box of the contour, as the
    test of a polygon does. *)
Definition contained_in_box (contains_point : list point -> point -> bool)
    (ann : Annotation) : Prop :=
  forall c p, In c (contours ann) ->
    contains_point (path_vertices c) p = true -> in_contour_box c p.

(** ** Further methods: the semantic labels of the characteristics *)

Definition _char_to_word_ : list string :=
  ["Low"; "Medium-Low"; "Medium"; "Medium-High"; "High"]%string.

(** The exceptions of the methods on the characteristics: the failed
    [assert] with its message, an attribute the class does not have, an
    operand or a format argument of the wrong type, an index outside a
    tuple or a list, and the [ValueError] of [list.index]. *)
Inductive char_exc :=
| AssertionError (msg : string)
| AttributeError (name : string)
| TypeError
| SequenceIndexError
| NotInListError.

Inductive outcome (A : Type) :=
| Return (a : A)
| Throw (e : char_exc).
Arguments Return {A} a.
Arguments Throw {A} e.

Definition and_then {A B} (c : outcome A) (k : A -> outcome B) : outcome B :=
  match c with
  | Return a => k a
  | Throw e => Throw e
  end.

(** [self.name] for a mapped column: the stored value, [None] for a
    column without a value. *)
Definition getattr (self : gmap string pyvalue) (name : string) : pyvalue :=
  default PyNone (self !! name).

(** [s in range(lo, hi)]: only an integer is in a range. *)
Definition in_range (s : pyvalue) (lo hi : Z) : bool :=
  match s with
  | PyInt n => (lo <=? n)%Z && (n <? hi)%Z
  | _ => false
  end.

(** [s == n] for an integer literal [n]. *)
Definition py_eq (s : pyvalue) (n : Z) : bool :=
  match s with
  | PyInt m => (m =? n)%Z
  | _ => false
  end.

(** [t[s - 1]] for a tuple of strings. *)
Definition word_at (t : list string) (s : pyvalue) : outcome string :=
  match s with
  | PyInt n =>
      match getitem t (n - 1) with
      | Ok w => Return w
      | Raise _ => Throw SequenceIndexError
      end
  | _ => Throw TypeError
  end.

Definition Subtlety (self : gmap string pyvalue) : outcome pyvalue :=
  let s := getattr self "subtlety" in
  if in_range s 1 6 then
    and_then (word_at (rev _char_to_word_) s)
             (fun w => Return (PyStr (w ++ " Subtlety")%string))
  else Throw (AssertionError "Subtlety score out of bounds.").

Definition InternalStructure (self : gmap string pyvalue) : outcome pyvalue :=
  let s := getattr self "internalStructure" in
  if in_range s 1 5 then
    if py_eq s 1 then Return (PyStr "Soft Tissue")
    else if py_eq s 2 then Return (PyStr "Fluid")
    else if py_eq s 3 then Return (PyStr "Fat")
    else if py_eq s 4 then Return (PyStr "Air")
    else Return PyNone
  else Throw (AssertionError "Internal structure score out of bounds.").

Definition Calcification (self : gmap string pyvalue) : outcome pyvalue :=
  let s := getattr self "calcification" in
  if in_range s 1 7 then
    if py_eq s 1 then Return (PyStr "Popcorn")
    else if py_eq s 2 then Return (PyStr "Laminated")
    else if py_eq s 3 then Return (PyStr "Solid")
    else if py_eq s 4 then Return (PyStr "Non-central")
    else if py_eq s 5 then Return (PyStr "Central")
    else if py_eq s 6 then Return (PyStr "Absent")
    else Return PyNone
  else Throw (AssertionError "Calcification score out of bounds.").

Definition Sphericity (self : gmap string pyvalue) : outcome pyvalue :=
  let s := getattr self "sphericity" in
  if in_range s 1 6 then
    if py_eq s 1 then Return (PyStr "Linear")
    else if py_eq s 2 then Return (PyStr "Ovoid Linear")
    else if py_eq s 3 then Return (PyStr "Ovoid")
    else if py_eq s 4 then Return (PyStr "Ovoid Round")
    else if py_eq s 5 then Return (PyStr "Round")
    else Return PyNone
  else Throw (AssertionError "Sphericity score out of bounds.").

Definition Margin (self : gmap string pyvalue) : outcome pyvalue :=
  let s := getattr self "margin" in
  if in_range s 1 6 then
    if py_eq s 1 then Return (PyStr "Poor")
    else if py_eq s 2 then Return (PyStr "Near Poor")
    else if py_eq s 3 then Return (PyStr "Medium")
    else if py_eq s 4 then Return (PyStr "Near Sharp")
    else if py_eq s 5 then Return (PyStr "Sharp")
    else Return PyNone
  else Throw (AssertionError "Margin score out of bounds.").

Definition Lobulation (self : gmap string pyvalue) : outcome pyvalue :=
  let s := getattr self "lobulation" in
  if in_range s 1 6 then
    and_then (word_at _char_to_word_ s)
             (fun w => Return (PyStr (w ++ " Lobulation")%string))
  else Throw (AssertionError "Lobulation score out of bounds.").

Definition Spiculation (self : gmap string pyvalue) : outcome pyvalue :=
  let s := getattr self "spiculation" in
  if in_range s 1 6 then
    and_then (word_at _char_to_word_ s)
             (fun w => Return (PyStr (w ++ " Spiculation")%string))
  else Throw (AssertionError "Spiculation score out of bounds.").

Definition Texture (self : gmap string pyvalue) : outcome pyvalue :=
  let s := getattr self "texture" in
  if in_range s 1 6 then
    if py_eq s 1 then Return (PyStr "Non-Solid / Ground Glass Opacity Texture")
    else if py_eq s 2 then Return (PyStr "Non-Solid or Mixed Texture")
    else if py_eq s 3 then Return (PyStr "Part Solid or Mixed Texture")
    else if py_eq s 4 then Return (PyStr "Mixed or Solid Texure")
    else if py_eq s 5 then Return (PyStr "Solid Texture")
    else Return PyNone
  else Throw (AssertionError "Texture score out of bounds.").

Definition Malignancy (self : gmap string pyvalue) : outcome pyvalue :=
  let s := getattr self "malignancy" in
  if in_range s 1 6 then
    and_then (word_at _char_to_word_ s)
             (fun w => Return (PyStr (w ++ " Malignancy")%string))
  else Throw (AssertionError "Malignancy score out of bounds.").

(** ** Further methods: the table of the characteristics *)

Definition is_lower (c : ascii) : bool :=
  (97 <=? nat_of_ascii c)%nat && (nat_of_ascii c <=? 122)%nat.
Definition is_upper (c : ascii) : bool :=
  (65 <=? nat_of_ascii c)%nat && (nat_of_ascii c <=? 90)%nat.
Definition to_upper (c : ascii) : ascii :=
  if is_lower c then ascii_of_nat (nat_of_ascii c - 32) else c.
Definition to_lower (c : ascii) : ascii :=
  if is_upper c then ascii_of_nat (nat_of_ascii c + 32) else c.

(** [str.title()] on ASCII text: a letter that follows a letter is put in
    lower case, any other letter in upper case. *)
Fixpoint title_from (after_letter : bool) (s : string) : string :=
  match s with
  | EmptyString => EmptyString
  | String c s' =>
      if is_lower c || is_upper c
      then String (if after_letter then to_lower c else to_upper c)
                  (title_from true s')
      else String c (title_from false s')
  end.
Definition title (s : string) : string := title_from false s.

(** [l.index(x)]. *)
Fixpoint list_index (l : list string) (x : string) : outcome nat :=
  match l with
  | [] => Throw NotInListError
  | y :: l' =>
      if String.eqb y x then Return 0%nat
      else and_then (list_index l' x) (fun n => Return (S n))
  end.

(** The conversions of the [%] operator: [%-ws] pads the text of the
    value with blanks on the right up to the width [w]; [%-wd] does so
    with the decimal digits of an integer and refuses anything else. *)
Definition ljust (w : nat) (s : string) : string :=
  (s ++ string_of_list_ascii (repeat " "%char (w - String.length s)))%string.

Definition str_of_int (n : Z) : string := NilZero.string_of_int (Z.to_int n).

Definition py_str (v : pyvalue) : string :=
  match v with
  | PyNone => "None"
  | PyInt n => str_of_int n
  | PyStr s => s
  end.

Definition format_s (w : nat) (v : pyvalue) : string := ljust w (py_str v).

Definition format_d (w : nat) (v : pyvalue) : outcome string :=
  match v with
  | PyInt n => Return (ljust w (str_of_int n))
  | _ => Throw TypeError
  end.

Definition newline : string := String "010"%char EmptyString.

(** [s[:-1]]. *)
Fixpoint drop_last (s : string) : string :=
  match s with
  | EmptyString => EmptyString
  | String c EmptyString => EmptyString
  | String c s' => String c (drop_last s')
  end.

(** [getattr(self, name)] for the name of a method of the class. *)
Definition getattr_method (name : string)
  : outcome (gmap string pyvalue -> outcome pyvalue) :=
  if String.eqb name "Subtlety" then Return Subtlety
  else if String.eqb name "InternalStructure" then Return InternalStructure
  else if String.eqb name "Calcification" then Return Calcification
  else if String.eqb name "Sphericity" then Return Sphericity
  else if String.eqb name "Margin" then Return Margin
  else if String.eqb name "Lobulation" then Return Lobulation
  else if String.eqb name "Spiculation" then Return Spiculation
  else if String.eqb name "Texture" then Return Texture
  else if String.eqb name "Malignancy" then Return Malignancy
  else Throw (AttributeError name).

Definition list_item (l : list string) (i : nat) : outcome string :=
  match l !! i with
  | Some x => Return x
  | None => Throw SequenceIndexError
  end.

(** The body of the loop of [all_characteristics_as_string] (lines
    167-171). *)
Definition characteristic_row (self : gmap string pyvalue)
    (chars1 chars2 : list string) (s : string) (i : nat) : outcome string :=
  and_then (list_item chars2 i) (fun name2 =>
  and_then (getattr_method name2) (fun method =>
  and_then (method self) (fun label =>
  and_then (list_item chars1 i) (fun name1 =>
  let value := getattr self name1 in
  and_then (format_d 2 value) (fun d =>
  Return (s ++ (ljust 18 name2 ++ " | " ++ format_s 24 label ++ " | " ++ d)
            ++ newline)%string))))).

Fixpoint for_each_row (body : string -> nat -> outcome string) (l : list nat)
    (s : string) : outcome string :=
  match l with
  | [] => Return s
  | i :: l' => and_then (body s i) (for_each_row body l')
  end.

Definition all_characteristics_as_string (self : gmap string pyvalue)
  : outcome string :=
  let chars1 := _all_characteristics_ in
  let chars2 := map title chars1 in
  and_then (list_index chars2 "Internalstructure") (fun k =>
  let chars2 := <[k := "InternalStructure"%string]> chars2 in
  let s := (ljust 18 "Characteristic" ++ "   " ++ ljust 24 "Semantic value"
            ++ "   " ++ ljust 2 "#")%string in
  let s := (s ++ newline)%string in
  let s := (s ++ (ljust 18 "-" ++ "   " ++ ljust 24 "-" ++ "   " ++ ljust 2 "-")
              ++ newline)%string in
  and_then (for_each_row (characteristic_row self chars1 chars2)
                         (seq 0 (length chars1)) s) (fun s =>
  Return (drop_last s))).

(** ** Vocabulary of the statements on the characteristics *)

(** A characteristic: the attribute that holds its score, the name of the
    method that words it, the method, and the end of the range of its
    scores, which start at 1. *)
Record characteristic := {
  attribute : string;
  method_name : string;
  method : gmap string pyvalue -> outcome pyvalue;
  stop : Z
}.

Definition characteristics : list characteristic :=
  [{| attribute := "subtlety"; method_name := "Subtlety";
      method := Subtlety; stop := 6 |};
   {| attribute := "internalStructure"; method_name := "InternalStructure";
      method := InternalStructure; stop := 5 |};
   {| attribute := "calcification"; method_name := "Calcification";
      method := Calcification; stop := 7 |};
   {| attribute := "sphericity"; method_name := "Sphericity";
      method := Sphericity; stop := 6 |};
   {| attribute := "margin"; method_name := "Margin";
      method := Margin; stop := 6 |};
   {| attribute := "lobulation"; method_name := "Lobulation";
      method := Lobulation; stop := 6 |};
   {| attribute := "spiculation"; method_name := "Spiculation";
      method := Spiculation; stop := 6 |};
   {| attribute := "texture"; method_name := "Texture";
      method := Texture; stop := 6 |};
   {| attribute := "malignancy"; method_name := "Malignancy";
      method := Malignancy; stop := 6 |}]%string%Z.

(** The score of the characteristic is in its range. *)
Definition valid_score (self : gmap string pyvalue) (e : characteristic)
  : bool :=
  in_range (getattr self (attribute e)) 1 (stop e).

(** A line of the table: the name in 18 columns, the label in 24 and the
    score in 2, separated by bars. *)
Definition table_row (name label : string) (score : Z) : string :=
  (ljust 18 name ++ " | " ++ ljust 24 label ++ " | "
   ++ ljust 2 (str_of_int score))%string.

(** What the table shows for a characteristic with a valid score: the
    line, and whether it is 50 characters wide. *)
Definition shown (self : gmap string pyvalue) (row : string)
    (e : characteristic) : Prop :=
  exists label n,
    method e self = Return (PyStr label) /\
    getattr self (attribute e) = PyInt n /\
    (1 <= n < stop e)%Z /\
    row = table_row (method_name e) label n /\
    (String.length row =? 50)%nat
    = negb (String.eqb (attribute e) "texture" && (n <? 4)%Z).

(** ** Further sample data: scores *)

(** An object with a score for each characteristic. *)
Definition sample_scores : gmap string pyvalue :=
  list_to_map [("subtlety", PyInt 5); ("internalStructure", PyInt 1);
               ("calcification", PyInt 6); ("sphericity", PyInt 3);
               ("margin", PyInt 4); ("lobulation", PyInt 1);
               ("spiculation", PyInt 4); ("texture", PyInt 5);
               ("malignancy", PyInt 3)]%string.

(** ** Measurement: [estimate_diameter] on the distances as computed *)

(** The comparison of line 239 and the [max] and [argmax] before it act
    on the distances as lines 228 and 232 computed them. The definitions
    of this section take these computed distances as a parameter, so that
    what is proved of them holds for the float64 values of the program as
    well as for exact distances; [estimate_diameter] above is the instance
    for exact distances. *)

Section ComputedDistances.

(** [dist s p q] is the entry that line 232 computes for the rows of the
    points [p] and [q], in this order, at the pixel spacing [s]: the
    products of line 228 and scipy's [pdist] on them. *)
Variable dist : R -> point -> point -> R.

(** [squareform(pdist(a))] over the rows of the points [m]: [pdist] gives
    one entry for every pair of rows [j < k]; [squareform] puts it at
    [(j, k)] and at [(k, j)] and fills the diagonal with zeros. For no row
    at all scipy returns the 1 by 1 zero matrix. *)
Definition squareform_pdist_of (s : R) (m : list point) : list (list R) :=
  match m with
  | [] => [[0%R]]
  | _ =>
      imap (fun j p =>
              imap (fun k q =>
                      if (j =? k)%nat then 0%R
                      else if (j <? k)%nat then dist s p q
                      else dist s q p)
                   m)
           m
  end.

(** The body of the loop of [estimate_diameter] (lines 227-242). *)
Definition diameter_step_of (spacing : R) (st : diam * (nat * nat * nat))
    (ce : nat * Contour) : result (diam * (nat * nat * nat)) :=
  let c := fst ce in
  let contour := snd ce in
  let contour_matrix := map fst (to_matrix contour) in
  if (length contour_matrix =? 1)%nat then Ok st
  else
    let diameters := squareform_pdist_of spacing contour_matrix in
    diameter <- np_max (concat diameters) ;;
    if diam_gt diameter (fst st) then
      a <- np_argmax (concat diameters) ;;
      let n := length diameters in
      Ok (Finite diameter, (c, a / n, a mod n)%nat)
    else Ok st.

Definition estimate_diameter_of (ann : Annotation) (return_indices : bool)
  : result (diam * option (nat * nat * nat)) :=
  st <- for_each (diameter_step_of (pixel_spacing (scan ann)))
                 (enumerate (contours ann)) (NegInf, (0, 0, 1))%nat ;;
  if negb return_indices then Ok (fst st, None)
  else Ok (fst st, Some (snd st)).

(** [d] is the greatest computed distance between two points of the
    contour: two points at different places of the contour are computed to
    be [d] apart, and no two are computed to be farther apart. *)
Definition computed_diameter (s : R) (c : Contour) (d : R) : Prop :=
  (exists j k p q,
     (j < k)%nat /\ points c !! j = Some p /\ points c !! k = Some q /\
     dist s p q = d) /\
  (forall j k p q,
     (j < k)%nat -> points c !! j = Some p -> points c !! k = Some q ->
     (dist s p q <= d)%R).

(** What the loop has established after the contours [done]. *)
Definition computed_invariant (s : R) (done : list Contour)
    (st : diam * (nat * nat * nat)) : Prop :=
  match fst st with
  | NegInf => Forall (fun c => length (points c) = 1%nat) done
  | Finite D =>
      exists c,
        done !! fst (fst (snd st)) = Some c /\
        measured c /\
        computed_diameter s c D /\
        (forall c' d', In c' done -> measured c' ->
           computed_diameter s c' d' -> (d' <= D)%R) /\
        (forall i' c' d', (i' < fst (fst (snd st)))%nat ->
           done !! i' = Some c' -> measured c' ->
           computed_diameter s c' d' -> (d' < D)%R)
  end.

End ComputedDistances.

(** ** Sample data: squares drawn without their closing point *)

(** A square of side 6 with a square hole of side 2 in its middle, on the
    slice at 2 mm, each drawn from its lower left corner without repeating
    it: the last point of either contour shares its x with the first. *)
Definition open_outer : Contour := square 0 0 6 2 true.
Definition open_inner : Contour := square 2 2 2 2 false.

Definition open_holed_square : Annotation :=
  {| scan := sample_scan; contours := [open_outer; open_inner] |}.

(** A polygon test to run the rasteriser with: the even-odd rule. The
    side from [a] to [b] is crossed by the ray that leaves [p] towards
    larger x when its ends lie on either side of the height of [p] and its
    point at that height is to the right of [p]. *)
Definition crosses (p a b : point) : bool :=
  negb (Bool.eqb (snd p <? snd a)%Z (snd p <? snd b)%Z) &&
  (if (snd a <? snd b)%Z
   then ((fst p - fst a) * (snd b - snd a) <? (fst b - fst a) * (snd p - snd a))%Z
   else ((fst b - fst a) * (snd p - snd a) <? (fst p - fst a) * (snd b - snd a))%Z).

(** The sides of the ring of vertices, the last one leading back to the
    first vertex. *)
Definition ring_sides (ring : list point) : list (point * point) :=
  match ring with
  | [] => []
  | first :: rest => combine ring (rest ++ [first])
  end.

Definition even_odd (ring : list point) (p : point) : bool :=
  fold_left xorb (map (fun e => crosses p (fst e) (snd e)) (ring_sides ring))
            false.

(** The test of a path built with [closed=True] from a vertex sequence:
    the last vertex of the sequence stands for the closing of the path
    and is no corner of the polygon. *)
Definition closed_path_test (vertices : list point) (p : point) : bool :=
  even_odd (removelast vertices) p.

(* ===================================================================== *)
(** * Properties                                                          *)
(* ===================================================================== *)

(** ** Comparisons *)

Lemma Rltb_lt (a b : R) : (a < b)%R -> Rltb a b = true.
Proof. intros H. unfold Rltb. destruct (Rlt_dec a b); [reflexivity | contradiction]. Qed.

Lemma Rltb_ge (a b : R) : (b <= a)%R -> Rltb a b = false.
Proof. intros H. unfold Rltb. destruct (Rlt_dec a b); [lra | reflexivity]. Qed.

Lemma Rltb_true_iff (a b : R) : Rltb a b = true <-> (a < b)%R.
Proof.
  unfold Rltb. destruct (Rlt_dec a b); split; auto; discriminate.
Qed.

Lemma Rltb_false_iff (a b : R) : Rltb a b = false <-> (b <= a)%R.
Proof.
  unfold Rltb. destruct (Rlt_dec a b); split; intros; try lra; auto; discriminate.
Qed.

Lemma Reqb_eq (a b : R) : a = b -> Reqb a b = true.
Proof. intros H. unfold Reqb. destruct (Req_dec_T a b); [reflexivity | contradiction]. Qed.

Lemma Reqb_ne (a b : R) : a <> b -> Reqb a b = false.
Proof. intros H. unfold Reqb. destruct (Req_dec_T a b); [contradiction | reflexivity]. Qed.

Lemma Reqb_true_iff (a b : R) : Reqb a b = true <-> a = b.
Proof.
  unfold Reqb. destruct (Req_dec_T a b); split; auto; discriminate.
Qed.

Lemma Rabs_of_nonneg (x : R) : (0 <= x)%R -> Rabs x = x.
Proof. intros H. apply Rabs_right. lra. Qed.

Lemma Rabs_of_nonpos (x : R) : (x <= 0)%R -> Rabs x = (- x)%R.
Proof.
  intros H. destruct (Req_dec_T x 0) as [->|Hne].
  - rewrite Rabs_R0. lra.
  - apply Rabs_left. lra.
Qed.

(** Evaluation of the comparisons of a closed term. *)
Ltac Rabs_eval :=
  repeat match goal with
  | |- context [Rabs ?x] =>
      first [ rewrite (Rabs_of_nonneg x) by lra
            | rewrite (Rabs_of_nonpos x) by lra ]
  end.

Ltac Rcmp_eval :=
  repeat match goal with
  | |- context [Rltb ?a ?b] =>
      first [ rewrite (Rltb_lt a b) by lra | rewrite (Rltb_ge a b) by lra ]
  | |- context [Reqb ?a ?b] =>
      first [ rewrite (Reqb_eq a b) by lra | rewrite (Reqb_ne a b) by lra ]
  | |- context [Rmin ?a ?b] =>
      first [ rewrite (Rmin_left a b) by lra | rewrite (Rmin_right a b) by lra ]
  | |- context [Rmax ?a ?b] =>
      first [ rewrite (Rmax_left a b) by lra | rewrite (Rmax_right a b) by lra ]
  end.

(** ** The error monad *)

(** A loop whose body preserves an invariant indexed by the entries
    already visited runs to its end and establishes it for all of them. *)
Lemma for_each_invariant {S A} (body : S -> A -> result S)
    (P : A -> Prop) (I : list A -> S -> Prop) :
  (forall done a s, I done s -> P a ->
     exists s', body s a = Ok s' /\ I (done ++ [a]) s') ->
  forall l done s, I done s -> Forall P l ->
    exists s', for_each body l s = Ok s' /\ I (done ++ l) s'.
Proof.
  intros Hstep. induction l as [|a l IH]; intros done s HI HP.
  - exists s. rewrite app_nil_r. split; [reflexivity | assumption].
  - inversion HP as [|? ? Ha Hl]; subst.
    destruct (Hstep done a s HI Ha) as (s' & Hb & HI').
    destruct (IH (done ++ [a]) s' HI' Hl) as (s'' & Hf & HI'').
    exists s''. cbn. rewrite Hb. cbn. rewrite Hf. split; [reflexivity|].
    rewrite <- app_assoc in HI''. exact HI''.
Qed.

(** ** Indexing *)

Lemma getitem_first {A} (x : A) (l : list A) : getitem (x :: l) 0 = Ok x.
Proof. reflexivity. Qed.

Lemma getitem_nat {A} (l : list A) (k : nat) (a : A) :
  l !! k = Some a -> getitem l (Z.of_nat k) = Ok a.
Proof.
  intros H. unfold getitem, py_index.
  pose proof (lookup_lt_Some _ _ _ H) as Hlt.
  destruct (Z.leb_spec 0 (Z.of_nat k)) as [_|Hneg]; [|lia].
  destruct (Z.ltb_spec (Z.of_nat k) (Z.of_nat (length l))) as [_|Hge]; [|lia].
  cbn. rewrite Nat2Z.id, H. reflexivity.
Qed.

Lemma last_default {A} (l : list A) (y d d' : A) :
  List.last (y :: l) d = List.last (y :: l) d'.
Proof.
  revert y. induction l as [|b l IH]; intros y; [reflexivity|].
  change (List.last (b :: l) d = List.last (b :: l) d'). apply IH.
Qed.

Lemma lookup_last {A} (x : A) (l : list A) :
  (x :: l) !! length l = Some (List.last (x :: l) x).
Proof.
  revert x. induction l as [|y l IH]; intros x; [reflexivity|].
  change ((y :: l) !! length l = Some (List.last (y :: l) x)).
  rewrite (IH y). f_equal. apply last_default.
Qed.

Lemma getitem_last {A} (x : A) (l : list A) :
  getitem (x :: l) (-1) = Ok (List.last (x :: l) x).
Proof.
  unfold getitem, py_index.
  destruct (Z.leb_spec 0 (-1)) as [Hneg|_]; [lia|].
  destruct (Z.leb_spec (- Z.of_nat (length (x :: l))) (-1)) as [_|Hlen];
    [|cbn [length] in Hlen; lia].
  cbn [bind].
  replace (Z.to_nat (Z.of_nat (length (x :: l)) + -1)) with (length l)
    by (cbn [length]; lia).
  rewrite lookup_last. reflexivity.
Qed.

(** ** [np.unique] *)

Lemma insert_unique_In (x y : R) (l : list R) :
  In y (insert_unique x l) <-> y = x \/ In y l.
Proof.
  induction l as [|a l IH]; cbn.
  - intuition.
  - destruct (Rltb x a) eqn:Hlt; cbn.
    + intuition.
    + destruct (Reqb x a) eqn:Heq; cbn.
      * apply Reqb_true_iff in Heq. subst. intuition.
      * rewrite IH. intuition.
Qed.

Lemma np_unique_In (y : R) (l : list R) : In y (np_unique l) <-> In y l.
Proof.
  induction l as [|a l IH]; cbn; [reflexivity|].
  rewrite insert_unique_In, IH. intuition.
Qed.

Lemma insert_unique_sorted (x : R) (l : list R) :
  StronglySorted Rlt l -> StronglySorted Rlt (insert_unique x l).
Proof.
  induction l as [|a l IH]; intros Hs; cbn.
  - repeat constructor.
  - inversion Hs as [|? ? Hl Ha]; subst.
    destruct (Rltb x a) eqn:Hlt.
    + apply Rltb_true_iff in Hlt. constructor; [assumption|].
      constructor; [assumption|].
      rewrite List.Forall_forall in Ha |- *. intros y Hy.
      specialize (Ha y Hy). cbv beta in Ha. lra.
    + destruct (Reqb x a) eqn:Heq; [assumption|].
      apply Rltb_false_iff in Hlt.
      assert (Hne : x <> a) by (intros ->; rewrite Reqb_eq in Heq; congruence).
      constructor; [apply IH; assumption|].
      rewrite List.Forall_forall in Ha |- *. intros y Hy.
      apply insert_unique_In in Hy as [->|Hy]; [lra | apply Ha; assumption].
Qed.

Lemma np_unique_sorted (l : list R) : StronglySorted Rlt (np_unique l).
Proof.
  induction l as [|a l IH]; cbn; [constructor | apply insert_unique_sorted, IH].
Qed.

Lemma np_unique_nonempty (l : list R) : l <> [] -> np_unique l <> [].
Proof.
  destruct l as [|a l]; [congruence|]. intros _ Hnil.
  assert (H : In a (np_unique (a :: l))) by (apply np_unique_In; left; reflexivity).
  rewrite Hnil in H. destruct H.
Qed.

(** A strictly increasing array: its entries in the order of their
    positions, and no entry twice. *)
Lemma sorted_lookup_lt (l : list R) (p q : nat) (a b : R) :
  StronglySorted Rlt l -> l !! p = Some a -> l !! q = Some b ->
  (p < q)%nat -> (a < b)%R.
Proof.
  intros Hs. revert p q. induction Hs as [|x l Hs IH Hx]; intros p q Hp Hq Hlt.
  - discriminate.
  - destruct q as [|q]; [lia|]. cbn in Hq.
    destruct p as [|p]; cbn in Hp.
    + injection Hp as ->. rewrite List.Forall_forall in Hx. apply Hx.
      apply list_elem_of_In. eapply list_elem_of_lookup_2; eassumption.
    + eapply IH; eauto. lia.
Qed.

Lemma sorted_lookup_inj (l : list R) (p q : nat) (a : R) :
  StronglySorted Rlt l -> l !! p = Some a -> l !! q = Some a -> p = q.
Proof.
  intros Hs Hp Hq.
  destruct (Nat.lt_trichotomy p q) as [H|[H|H]]; [|assumption|].
  - pose proof (sorted_lookup_lt l p q a a Hs Hp Hq H). lra.
  - pose proof (sorted_lookup_lt l q p a a Hs Hq Hp H). lra.
Qed.

Lemma sorted_lookup_le (l : list R) (p q : nat) (a b : R) :
  StronglySorted Rlt l -> l !! p = Some a -> l !! q = Some b ->
  (a <= b)%R -> (p <= q)%nat.
Proof.
  intros Hs Hp Hq Hle.
  destruct (Nat.le_gt_cases p q) as [H|H]; [assumption|].
  pose proof (sorted_lookup_lt l q p b a Hs Hq Hp H). lra.
Qed.

Lemma sorted_NoDup (l : list R) : StronglySorted Rlt l -> NoDup l.
Proof.
  induction 1 as [|x l Hs IH Hx]; constructor; [|assumption].
  intros Hin. rewrite List.Forall_forall in Hx.
  apply list_elem_of_In in Hin. specialize (Hx x Hin). cbv beta in Hx. lra.
Qed.

(** ** Dictionaries *)

Lemma dict_get_missing (l : list R) (s : nat) (z : R) :
  ~ In z l -> dict_get (combine l (seq s (length l))) z = Raise (KeyError z).
Proof.
  revert s. induction l as [|y l IH]; intros s Hnin; [reflexivity|].
  cbn. rewrite IH by (intros H; apply Hnin; right; exact H).
  rewrite Reqb_ne; [reflexivity|]. intros ->. apply Hnin. left. reflexivity.
Qed.

Lemma dict_get_found (l : list R) (s k : nat) (z : R) :
  StronglySorted Rlt l -> l !! k = Some z ->
  dict_get (combine l (seq s (length l))) z = Ok (s + k)%nat.
Proof.
  intros Hs. revert s k. induction Hs as [|y l Hs IH Hy]; intros s k Hk.
  - discriminate.
  - cbn. destruct k as [|k]; cbn in Hk.
    + injection Hk as ->. rewrite dict_get_missing.
      * rewrite Reqb_eq by reflexivity. f_equal. lia.
      * intros Hin. rewrite List.Forall_forall in Hy.
        specialize (Hy z Hin). cbv beta in Hy. lra.
    + rewrite (IH (S s) k Hk). f_equal. lia.
Qed.

Lemma zip_range_found (l : list R) (k : nat) (z : R) :
  StronglySorted Rlt l -> l !! k = Some z -> dict_get (zip_range l) z = Ok k.
Proof. intros Hs Hk. unfold zip_range. apply (dict_get_found l 0 k z Hs Hk). Qed.

Lemma zip_range_missing (l : list R) (z : R) :
  ~ In z l -> dict_get (zip_range l) z = Raise (KeyError z).
Proof. apply dict_get_missing. Qed.

Lemma In_lookup {A} (l : list A) (a : A) :
  In a l -> exists k, l !! k = Some a.
Proof. intros H. apply list_elem_of_In in H. apply list_elem_of_lookup_1 in H. exact H. Qed.

Lemma lookup_In {A} (l : list A) (k : nat) (a : A) :
  l !! k = Some a -> In a l.
Proof. intros H. apply list_elem_of_In. eapply list_elem_of_lookup_2. exact H. Qed.

(** ** Grids *)

Lemma nth_grid {B} (f : nat * nat -> B) (d : B) (n0 n1 s i j : nat) :
  (i < n0)%nat -> (j < n1)%nat ->
  nth (i * n1 + j)
      (map f (flat_map (fun i => map (fun j => (i, j)) (seq 0 n1)) (seq s n0)))
      d = f ((s + i)%nat, j).
Proof.
  revert s i. induction n0 as [|n0 IH]; intros s i Hi Hj; [lia|].
  cbn [seq flat_map]. rewrite map_app.
  assert (Hlen : length (map f (map (fun j => (s, j)) (seq 0 n1))) = n1)
    by (rewrite !length_map, length_seq; reflexivity).
  destruct i as [|i].
  - cbn [Nat.mul Nat.add]. rewrite app_nth1 by lia.
    rewrite (nth_indep _ d (f (s, 0%nat))) by lia.
    rewrite map_map, (map_nth (fun j => f (s, j))), seq_nth by lia.
    rewrite Nat.add_0_r. reflexivity.
  - rewrite app_nth2 by (rewrite Hlen; lia).
    rewrite Hlen.
    replace (S i * n1 + j - n1)%nat with (i * n1 + j)%nat by lia.
    rewrite IH by lia. f_equal. f_equal. lia.
Qed.

Lemma length_grid (n0 n1 s : nat) :
  length (flat_map (fun i => map (fun j => (i, j)) (seq 0 n1)) (seq s n0))
  = (n0 * n1)%nat.
Proof.
  revert s. induction n0 as [|n0 IH]; intros s; [reflexivity|].
  cbn [seq flat_map]. rewrite length_app, length_map, length_seq, IH. lia.
Qed.

Lemma filter_all {A} (f : A -> bool) (l : list A) :
  (forall a, f a = true) -> List.filter f l = l.
Proof.
  intros H. induction l as [|a l IH]; cbn; [reflexivity|].
  rewrite H, IH. reflexivity.
Qed.

Lemma np_where2_all (s : nat -> nat -> bool) (n0 n1 : nat) :
  (forall i j, s i j = true) ->
  np_where2 s n0 n1
  = flat_map (fun i => map (fun j => (i, j)) (seq 0 n1)) (seq 0 n0).
Proof. intros H. unfold np_where2. apply filter_all. intros [i j]. apply H. Qed.

(** ** Closing a contour *)

Lemma points_of_matrix (c : Contour) : map fst (to_matrix c) = points c.
Proof.
  unfold to_matrix. rewrite map_map. cbn.
  induction (points c) as [|[x y] l IH]; cbn; [reflexivity | f_equal; exact IH].
Qed.

Lemma close_contour_path (c : Contour) :
  points c <> [] ->
  close_contour (map fst (to_matrix c)) = Ok (path_vertices c).
Proof.
  intros Hne. rewrite points_of_matrix. unfold path_vertices, close_contour.
  destruct (points c) as [|first l]; [congruence|].
  rewrite getitem_first, getitem_last. cbn [bind].
  destruct (negb _ && negb _); reflexivity.
Qed.

(** ** Minima and maxima *)

Lemma fold_left_select {A} (op : A -> A -> A) (le : A -> A -> Prop) :
  (forall a, le a a) ->
  (forall a b c, le a b -> le b c -> le a c) ->
  (forall a b, op a b = a \/ op a b = b) ->
  (forall a b, le (op a b) a /\ le (op a b) b) ->
  forall l x,
    In (fold_left op l x) (x :: l) /\
    forall y, In y (x :: l) -> le (fold_left op l x) y.
Proof.
  intros Hrefl Htrans Hsel Hle. induction l as [|a l IH]; intros x; cbn [fold_left].
  - split; [left; reflexivity|]. intros y [->|[]]. apply Hrefl.
  - destruct (IH (op x a)) as [Hin Hlow]. split.
    + destruct Hin as [Heq|Hin]; [|right; right; exact Hin].
      rewrite <- Heq. destruct (Hsel x a) as [->| ->]; [left | right; left]; reflexivity.
    + intros y Hy.
      assert (Hop : le (fold_left op l (op x a)) (op x a))
        by (apply Hlow; left; reflexivity).
      destruct Hy as [->|[->|Hy]].
      * eapply Htrans; [exact Hop | apply Hle].
      * eapply Htrans; [exact Hop | apply Hle].
      * apply Hlow. right. exact Hy.
Qed.

Lemma Zmin_list_spec (l : list Z) :
  l <> [] -> exists m, Zmin_list l = Ok m /\ In m l /\ forall y, In y l -> (m <= y)%Z.
Proof.
  destruct l as [|x l]; [congruence|]. intros _.
  exists (fold_left Z.min l x). split; [reflexivity|].
  apply (fold_left_select Z.min Z.le); intros; lia.
Qed.

Lemma Zmax_list_spec (l : list Z) :
  l <> [] -> exists m, Zmax_list l = Ok m /\ In m l /\ forall y, In y l -> (y <= m)%Z.
Proof.
  destruct l as [|x l]; [congruence|]. intros _.
  exists (fold_left Z.max l x). split; [reflexivity|].
  apply (fold_left_select Z.max (fun a b => (b <= a)%Z)); intros; lia.
Qed.

Lemma Rmin_list_spec (l : list R) :
  l <> [] -> exists m, Rmin_list l = Ok m /\ In m l /\ forall y, In y l -> (m <= y)%R.
Proof.
  destruct l as [|x l]; [congruence|]. intros _.
  exists (fold_left Rmin l x). split; [reflexivity|].
  apply (fold_left_select Rmin Rle); intros.
  - lra.
  - lra.
  - unfold Rmin. destruct (Rle_dec a b); auto.
  - split; [apply Rmin_l | apply Rmin_r].
Qed.

Lemma np_max_spec (l : list R) :
  l <> [] -> exists m, np_max l = Ok m /\ In m l /\ forall y, In y l -> (y <= m)%R.
Proof.
  destruct l as [|x l]; [congruence|]. intros _.
  exists (fold_left Rmax l x). split; [reflexivity|].
  apply (fold_left_select Rmax (fun a b => (b <= a)%R)); intros.
  - lra.
  - lra.
  - unfold Rmax. destruct (Rle_dec a b); auto.
  - split; [apply Rmax_l | apply Rmax_r].
Qed.

(** ** The bounding box *)

Lemma stacked_nonempty (ann : Annotation) :
  well_formed ann -> concat (map to_matrix (contours ann)) <> [].
Proof.
  intros [Hne Hpts]. destruct (contours ann) as [|c cs]; [congruence|].
  inversion Hpts as [|? ? Hc _]; subst. cbn. unfold to_matrix at 1.
  destruct (points c); [congruence | discriminate].
Qed.

Lemma In_stacked (ann : Annotation) (r : Z * Z * R) :
  In r (concat (map to_matrix (contours ann))) <->
  exists c, In c (contours ann) /\ In (fst r) (points c) /\
            snd r = image_z_position c.
Proof.
  rewrite in_concat. split.
  - intros (m & Hm & Hr). apply in_map_iff in Hm as (c & <- & Hc).
    unfold to_matrix in Hr. apply in_map_iff in Hr as (p & <- & Hp).
    exists c. cbn. destruct p. auto.
  - intros (c & Hc & Hp & Hz). exists (to_matrix c). split.
    + apply in_map. exact Hc.
    + unfold to_matrix. apply in_map_iff. exists (fst r).
      destruct r as [[x y] z]. cbn in *. subst. auto.
Qed.

(** On a well-formed annotation [bbox] returns the least and the greatest
    coordinate of the contour points on every axis. *)
Lemma bbox_spec (ann : Annotation) :
  well_formed ann ->
  exists b, bbox ann = Ok b /\
    (forall c p, In c (contours ann) -> In p (points c) ->
       (fst (row0 b) <= fst p <= snd (row0 b))%Z /\
       (fst (row1 b) <= snd p <= snd (row1 b))%Z) /\
    (forall c, In c (contours ann) ->
       (fst (row2 b) <= image_z_position c <= snd (row2 b))%R) /\
    (exists c, In c (contours ann) /\ image_z_position c = fst (row2 b)) /\
    (exists c, In c (contours ann) /\ image_z_position c = snd (row2 b)).
Proof.
  intros Hwf. pose proof (stacked_nonempty ann Hwf) as Hne.
  unfold bbox, contours_to_matrix.
  destruct Hwf as [Hcs Hpts].
  destruct (contours ann) as [|c0 cs0] eqn:Ecs; [congruence|]. rewrite <- Ecs in *.
  cbn [bind].
  set (matrix := concat (map to_matrix (contours ann))) in *.
  assert (Hmap : forall {B} (f : Z * Z * R -> B), map f matrix <> []).
  { intros B f H. apply map_eq_nil in H. contradiction. }
  destruct (Zmin_list_spec _ (Hmap _ (fun r => fst (fst r)))) as (xmin & -> & _ & Hxmin).
  destruct (Zmin_list_spec _ (Hmap _ (fun r => snd (fst r)))) as (ymin & -> & _ & Hymin).
  destruct (Rmin_list_spec _ (Hmap _ (fun r => snd r))) as (zmin & -> & Hzin & Hzmin).
  destruct (Zmax_list_spec _ (Hmap _ (fun r => fst (fst r)))) as (xmax & -> & _ & Hxmax).
  destruct (Zmax_list_spec _ (Hmap _ (fun r => snd (fst r)))) as (ymax & -> & _ & Hymax).
  destruct (np_max_spec _ (Hmap _ (fun r => snd r))) as (zmax & -> & Hzax & Hzmax).
  cbn [bind]. eexists. split; [reflexivity|]. cbn [row0 row1 row2 fst snd].
  assert (Hrow : forall c p, In c (contours ann) -> In p (points c) ->
            In (p, image_z_position c) matrix).
  { intros c p Hc Hp. apply In_stacked. exists c. cbn. auto. }
  split; [|split; [|split]].
  - intros c p Hc Hp. specialize (Hrow c p Hc Hp).
    pose proof (in_map (fun r => fst (fst r)) _ _ Hrow) as Hx.
    pose proof (in_map (fun r => snd (fst r)) _ _ Hrow) as Hy.
    cbn in Hx, Hy. auto.
  - intros c Hc. rewrite List.Forall_forall in Hpts.
    specialize (Hpts c Hc). destruct (points c) as [|p ps] eqn:Ep; [congruence|].
    assert (Hp : In p (points c)) by (rewrite Ep; left; reflexivity).
    specialize (Hrow c p Hc Hp).
    pose proof (in_map (fun r => snd r) _ _ Hrow) as Hz. cbn in Hz. auto.
  - apply in_map_iff in Hzin as (r & Hr & Hin).
    apply In_stacked in Hin as (c & Hc & _ & Hz). exists c. split; congruence.
  - apply in_map_iff in Hzax as (r & Hr & Hin).
    apply In_stacked in Hin as (c & Hc & _ & Hz). exists c. split; congruence.
Qed.

(** ** The rasterised grid *)

Section RasterizerFacts.

Variable contains_point : list point -> point -> bool.

Lemma turned_on_snoc (cs : list Contour) (c : Contour) (z : R) (p : point) :
  turned_on contains_point (cs ++ [c]) z p =
  if inclusion c && on_slice z c
  then contains_point (path_vertices c) p
  else turned_on contains_point cs z p.
Proof. unfold turned_on. rewrite fold_left_app. reflexivity. Qed.

Lemma not_carved_snoc (cs : list Contour) (c : Contour) (z : R) (p : point) :
  not_carved contains_point (cs ++ [c]) z p =
  not_carved contains_point cs z p &&
  negb (negb (inclusion c) && on_slice z c
        && contains_point (path_vertices c) p).
Proof.
  unfold not_carved. rewrite forallb_app. cbn [forallb].
  rewrite andb_true_r. reflexivity.
Qed.

(** The candidate points, in the order [reshape] reads them back. *)
Lemma nth_test_points {B} (g : point -> B) (d : B) (b : bbox_t)
    (n0 n1 i j : nat) :
  (i < n0)%nat -> (j < n1)%nat ->
  nth (i * n1 + j)
      (map g (map (fun ij => (fst (row0 b) + Z.of_nat (fst ij),
                              fst (row1 b) + Z.of_nat (snd ij))%Z)
                  (flat_map (fun i => map (fun j => (i, j)) (seq 0 n1))
                            (seq 0 n0))))
      d = g (pixel_at b i j).
Proof.
  intros Hi Hj. rewrite map_map.
  rewrite (nth_grid _ d n0 n1 0 i j Hi Hj). reflexivity.
Qed.

Section Loops.

Variables (b : bbox_t) (zs : list R) (nx ny : nat).
Hypothesis zs_sorted : StronglySorted Rlt zs.

Let test_points : list point :=
  map (fun ij => (fst (row0 b) + Z.of_nat (fst ij),
                  fst (row1 b) + Z.of_nat (snd ij))%Z)
      (flat_map (fun i => map (fun j => (i, j)) (seq 0 ny)) (seq 0 nx)).

Let drawable (c : Contour) : Prop :=
  points c <> [] /\ In (image_z_position c) zs.

Lemma turn_on_step (value : R -> point -> bool) (m : ndarray3 bool)
    (c : Contour) :
  shape3 m = (nx, ny, length zs) ->
  (forall i j k z, (i < nx)%nat -> (j < ny)%nat -> zs !! k = Some z ->
     at3 m i j k = value z (pixel_at b i j)) ->
  drawable c ->
  exists m', turn_on contains_point (zip_range zs) test_points m c = Ok m' /\
    shape3 m' = (nx, ny, length zs) /\
    forall i j k z, (i < nx)%nat -> (j < ny)%nat -> zs !! k = Some z ->
      at3 m' i j k =
      if inclusion c && on_slice z c
      then contains_point (path_vertices c) (pixel_at b i j)
      else value z (pixel_at b i j).
Proof using zs_sorted.
  intros Hsh Hval [Hpts Hin]. unfold turn_on.
  destruct (inclusion c) eqn:Hinc; [|exists m; cbn; auto].
  destruct (In_lookup _ _ Hin) as [kc Hkc].
  rewrite (zip_range_found zs kc _ zs_sorted Hkc). cbn [bind].
  rewrite (close_contour_path c Hpts). cbn [bind].
  unfold reshape2, shape_0, shape_1. rewrite Hsh. cbn [fst snd].
  unfold contains_points. rewrite length_map. subst test_points.
  rewrite length_map, length_grid, Nat.eqb_refl. cbn [bind].
  unfold set_slice, shape_2. rewrite Hsh. cbn [snd].
  pose proof (lookup_lt_Some _ _ _ Hkc) as Hlt.
  apply Nat.ltb_lt in Hlt. rewrite Hlt.
  eexists. split; [reflexivity|]. cbn [shape3 at3]. split; [reflexivity|].
  intros i j k z Hi Hj Hk. cbn [andb]. unfold on_slice.
  destruct (Nat.eqb_spec k kc) as [->|Hne].
  - assert (z = image_z_position c) by congruence. subst z.
    rewrite Reqb_eq by reflexivity.
    apply (nth_test_points (contains_point (path_vertices c))); assumption.
  - rewrite Reqb_ne; [apply Hval; assumption|].
    intros Heq. apply Hne. subst z.
    eapply sorted_lookup_inj; eassumption.
Qed.

Lemma turn_off_step (value : R -> point -> bool) (m : ndarray3 bool)
    (c : Contour) :
  shape3 m = (nx, ny, length zs) ->
  (forall i j k z, (i < nx)%nat -> (j < ny)%nat -> zs !! k = Some z ->
     at3 m i j k = value z (pixel_at b i j)) ->
  drawable c ->
  exists m', turn_off contains_point (zip_range zs) test_points m c = Ok m' /\
    shape3 m' = (nx, ny, length zs) /\
    forall i j k z, (i < nx)%nat -> (j < ny)%nat -> zs !! k = Some z ->
      at3 m' i j k =
      value z (pixel_at b i j) &&
      negb (negb (inclusion c) && on_slice z c
            && contains_point (path_vertices c) (pixel_at b i j)).
Proof using zs_sorted.
  intros Hsh Hval [Hpts Hin]. unfold turn_off.
  destruct (inclusion c) eqn:Hinc; cbn [negb].
  { exists m. split; [reflexivity|]. split; [exact Hsh|].
    intros. cbn. rewrite andb_true_r. apply Hval; assumption. }
  destruct (In_lookup _ _ Hin) as [kc Hkc].
  rewrite (zip_range_found zs kc _ zs_sorted Hkc). cbn [bind].
  rewrite (close_contour_path c Hpts). cbn [bind].
  unfold reshape2, shape_0, shape_1. rewrite Hsh. cbn [fst snd].
  unfold contains_points. rewrite !length_map. subst test_points.
  rewrite length_map, length_grid, Nat.eqb_refl. cbn [bind].
  unfold get_slice, set_slice, shape_2. rewrite Hsh. cbn [snd].
  pose proof (lookup_lt_Some _ _ _ Hkc) as Hlt.
  apply Nat.ltb_lt in Hlt. rewrite Hlt. cbn [bind].
  eexists. split; [reflexivity|]. cbn [shape3 at3]. split; [reflexivity|].
  intros i j k z Hi Hj Hk. cbn [andb]. unfold on_slice.
  destruct (Nat.eqb_spec k kc) as [->|Hne].
  - assert (z = image_z_position c) by congruence. subst z.
    rewrite Reqb_eq by reflexivity. cbn [andb].
    rewrite (Hval i j kc _ Hi Hj Hk). f_equal.
    rewrite map_map.
    apply (nth_test_points (fun p => negb (contains_point (path_vertices c) p)));
      assumption.
  - rewrite Reqb_ne.
    + cbn. rewrite andb_true_r. apply Hval; assumption.
    + intros Heq. apply Hne. subst z. eapply sorted_lookup_inj; eassumption.
Qed.

Lemma turn_on_loop (cs : list Contour) :
  Forall drawable cs ->
  exists m,
    for_each (turn_on contains_point (zip_range zs) test_points) cs
             (np_zeros3 false nx ny (length zs)) = Ok m /\
    shape3 m = (nx, ny, length zs) /\
    forall i j k z, (i < nx)%nat -> (j < ny)%nat -> zs !! k = Some z ->
      at3 m i j k = turned_on contains_point cs z (pixel_at b i j).
Proof using zs_sorted.
  intros Hcs.
  destruct (for_each_invariant
              (turn_on contains_point (zip_range zs) test_points) drawable
              (fun done m =>
                 shape3 m = (nx, ny, length zs) /\
                 forall i j k z, (i < nx)%nat -> (j < ny)%nat ->
                   zs !! k = Some z ->
                   at3 m i j k = turned_on contains_point done z (pixel_at b i j)))
    with (l := cs) (done := @nil Contour)
         (s := np_zeros3 false nx ny (length zs))
    as (m & Hm & Hsh & Hval).
  - intros done c m [Hsh Hval] Hc.
    destruct (turn_on_step (turned_on contains_point done) m c Hsh Hval Hc)
      as (m' & Hm' & Hsh' & Hval').
    exists m'. split; [exact Hm'|]. split; [exact Hsh'|].
    intros i j k z Hi Hj Hk. rewrite turned_on_snoc. apply Hval'; assumption.
  - split; [reflexivity|]. intros. reflexivity.
  - exact Hcs.
  - exists m. auto.
Qed.

Lemma turn_off_loop (cs : list Contour) (value : R -> point -> bool)
    (m : ndarray3 bool) :
  shape3 m = (nx, ny, length zs) ->
  (forall i j k z, (i < nx)%nat -> (j < ny)%nat -> zs !! k = Some z ->
     at3 m i j k = value z (pixel_at b i j)) ->
  Forall drawable cs ->
  exists m',
    for_each (turn_off contains_point (zip_range zs) test_points) cs m = Ok m' /\
    shape3 m' = (nx, ny, length zs) /\
    forall i j k z, (i < nx)%nat -> (j < ny)%nat -> zs !! k = Some z ->
      at3 m' i j k =
      value z (pixel_at b i j) && not_carved contains_point cs z (pixel_at b i j).
Proof using zs_sorted.
  intros Hsh Hval Hcs.
  destruct (for_each_invariant
              (turn_off contains_point (zip_range zs) test_points) drawable
              (fun done m' =>
                 shape3 m' = (nx, ny, length zs) /\
                 forall i j k z, (i < nx)%nat -> (j < ny)%nat ->
                   zs !! k = Some z ->
                   at3 m' i j k =
                   value z (pixel_at b i j) &&
                   not_carved contains_point done z (pixel_at b i j)))
    with (l := cs) (done := @nil Contour) (s := m)
    as (m' & Hm' & Hsh' & Hval').
  - intros done c m1 [Hsh1 Hval1] Hc.
    destruct (turn_off_step
                (fun z p => value z p && not_carved contains_point done z p)
                m1 c Hsh1 Hval1 Hc) as (m2 & Hm2 & Hsh2 & Hval2).
    exists m2. split; [exact Hm2|]. split; [exact Hsh2|].
    intros i j k z Hi Hj Hk. rewrite not_carved_snoc, andb_assoc.
    apply Hval2; assumption.
  - split; [exact Hsh|]. intros. cbn. rewrite andb_true_r. apply Hval; assumption.
  - exact Hcs.
  - exists m'. auto.
Qed.

End Loops.

(** [as_boolean_mask] before its last line, on a well-formed annotation:
    it returns, the box is [bbox], the shape is the extents of the box by
    the number of distinct z-positions, and every entry is what the two
    loops leave. *)
Lemma xyz_mask_spec (ann : Annotation) :
  well_formed ann ->
  exists m b,
    xyz_mask contains_point ann = Ok (m, b) /\
    bbox ann = Ok b /\
    shape3 m = (extent_x b, extent_y b,
                length (np_unique (map image_z_position (contours ann)))) /\
    forall i j k z, (i < extent_x b)%nat -> (j < extent_y b)%nat ->
      np_unique (map image_z_position (contours ann)) !! k = Some z ->
      at3 m i j k =
      turned_on contains_point (contours ann) z (pixel_at b i j) &&
      not_carved contains_point (contours ann) z (pixel_at b i j).
Proof.
  intros Hwf. destruct (bbox_spec ann Hwf) as (b & Hb & _).
  unfold xyz_mask. rewrite Hb. cbn [bind].
  set (zs := np_unique (map image_z_position (contours ann))).
  pose proof (np_unique_sorted (map image_z_position (contours ann))) as Hs.
  fold zs in Hs.
  destruct Hwf as [Hne Hpts].
  assert (Hzs : zs <> []).
  { apply np_unique_nonempty. destruct (contours ann); [congruence | discriminate]. }
  unfold get_slice, shape_2. cbn [np_zeros3 shape3 snd].
  assert (Hnz : (0 <? length zs)%nat = true)
    by (apply Nat.ltb_lt; destruct zs; [congruence | cbn; lia]).
  rewrite Hnz. cbn [bind at3 negb].
  rewrite np_where2_all by reflexivity.
  fold (extent_x b) (extent_y b).
  assert (Hdraw : Forall (fun c => points c <> [] /\ In (image_z_position c) zs)
                         (contours ann)).
  { rewrite List.Forall_forall in Hpts |- *. intros c Hc. split; [auto|].
    apply np_unique_In. apply in_map. exact Hc. }
  destruct (turn_on_loop b zs (extent_x b) (extent_y b) Hs (contours ann) Hdraw)
    as (m1 & Hm1 & Hsh1 & Hval1).
  rewrite Hm1. cbn [bind].
  destruct (turn_off_loop b zs (extent_x b) (extent_y b) Hs (contours ann)
              (turned_on contains_point (contours ann)) m1 Hsh1 Hval1 Hdraw)
    as (m2 & Hm2 & Hsh2 & Hval2).
  rewrite Hm2. cbn [bind].
  exists m2, b. auto.
Qed.

End RasterizerFacts.

(** ** Claims on [as_boolean_mask] *)

Lemma close_contour_appends (first : point) (m : list point) :
  close_contour (first :: m) =
  Ok (if negb (fst first =? fst (List.last (first :: m) first))%Z &&
         negb (snd first =? snd (List.last (first :: m) first))%Z
      then (first :: m) ++ [first]
      else first :: m).
Proof.
  unfold close_contour. rewrite getitem_first, getitem_last. cbn [bind].
  destruct (negb _ && negb _); reflexivity.
Qed.

Section RasterizerClaims.

Variable contains_point : list point -> point -> bool.

Lemma as_boolean_mask_spec (ann : Annotation) :
  well_formed ann ->
  exists m b,
    xyz_mask contains_point ann = Ok (m, b) /\
    as_boolean_mask contains_point ann = Ok (swapaxes01 m, bbox_swap01 b) /\
    bbox ann = Ok b /\
    shape3 m = (extent_x b, extent_y b,
                length (np_unique (map image_z_position (contours ann)))) /\
    forall i j k z, (i < extent_x b)%nat -> (j < extent_y b)%nat ->
      np_unique (map image_z_position (contours ann)) !! k = Some z ->
      at3 m i j k =
      turned_on contains_point (contours ann) z (pixel_at b i j) &&
      not_carved contains_point (contours ann) z (pixel_at b i j).
Proof.
  intros Hwf.
  destruct (xyz_mask_spec contains_point ann Hwf) as (m & b & Hm & Hb & Hsh & Hval).
  exists m, b. unfold as_boolean_mask. rewrite Hm. cbn. auto.
Qed.

(** C2, at a failing input. The square drawn from (0,0) through (2,0) and
    (2,2) to (0,2) ends at a point that differs from its first point, yet
    [close_contour] returns it as it is: the first point is appended only
    when the first and the last point differ in both coordinates. The
    open sequence of vertices is what reaches the containment test: for
    the annotation made of this contour every pixel of the mask is the
    test of the four vertices as they are. *)
Theorem close_contour_misses_shared_coordinate :
  let c := square 0 0 2 0 true in
  hd (0, 0)%Z (points c) <> List.last (points c) (0, 0)%Z /\
  close_contour (map fst (to_matrix c)) = Ok (points c) /\
  close_if_differ (points c) = points c ++ [(0, 0)%Z] /\
  forall s : Scan,
  exists mask b,
    as_boolean_mask contains_point {| scan := s; contours := [c] |}
      = Ok (mask, bbox_swap01 b) /\
    forall i j, (i < extent_x b)%nat -> (j < extent_y b)%nat ->
      at3 mask j i 0 =
      contains_point [(0, 0); (2, 0); (2, 2); (0, 2)]%Z (pixel_at b i j).
Proof.
  cbn zeta. split; [|split; [|split]]; [|reflexivity|reflexivity|].
  { unfold square. cbn [points hd List.last]. intros H. injection H. lia. }
  intros s.
  set (ann := {| scan := s; contours := [square 0 0 2 0 true] |}).
  assert (Hwf : well_formed ann)
    by (split; [discriminate | repeat constructor; discriminate]).
  destruct (as_boolean_mask_spec ann Hwf) as (m & b & _ & Hmask & _ & _ & Hval).
  exists (swapaxes01 m), b. split; [exact Hmask|].
  intros i j Hi Hj. cbn [swapaxes01 at3].
  rewrite (Hval i j 0%nat 0%R Hi Hj eq_refl).
  cbn [ann contours]. unfold turned_on, not_carved, on_slice.
  cbn [fold_left forallb square inclusion image_z_position andb negb].
  rewrite Reqb_eq by reflexivity. rewrite !andb_true_r. reflexivity.
Qed.

Lemma extent_x_spec (ann : Annotation) (b : bbox_t) :
  well_formed ann -> bbox ann = Ok b ->
  Z.of_nat (extent_x b) = (snd (row0 b) - fst (row0 b) + 1)%Z /\
  Z.of_nat (extent_y b) = (snd (row1 b) - fst (row1 b) + 1)%Z.
Proof.
  intros Hwf Hb. destruct (bbox_spec ann Hwf) as (b' & Hb' & Hxy & _).
  assert (b' = b) by congruence. subst b'.
  destruct Hwf as [Hne Hpts].
  destruct (contours ann) as [|c cs] eqn:Ec; [congruence|].
  inversion Hpts as [|? ? Hc _]; subst.
  destruct (points c) as [|p ps] eqn:Ep; [congruence|].
  destruct (Hxy c p) as [Hx Hy]; [left; reflexivity | rewrite Ep; left; reflexivity|].
  unfold extent_x, extent_y. lia.
Qed.

(** C9. On an annotation with a contour, [as_boolean_mask] returns the
    internal [(x, y, z)] grid with its first two axes swapped, paired with
    the bounding box with its first two rows swapped: the mask has shape
    [(ny, nx, nz)], where [nx = xmax - xmin + 1] and [ny = ymax - ymin + 1]
    are the inclusive extents of the box and [nz] is the number of
    distinct z-positions of the contours. *)
Theorem as_boolean_mask_swaps_axes (ann : Annotation) :
  well_formed ann ->
  exists m b mask zs,
    xyz_mask contains_point ann = Ok (m, b) /\
    bbox ann = Ok b /\
    as_boolean_mask contains_point ann =
      Ok (mask, {| row0 := row1 b; row1 := row0 b; row2 := row2 b |}) /\
    (forall i j k, at3 mask i j k = at3 m j i k) /\
    shape3 m = (shape_1 mask, shape_0 mask, shape_2 mask) /\
    Z.of_nat (shape_1 mask) = (snd (row0 b) - fst (row0 b) + 1)%Z /\
    Z.of_nat (shape_0 mask) = (snd (row1 b) - fst (row1 b) + 1)%Z /\
    shape_2 mask = length zs /\
    NoDup zs /\
    (forall z, In z zs <->
               exists c, In c (contours ann) /\ image_z_position c = z).
Proof.
  intros Hwf.
  destruct (as_boolean_mask_spec ann Hwf) as (m & b & Hm & Hmask & Hb & Hsh & _).
  destruct (extent_x_spec ann b Hwf Hb) as [Hx Hy].
  exists m, b, (swapaxes01 m), (np_unique (map image_z_position (contours ann))).
  split; [exact Hm|]. split; [exact Hb|]. split; [exact Hmask|].
  split; [reflexivity|].
  unfold shape_0, shape_1, shape_2. cbn [swapaxes01 shape3 fst snd].
  unfold shape_0, shape_1, shape_2. rewrite Hsh. cbn [fst snd].
  split; [reflexivity|]. split; [exact Hx|]. split; [exact Hy|].
  split; [reflexivity|]. split.
  - apply sorted_NoDup, np_unique_sorted.
  - intros z. rewrite np_unique_In, in_map_iff.
    split; intros (c & H1 & H2); exists c; auto.
Qed.

Lemma turned_on_skip (cs : list Contour) (z : R) (p : point) (acc : bool) :
  (forall c, In c cs -> inclusion c = true -> image_z_position c <> z) ->
  fold_left
    (fun acc c =>
       if inclusion c && on_slice z c
       then contains_point (path_vertices c) p
       else acc)
    cs acc = acc.
Proof.
  revert acc. induction cs as [|c cs IH]; intros acc H; cbn [fold_left]; [reflexivity|].
  rewrite IH by (intros c' Hc'; apply H; right; exact Hc').
  destruct (inclusion c) eqn:Hinc; [|reflexivity].
  unfold on_slice. rewrite Reqb_ne; [reflexivity|].
  apply H; [left; reflexivity | exact Hinc].
Qed.

Lemma turned_on_last (pre post : list Contour) (c : Contour) (p : point) :
  inclusion c = true ->
  (forall c', In c' post -> inclusion c' = true ->
     image_z_position c' <> image_z_position c) ->
  turned_on contains_point (pre ++ c :: post) (image_z_position c) p
  = contains_point (path_vertices c) p.
Proof.
  intros Hinc Hpost. unfold turned_on. rewrite fold_left_app. cbn [fold_left].
  rewrite turned_on_skip by exact Hpost.
  rewrite Hinc. unfold on_slice. rewrite Reqb_eq by reflexivity. reflexivity.
Qed.

Lemma not_carved_none (cs : list Contour) (z : R) (p : point) :
  (forall c, In c cs -> inclusion c = false -> image_z_position c <> z) ->
  not_carved contains_point cs z p = true.
Proof.
  intros H. unfold not_carved. apply forallb_forall. intros c Hc.
  destruct (inclusion c) eqn:Hinc; [reflexivity|].
  unfold on_slice. rewrite Reqb_ne; [reflexivity|]. apply H; assumption.
Qed.

(** C7. Let [c] be the last inclusion contour of its z-slice in the
    iteration order of the contours ([post] holds no inclusion contour at
    the z-position of [c]), whatever comes before it. In the mask
    [as_boolean_mask] returns, the slice of [c] is the containment result
    of [c] alone, carved by the exclusion contours of the slice: no
    earlier inclusion contour of the slice leaves a trace, and with no
    exclusion contour on the slice the slice is the containment result of
    [c]. *)
Theorem later_inclusion_contour_overwrites
    (ann : Annotation) (pre post : list Contour) (c : Contour) :
  well_formed ann ->
  contours ann = pre ++ c :: post ->
  inclusion c = true ->
  (forall c', In c' post -> inclusion c' = true ->
     image_z_position c' <> image_z_position c) ->
  exists mask b k,
    as_boolean_mask contains_point ann = Ok (mask, bbox_swap01 b) /\
    bbox ann = Ok b /\
    np_unique (map image_z_position (contours ann)) !! k
      = Some (image_z_position c) /\
    (k < shape_2 mask)%nat /\
    (forall i j, (i < extent_x b)%nat -> (j < extent_y b)%nat ->
       at3 mask j i k =
       contains_point (path_vertices c) (pixel_at b i j) &&
       not_carved contains_point (contours ann) (image_z_position c)
                  (pixel_at b i j)) /\
    ((forall c', In c' (contours ann) -> inclusion c' = false ->
        image_z_position c' <> image_z_position c) ->
     forall i j, (i < extent_x b)%nat -> (j < extent_y b)%nat ->
       at3 mask j i k = contains_point (path_vertices c) (pixel_at b i j)).
Proof.
  intros Hwf Hcs Hinc Hpost.
  destruct (as_boolean_mask_spec ann Hwf) as (m & b & _ & Hmask & Hb & Hsh & Hval).
  assert (Hin : In (image_z_position c)
                   (np_unique (map image_z_position (contours ann)))).
  { apply np_unique_In, in_map. rewrite Hcs. apply in_or_app. right. left. reflexivity. }
  destruct (In_lookup _ _ Hin) as [k Hk].
  assert (Hpix : forall i j, (i < extent_x b)%nat -> (j < extent_y b)%nat ->
            at3 (swapaxes01 m) j i k =
            contains_point (path_vertices c) (pixel_at b i j) &&
            not_carved contains_point (contours ann) (image_z_position c)
                       (pixel_at b i j)).
  { intros i j Hi Hj. cbn [swapaxes01 at3]. rewrite (Hval i j k _ Hi Hj Hk).
    f_equal. rewrite Hcs. apply turned_on_last; assumption. }
  exists (swapaxes01 m), b, k.
  split; [exact Hmask|]. split; [exact Hb|]. split; [exact Hk|]. split.
  { unfold shape_2. cbn [swapaxes01 shape3 snd]. unfold shape_2. rewrite Hsh.
    cbn [snd]. eapply lookup_lt_Some. exact Hk. }
  split; [exact Hpix|].
  intros Hnone i j Hi Hj. rewrite (Hpix i j Hi Hj).
  rewrite not_carved_none by exact Hnone. apply andb_true_r.
Qed.

Lemma np_unique_pair_same (z : R) : np_unique [z; z] = [z].
Proof.
  cbn. rewrite Rltb_ge by lra. rewrite Reqb_eq by reflexivity. reflexivity.
Qed.

(** An inclusion contour and an exclusion contour on one slice: what the
    two loops leave at a pixel. *)
Lemma inclusion_exclusion_mask
    (s : Scan) (inc exc : Contour) (cs : list Contour) :
  inclusion inc = true -> inclusion exc = false ->
  image_z_position inc = image_z_position exc ->
  points inc <> [] -> points exc <> [] ->
  cs = [inc; exc] \/ cs = [exc; inc] ->
  exists mask b,
    as_boolean_mask contains_point {| scan := s; contours := cs |}
      = Ok (mask, bbox_swap01 b) /\
    bbox {| scan := s; contours := cs |} = Ok b /\
    shape3 mask = (extent_y b, extent_x b, 1%nat) /\
    forall i j, (i < extent_x b)%nat -> (j < extent_y b)%nat ->
      at3 mask j i 0 =
        contains_point (path_vertices inc) (pixel_at b i j) &&
        negb (contains_point (path_vertices exc) (pixel_at b i j)) /\
      (contains_point (path_vertices exc) (pixel_at b i j) = true ->
       at3 mask j i 0 = false) /\
      (contains_point (path_vertices inc) (pixel_at b i j) = true ->
       contains_point (path_vertices exc) (pixel_at b i j) = false ->
       at3 mask j i 0 = true).
Proof.
  intros Hinc Hexc Hz Hpi Hpe Hcs.
  set (ann := {| scan := s; contours := cs |}).
  assert (Hwf : well_formed ann).
  { unfold well_formed. cbn [ann contours].
    destruct Hcs as [-> | ->]; (split; [discriminate | repeat constructor; assumption]). }
  destruct (as_boolean_mask_spec ann Hwf) as (m & b & _ & Hmask & Hb & Hsh & Hval).
  assert (Hzs : np_unique (map image_z_position (contours ann))
                = [image_z_position exc]).
  { cbn [ann contours]. destruct Hcs as [-> | ->]; cbn [map];
      rewrite Hz; apply np_unique_pair_same. }
  rewrite Hzs in Hsh, Hval.
  assert (Hpix : forall i j, (i < extent_x b)%nat -> (j < extent_y b)%nat ->
            at3 (swapaxes01 m) j i 0 =
            contains_point (path_vertices inc) (pixel_at b i j) &&
            negb (contains_point (path_vertices exc) (pixel_at b i j))).
  { intros i j Hi Hj. cbn [swapaxes01 at3].
    rewrite (Hval i j 0%nat (image_z_position exc) Hi Hj eq_refl).
    cbn [ann contours]. unfold turned_on, not_carved, on_slice.
    destruct Hcs as [-> | ->]; cbn [fold_left forallb];
      rewrite Hinc, Hexc, Hz, Reqb_eq by reflexivity; cbn [andb negb];
      rewrite ?andb_true_r; reflexivity. }
  exists (swapaxes01 m), b.
  split; [exact Hmask|]. split; [exact Hb|]. split.
  { cbn [swapaxes01 shape3]. unfold shape_0, shape_1, shape_2. rewrite Hsh.
    reflexivity. }
  intros i j Hi Hj. rewrite (Hpix i j Hi Hj). split; [reflexivity|]. split.
  - intros ->. apply andb_false_r.
  - intros -> ->. reflexivity.
Qed.

(** X25. An annotation made of an inclusion contour and an exclusion
    contour on the same slice, in either order. In the mask
    [as_boolean_mask] returns, every pixel is the containment test of the
    path of the inclusion contour and-ed with the negated containment test
    of the path of the exclusion contour: the second loop carves out of
    the result of the first. The paths are those the code builds from the
    contours, and the containment test is the one it runs on them. *)
Theorem exclusion_contour_carves_hole
    (s : Scan) (inc exc : Contour) (cs : list Contour) :
  inclusion inc = true -> inclusion exc = false ->
  image_z_position inc = image_z_position exc ->
  points inc <> [] -> points exc <> [] ->
  cs = [inc; exc] \/ cs = [exc; inc] ->
  exists mask b,
    as_boolean_mask contains_point {| scan := s; contours := cs |}
      = Ok (mask, bbox_swap01 b) /\
    bbox {| scan := s; contours := cs |} = Ok b /\
    shape3 mask = (extent_y b, extent_x b, 1%nat) /\
    forall i j, (i < extent_x b)%nat -> (j < extent_y b)%nat ->
      at3 mask j i 0 =
        contains_point (path_vertices inc) (pixel_at b i j) &&
        negb (contains_point (path_vertices exc) (pixel_at b i j)) /\
      (contains_point (path_vertices exc) (pixel_at b i j) = true ->
       at3 mask j i 0 = false) /\
      (contains_point (path_vertices inc) (pixel_at b i j) = true ->
       contains_point (path_vertices exc) (pixel_at b i j) = false ->
       at3 mask j i 0 = true).
Proof.
  exact (inclusion_exclusion_mask s inc exc cs).
Qed.

End RasterizerClaims.

(** ** Claims on [estimate_volume] *)

Lemma getitem_neg {A} (l : list A) (k : nat) (a : A) :
  (0 < k <= length l)%nat -> l !! (length l - k)%nat = Some a ->
  getitem l (- Z.of_nat k) = Ok a.
Proof.
  intros Hk Hl. unfold getitem, py_index.
  destruct (Z.leb_spec 0 (- Z.of_nat k)) as [Hneg|_]; [lia|].
  destruct (Z.leb_spec (- Z.of_nat (length l)) (- Z.of_nat k)) as [_|Hlen]; [|lia].
  cbn [bind].
  replace (Z.to_nat (Z.of_nat (length l) + - Z.of_nat k)) with (length l - k)%nat by lia.
  rewrite Hl. reflexivity.
Qed.

Lemma setitem_nat {A} (l : list A) (k : nat) (a : A) :
  (k < length l)%nat -> setitem l (Z.of_nat k) a = Ok (<[k := a]> l).
Proof.
  intros Hk. unfold setitem, py_index.
  destruct (Z.leb_spec 0 (Z.of_nat k)) as [_|Hneg]; [|lia].
  destruct (Z.ltb_spec (Z.of_nat k) (Z.of_nat (length l))) as [_|Hge]; [|lia].
  cbn. rewrite Nat2Z.id. reflexivity.
Qed.

Lemma setitem_neg {A} (l : list A) (k : nat) (a : A) :
  (0 < k <= length l)%nat ->
  setitem l (- Z.of_nat k) a = Ok (<[(length l - k)%nat := a]> l).
Proof.
  intros Hk. unfold setitem, py_index.
  destruct (Z.leb_spec 0 (- Z.of_nat k)) as [Hneg|_]; [lia|].
  destruct (Z.leb_spec (- Z.of_nat (length l)) (- Z.of_nat k)) as [_|Hlen]; [|lia].
  cbn [bind].
  replace (Z.to_nat (Z.of_nat (length l) + - Z.of_nat k)) with (length l - k)%nat by lia.
  reflexivity.
Qed.

(** What lines 278-280 build from any array of z-positions: two zeros on
    either side. The entries the two assignments read are the zeros of the
    padding, not the first and the last z-position. *)
Lemma pad_zvals_zeros (zvals : list R) :
  pad_zvals zvals = Ok (0 :: 0 :: zvals ++ [0; 0])%R.
Proof.
  unfold pad_zvals, np_pad. cbn [repeat app].
  set (l := (0 :: 0 :: zvals ++ [0; 0])%R).
  assert (Hlen : length l = (length zvals + 4)%nat).
  { subst l. cbn [length]. rewrite length_app. cbn [length]. lia. }
  assert (H1 : l !! (length l - 1)%nat = Some 0%R).
  { rewrite Hlen. subst l.
    replace (length zvals + 4 - 1)%nat with (S (S (length zvals + 1))) by lia.
    change ((zvals ++ [0; 0]%R) !! (length zvals + 1)%nat = Some 0%R).
    rewrite lookup_app_r by lia.
    replace (length zvals + 1 - length zvals)%nat with 1%nat by lia. reflexivity. }
  assert (H2 : l !! (length l - 2)%nat = Some 0%R).
  { rewrite Hlen. subst l.
    replace (length zvals + 4 - 2)%nat with (S (S (length zvals + 0))) by lia.
    change ((zvals ++ [0; 0]%R) !! (length zvals + 0)%nat = Some 0%R).
    rewrite lookup_app_r by lia.
    replace (length zvals + 0 - length zvals)%nat with 0%nat by lia. reflexivity. }
  assert (G0 : getitem l 0 = Ok 0%R) by (apply (getitem_nat l 0); reflexivity).
  assert (G1 : getitem l 1 = Ok 0%R) by (apply (getitem_nat l 1); reflexivity).
  assert (Gm1 : getitem l (-1) = Ok 0%R)
    by (apply (getitem_neg l 1); [rewrite Hlen; lia | exact H1]).
  assert (Gm2 : getitem l (-2) = Ok 0%R)
    by (apply (getitem_neg l 2); [rewrite Hlen; lia | exact H2]).
  assert (S0 : forall a, setitem l 0 a = Ok (<[0%nat := a]> l))
    by (intros a; apply (setitem_nat l 0); rewrite Hlen; lia).
  assert (Sm1 : forall a, setitem l (-1) a = Ok (<[(length l - 1)%nat := a]> l))
    by (intros a; apply (setitem_neg l 1); rewrite Hlen; lia).
  rewrite G0. cbn [bind]. rewrite G1. cbn [bind]. rewrite S0. cbn [bind].
  replace (0 - (0 - 0))%R with 0%R by lra.
  replace (<[0%nat := 0%R]> l) with l by reflexivity.
  rewrite Gm1. cbn [bind]. rewrite Gm2. cbn [bind]. rewrite Sm1.
  replace (0 + (0 - 0))%R with 0%R by lra.
  rewrite list_insert_id by exact H1. reflexivity.
Qed.

(** Evaluation of the integer under a conversion to a float. *)
Ltac IZR_eval :=
  repeat match goal with
  | |- context [IZR ?z] =>
      lazymatch z with
      | Z0 => fail
      | Zpos _ => fail
      | Zneg _ => fail
      | _ => let z' := eval vm_compute in z in change (IZR z) with (IZR z')
      end
  end.

Lemma shoelace_unit_square (z : R) (incl : bool) :
  shoelace_area (scale_xyz (to_matrix (square 0 0 1 z incl)) 1) = 1%R.
Proof.
  unfold shoelace_area, scale_xyz, to_matrix, square.
  cbn [points image_z_position map fst snd np_roll1 List.last removelast np_dot Z.add].
  IZR_eval. Rabs_eval. lra.
Qed.

Lemma np_unique_two_slices :
  np_unique (map image_z_position (contours two_slices)) = [1; 3]%R.
Proof.
  cbn [two_slices contours map square image_z_position np_unique fold_right insert_unique].
  Rcmp_eval. reflexivity.
Qed.

(** Evaluation of [l[i]] for a closed list and a closed index [i >= 0]. *)
Ltac getitem_eval :=
  repeat match goal with
  | |- context [getitem ?l ?i] =>
      let k := eval vm_compute in (Z.to_nat i) in
      change i with (Z.of_nat k);
      erewrite (getitem_nat l k) by reflexivity;
      cbn [bind]
  end.

Lemma spacing_two_slices_first :
  spacing_of two_slices (Some [0; 0; 1; 3; 0; 0]%R) (square 0 0 1 1 true)
  = Ok 1.5%R.
Proof.
  unfold spacing_of. cbn [square image_z_position map np_argmin argmin_from].
  Rabs_eval. Rcmp_eval. cbn [bind]. getitem_eval. f_equal. lra.
Qed.

Lemma spacing_two_slices_second :
  spacing_of two_slices (Some [0; 0; 1; 3; 0; 0]%R) (square 0 0 1 3 true)
  = Ok (-0.5)%R.
Proof.
  unfold spacing_of. cbn [square image_z_position map np_argmin argmin_from].
  Rabs_eval. Rcmp_eval. cbn [bind]. getitem_eval. f_equal. lra.
Qed.

Lemma estimate_volume_two_slices : estimate_volume two_slices = Ok 1%R.
Proof.
  unfold estimate_volume. rewrite np_unique_two_slices.
  cbn [two_slices contours length Nat.eqb negb].
  rewrite pad_zvals_zeros. cbn [bind app].
  cbn [for_each]. unfold volume_step.
  change (pixel_spacing (scan two_slices)) with 1%R.
  rewrite !shoelace_unit_square.
  rewrite spacing_two_slices_first. cbn [bind].
  rewrite spacing_two_slices_second.
  cbn [bind for_each inclusion square].
  f_equal. lra.
Qed.

(** C1, at a failing input. For the two unit squares on the slices at
    1 mm and 3 mm the mirrored extension of the z-positions is
    [-1, 1, 3, 5], which gives either contour the thickness 2 and the
    annotation the volume 4. The code extends [1, 3] to
    [0, 0, 1, 3, 0, 0], as it does for any z-positions: it pads two zeros
    on either side and both assignments read and write zeros of the
    padding. The thickness is 1.5 for the first contour and -0.5 for the
    second, and the volume is 1. *)
Theorem estimate_volume_pads_zeros :
  extend_mirrored [1; 3]%R = [-1; 1; 3; 5]%R /\
  (forall zvals, pad_zvals zvals = Ok (0 :: 0 :: zvals ++ [0; 0])%R) /\
  pad_zvals [1; 3]%R = Ok [0; 0; 1; 3; 0; 0]%R /\
  spacing_of two_slices (Some [0; 0; 1; 3; 0; 0]%R) (square 0 0 1 1 true)
    = Ok 1.5%R /\
  spacing_of two_slices (Some [0; 0; 1; 3; 0; 0]%R) (square 0 0 1 3 true)
    = Ok (-0.5)%R /\
  estimate_volume two_slices = Ok 1%R.
Proof.
  split; [|split; [|split; [|split; [|split]]]].
  - unfold extend_mirrored. cbn [rev app]. repeat f_equal; lra.
  - exact pad_zvals_zeros.
  - apply pad_zvals_zeros.
  - exact spacing_two_slices_first.
  - exact spacing_two_slices_second.
  - exact estimate_volume_two_slices.
Qed.

(** A lone contour: the area of line 289 times the slice thickness of the
    scan, with the sign of the contour. *)
Lemma estimate_volume_one_contour (s : Scan) (c : Contour) :
  estimate_volume {| scan := s; contours := [c] |} =
  Ok (let A := shoelace_area (scale_xyz (to_matrix c) (pixel_spacing s)) in
      let T := slice_thickness s in
      if inclusion c then A * T else - (A * T))%R.
Proof.
  unfold estimate_volume. cbn [contours length Nat.eqb negb bind for_each].
  unfold volume_step, spacing_of. cbn [scan bind].
  f_equal. destruct (inclusion c); lra.
Qed.

(** ** [estimate_diameter] *)

Lemma length_scale_xy (s : R) (c : Contour) :
  length (scale_xy (map fst (to_matrix c)) s) = length (points c).
Proof. rewrite points_of_matrix. unfold scale_xy. apply length_map. Qed.


Lemma diameter_step_skip (s : R) (st : diam * (nat * nat * nat)) (n : nat)
    (c : Contour) :
  length (points c) = 1%nat -> diameter_step s st (n, c) = Ok st.
Proof.
  intros H. unfold diameter_step. cbn [fst snd].
  rewrite length_scale_xy, H. reflexivity.
Qed.

Lemma euclidean_3_4 : euclidean (0 * 1, 0 * 1)%R (3 * 1, 4 * 1)%R = 5%R.
Proof.
  unfold euclidean. cbn [fst snd].
  replace ((0 * 1 - 3 * 1) * (0 * 1 - 3 * 1) + (0 * 1 - 4 * 1) * (0 * 1 - 4 * 1))%R
    with (5 * 5)%R by lra.
  apply sqrt_square. lra.
Qed.

Lemma euclidean_sym (p q : R * R) : euclidean p q = euclidean q p.
Proof. unfold euclidean. f_equal. ring. Qed.

Lemma euclidean_refl (p : R * R) : euclidean p p = 0%R.
Proof.
  unfold euclidean.
  replace ((fst p - fst p) * (fst p - fst p) + (snd p - snd p) * (snd p - snd p))%R
    with 0%R by ring.
  apply sqrt_0.
Qed.

Lemma estimate_diameter_3_4 :
  estimate_diameter one_segment false = Ok (Finite 5, None) /\
  estimate_diameter one_segment true = Ok (Finite 5, Some (0, 0, 1)%nat).
Proof.
  unfold estimate_diameter, one_segment, enumerate.
  cbn [contours scan sample_scan pixel_spacing enumerate_from for_each].
  unfold diameter_step. cbn [fst snd]. rewrite points_of_matrix.
  cbn [segment_3_4 points scale_xy map fst snd length Nat.eqb].
  cbn [squareform_pdist map concat app np_max fold_left np_argmax argmax_from].
  rewrite !euclidean_refl, (euclidean_sym (3 * 1, 4 * 1)%R), euclidean_3_4.
  Rcmp_eval. cbn [bind diam_gt]. Rcmp_eval. cbn [fst snd bind negb length].
  split; reflexivity.
Qed.

(** ** Claims on [to_volume] *)

(** The nearest entry of a strictly increasing array to one of its own
    entries is that entry. *)
Lemma argmin_from_keep (best : R) (besti i : nat) (l : list R) :
  (forall x, In x l -> (best <= x)%R) -> argmin_from best besti i l = besti.
Proof.
  revert i. induction l as [|x l IH]; intros i H; cbn [argmin_from]; [reflexivity|].
  rewrite Rltb_ge by (apply H; left; reflexivity).
  apply IH. intros y Hy. apply H. right. exact Hy.
Qed.

Lemma argmin_from_unique (l : list R) (best : R) (besti i p : nat) (v : R) :
  l !! p = Some v -> (v < best)%R ->
  (forall q w, l !! q = Some w -> q <> p -> (v < w)%R) ->
  argmin_from best besti i l = (i + p)%nat.
Proof.
  revert best besti i p. induction l as [|x l IH]; intros best besti i p Hp Hlt Hothers.
  - discriminate.
  - cbn [argmin_from]. destruct p as [|p].
    + injection Hp as ->. rewrite Rltb_lt by exact Hlt.
      rewrite argmin_from_keep; [lia|].
      intros y Hy. destruct (In_lookup _ _ Hy) as [q Hq].
      left. apply (Hothers (S q) y); [exact Hq | lia].
    + assert (Hx : (v < x)%R) by (apply (Hothers 0%nat x); [reflexivity | lia]).
      assert (Hrec : forall b bi, (v < b)%R ->
                argmin_from b bi (S i) l = (i + S p)%nat).
      { intros b bi Hb. rewrite (IH b bi (S i) p Hp Hb); [lia|].
        intros q w Hq Hne. apply (Hothers (S q) w); [exact Hq | lia]. }
      destruct (Rltb x best); apply Hrec; assumption.
Qed.

Lemma nearest_exact (l : list R) (p : nat) (v : R) :
  StronglySorted Rlt l -> l !! p = Some v ->
  np_argmin (map (fun z => Rabs (v - z)) l) = Ok p.
Proof.
  intros Hs Hp.
  assert (Hzero : map (fun z => Rabs (v - z)) l !! p = Some 0%R).
  { rewrite list_lookup_fmap, Hp. cbn. f_equal.
    replace (v - v)%R with 0%R by ring. apply Rabs_R0. }
  assert (Hpos : forall q w, map (fun z => Rabs (v - z)) l !! q = Some w ->
            q <> p -> (0 < w)%R).
  { intros q w Hq Hne. rewrite list_lookup_fmap in Hq.
    destruct (l !! q) as [z|] eqn:Hz; [|discriminate]. injection Hq as <-.
    apply Rabs_pos_lt. intros Heq. apply Hne.
    assert (z = v) by lra. subst z. eapply sorted_lookup_inj; eassumption. }
  unfold np_argmin.
  destruct (map (fun z => Rabs (v - z)) l) as [|x xs] eqn:E; [discriminate|].
  f_equal. destruct p as [|p].
  - injection Hzero as ->. apply argmin_from_keep.
    intros y Hy. destruct (In_lookup _ _ Hy) as [q Hq].
    left. apply (Hpos (S q) y); [exact Hq | lia].
  - rewrite (argmin_from_unique xs x 0 1 p 0%R Hzero).
    + reflexivity.
    + apply (Hpos 0%nat x); [reflexivity | lia].
    + intros q w Hq Hne. apply (Hpos (S q) w); [exact Hq | lia].
Qed.

(** Slices with bounds inside the sequence. *)
Lemma py_slice_nat {A} (l : list A) (a b : nat) :
  (a <= b <= length l)%nat ->
  py_slice l (Z.of_nat a) (Z.of_nat b) = take (b - a) (drop a l).
Proof.
  intros H. unfold py_slice, slice_bound.
  destruct (Z.ltb_spec (Z.of_nat a) 0) as [Ha|_]; [lia|].
  destruct (Z.ltb_spec (Z.of_nat b) 0) as [Hb|_]; [lia|].
  rewrite !Z.min_l by lia. rewrite !Nat2Z.id. reflexivity.
Qed.

Lemma lookup_window {A} (l : list A) (a b i : nat) :
  (i < b - a)%nat -> take (b - a) (drop a l) !! i = l !! (a + i)%nat.
Proof. intros H. rewrite lookup_take_lt by exact H. apply lookup_drop. Qed.

Lemma sorted_by_lookup (l : list R) :
  (forall p q a b, l !! p = Some a -> l !! q = Some b -> (p < q)%nat -> (a < b)%R) ->
  StronglySorted Rlt l.
Proof.
  induction l as [|x l IH]; intros H; constructor.
  - apply IH. intros p q a b Hp Hq Hlt. apply (H (S p) (S q)); [exact Hp | exact Hq | lia].
  - apply List.Forall_forall. intros y Hy. destruct (In_lookup _ _ Hy) as [q Hq].
    apply (H 0%nat (S q)); [reflexivity | exact Hq | lia].
Qed.

Lemma sorted_window (l : list R) (a b : nat) :
  StronglySorted Rlt l -> StronglySorted Rlt (take (b - a) (drop a l)).
Proof.
  intros Hs. apply sorted_by_lookup. intros p q x y Hp Hq Hlt.
  assert (Hqb : (q < b - a)%nat).
  { apply lookup_lt_Some in Hq. rewrite length_take in Hq. lia. }
  rewrite lookup_window in Hp, Hq by lia.
  eapply sorted_lookup_lt; [exact Hs | exact Hp | exact Hq | lia].
Qed.

Lemma reconcile_gaps_spec (old : ndarray3 bool) (img_zs contour_zs : list R)
    (p0 p1 : nat) :
  StronglySorted Rlt img_zs -> StronglySorted Rlt contour_zs ->
  shape_2 old = length contour_zs ->
  (p0 <= p1 < length img_zs)%nat ->
  (forall cz, In cz contour_zs ->
     exists n, img_zs !! n = Some cz /\ (p0 <= n <= p1)%nat) ->
  shape_2 old <> (p1 - p0 + 1)%nat ->
  exists mask,
    reconcile_gaps old img_zs contour_zs p0 p1 = Ok mask /\
    shape3 mask = (shape_0 old, shape_1 old, (p1 - p0 + 1)%nat) /\
    (forall k cz n, contour_zs !! k = Some cz -> img_zs !! n = Some cz ->
       forall i j, at3 mask i j (n - p0) = at3 old i j k) /\
    (forall idx,
       (forall k cz n, contour_zs !! k = Some cz -> img_zs !! n = Some cz ->
          (n - p0)%nat <> idx) ->
       forall i j, at3 mask i j idx = false).
Proof.
  intros Himg Hcon Hlen Hp Hcov Hskip. unfold reconcile_gaps.
  destruct (Z.eqb_spec (Z.of_nat (shape_2 old))
              (Z.of_nat p1 - Z.of_nat p0 + 1)) as [Heq|_]; [lia|].
  cbn [negb].
  destruct (Z.ltb_spec (Z.of_nat p1 - Z.of_nat p0 + 1) 0) as [Hneg|_]; [lia|].
  replace (Z.to_nat (Z.of_nat p1 - Z.of_nat p0 + 1)) with (p1 - p0 + 1)%nat by lia.
  replace (Z.of_nat p1 + 1)%Z with (Z.of_nat (S p1)) by lia.
  rewrite py_slice_nat by lia.
  set (window := take (S p1 - p0) (drop p0 img_zs)).
  assert (Hwin : StronglySorted Rlt window) by (apply sorted_window; exact Himg).
  assert (Hinj : forall cz n n', img_zs !! n = Some cz -> img_zs !! n' = Some cz -> n = n').
  { intros cz n n'. apply sorted_lookup_inj. exact Himg. }
  destruct (for_each_invariant
              (place_slice old contour_zs (zip_range window))
              (fun k => (k < length contour_zs)%nat)
              (fun done m =>
                 shape3 m = (shape_0 old, shape_1 old, (p1 - p0 + 1)%nat) /\
                 (forall k cz n, In k done -> contour_zs !! k = Some cz ->
                    img_zs !! n = Some cz ->
                    forall i j, at3 m i j (n - p0) = at3 old i j k) /\
                 (forall idx,
                    (forall k cz n, In k done -> contour_zs !! k = Some cz ->
                       img_zs !! n = Some cz -> (n - p0)%nat <> idx) ->
                    forall i j, at3 m i j idx = false)))
    with (l := seq 0 (shape_2 old)) (done := @nil nat)
         (s := np_zeros3 false (shape_0 old) (shape_1 old) (p1 - p0 + 1))
    as (mask & Hmask & Hsh & Hput & Hrest).
  - intros done k m (Hsh & Hput & Hrest) Hk.
    destruct (lookup_lt_is_Some_2 contour_zs k Hk) as [cz Hcz].
    destruct (Hcov cz (lookup_In _ _ _ Hcz)) as (n & Hn & Hrange).
    unfold place_slice, get_slice. rewrite Hlen.
    destruct (Nat.ltb_spec k (length contour_zs)) as [_|Hge]; [|lia].
    cbn [bind]. rewrite (getitem_nat contour_zs k cz Hcz). cbn [bind].
    assert (Hw : window !! (n - p0)%nat = Some cz).
    { subst window. rewrite lookup_window by lia.
      replace (p0 + (n - p0))%nat with n by lia. exact Hn. }
    rewrite (zip_range_found window (n - p0) cz Hwin Hw). cbn [bind].
    unfold set_slice, shape_2. rewrite Hsh. cbn [snd].
    destruct (Nat.ltb_spec (n - p0) (p1 - p0 + 1)) as [_|Hge]; [|lia].
    eexists. split; [reflexivity|]. cbn [shape3 at3].
    split; [reflexivity|]. split.
    + intros k2 cz2 n2 Hin Hcz2 Hn2 i j.
      destruct (Hcov cz2 (lookup_In _ _ _ Hcz2)) as (n2' & Hn2' & Hrange2).
      assert (n2' = n2) by (eapply Hinj; eassumption). subst n2'.
      destruct (Nat.eqb_spec (n2 - p0) (n - p0)) as [Hsame|Hdiff].
      * assert (n2 = n) by lia. subst n2.
        assert (cz2 = cz) by congruence. subst cz2.
        assert (k2 = k) by (apply (sorted_lookup_inj contour_zs k2 k cz Hcon Hcz2 Hcz)).
        subst k2. reflexivity.
      * apply in_app_or in Hin as [Hin|[<-|[]]].
        -- eapply Hput; eassumption.
        -- exfalso. apply Hdiff. assert (cz2 = cz) by congruence. subst cz2.
           f_equal. eapply Hinj; eassumption.
    + intros idx Hnone i j.
      destruct (Nat.eqb_spec idx (n - p0)) as [->|Hdiff].
      * exfalso. apply (Hnone k cz n); [apply in_or_app; right; left|..]; auto.
      * apply Hrest. intros k2 cz2 n2 Hin. apply Hnone. apply in_or_app. left. exact Hin.
  - split; [reflexivity|]. split; [intros k cz n []|]. intros; reflexivity.
  - apply List.Forall_forall. intros k Hk. apply in_seq in Hk. lia.
  - exists mask. split; [exact Hmask|]. split; [exact Hsh|]. cbn [app] in Hput, Hrest.
    assert (Hseq : forall k cz, contour_zs !! k = Some cz -> In k (seq 0 (shape_2 old))).
    { intros k cz Hk. apply lookup_lt_Some in Hk. apply in_seq. lia. }
    split.
    + intros k cz n Hk Hn. eapply Hput; eauto.
    + intros idx Hnone. apply Hrest. intros k cz n _. apply Hnone.
Qed.

Section ResamplerClaims.

Variable contains_point : list point -> point -> bool.

(** Lines 570-601 on a well-formed annotation whose contours lie on slices
    of the scan: the mask of [as_boolean_mask], the two slice indices, and
    the mask after the block for skipped slices. *)
Lemma to_volume_mask_spec (ann : Annotation) :
  well_formed ann -> on_scan_slices ann ->
  exists old_mask bbox zi_start zi_stop mask,
    as_boolean_mask contains_point ann = Ok (old_mask, bbox) /\
    nearest_slice ann (fst (row2 bbox)) = Ok zi_start /\
    nearest_slice ann (snd (row2 bbox)) = Ok zi_stop /\
    to_volume_mask contains_point ann = Ok (mask, bbox, (zi_start, zi_stop)) /\
    shape_2 old_mask = length (contour_zs_of ann) /\
    (zi_start <= zi_stop < length (img_zs_of ann))%nat /\
    (shape_2 old_mask = (zi_stop - zi_start + 1)%nat -> mask = old_mask) /\
    (shape_2 old_mask <> (zi_stop - zi_start + 1)%nat ->
       shape3 mask
       = (shape_0 old_mask, shape_1 old_mask, (zi_stop - zi_start + 1)%nat) /\
       (forall k cz, contour_zs_of ann !! k = Some cz ->
          exists n,
            nearest_slice ann cz = Ok n /\
            img_zs_of ann !! n = Some cz /\
            (zi_start <= n <= zi_stop)%nat /\
            forall i j, at3 mask i j (n - zi_start) = at3 old_mask i j k) /\
       (forall idx,
          (forall k cz n, contour_zs_of ann !! k = Some cz ->
             nearest_slice ann cz = Ok n -> (n - zi_start)%nat <> idx) ->
          forall i j, at3 mask i j idx = false)).
Proof.
  intros Hwf Hon.
  destruct (as_boolean_mask_spec contains_point ann Hwf)
    as (m & b & _ & Hmask & Hb & Hsh & _).
  destruct (bbox_spec ann Hwf) as (b' & Hb' & _ & Hz & (cmin & Hcmin & Hzmin)
                                                   & (cmax & Hcmax & Hzmax)).
  assert (b' = b) by congruence. subst b'.
  pose proof (np_unique_sorted (map image_position_z (images (scan ann)))) as Himg.
  pose proof (np_unique_sorted (map image_z_position (contours ann))) as Hcon.
  fold (img_zs_of ann) in Himg. fold (contour_zs_of ann) in Hcon, Hsh.
  assert (Hslice : forall c, In c (contours ann) ->
            exists n, img_zs_of ann !! n = Some (image_z_position c)).
  { intros c Hc. apply In_lookup. unfold img_zs_of. apply np_unique_In.
    unfold on_scan_slices in Hon. rewrite List.Forall_forall in Hon. auto. }
  destruct (Hslice cmin Hcmin) as [p0 Hp0]. rewrite Hzmin in Hp0.
  destruct (Hslice cmax Hcmax) as [p1 Hp1]. rewrite Hzmax in Hp1.
  assert (Hle : (p0 <= p1)%nat).
  { eapply sorted_lookup_le; [exact Himg | exact Hp0 | exact Hp1|].
    destruct (Hz cmin Hcmin). lra. }
  pose proof (lookup_lt_Some _ _ _ Hp1) as Hp1lt.
  assert (Hcov : forall cz, In cz (contour_zs_of ann) ->
            exists n, img_zs_of ann !! n = Some cz /\ (p0 <= n <= p1)%nat).
  { intros cz Hcz. unfold contour_zs_of in Hcz. apply -> np_unique_In in Hcz.
    apply in_map_iff in Hcz as (c & <- & Hc).
    destruct (Hslice c Hc) as [n Hn]. exists n. split; [exact Hn|].
    destruct (Hz c Hc) as [Hlo Hhi]. split.
    - eapply sorted_lookup_le; [exact Himg | exact Hp0 | exact Hn | exact Hlo].
    - eapply sorted_lookup_le; [exact Himg | exact Hn | exact Hp1 | exact Hhi]. }
  assert (Hnear : forall n z, img_zs_of ann !! n = Some z -> nearest_slice ann z = Ok n).
  { intros n z Hn. unfold nearest_slice. apply nearest_exact; assumption. }
  assert (Hold : shape_2 (swapaxes01 m) = length (contour_zs_of ann)).
  { unfold shape_2. cbn [swapaxes01 shape3 snd]. unfold shape_2. rewrite Hsh. reflexivity. }
  unfold to_volume_mask. rewrite Hmask. cbn [bind fst snd].
  change (row2 (bbox_swap01 b)) with (row2 b).
  fold (img_zs_of ann) (contour_zs_of ann).
  fold (nearest_slice ann (fst (row2 b))) (nearest_slice ann (snd (row2 b))).
  rewrite (Hnear p0 _ Hp0), (Hnear p1 _ Hp1). cbn [bind].
  destruct (Nat.eq_dec (shape_2 (swapaxes01 m)) (p1 - p0 + 1)) as [Heq|Hne].
  - exists (swapaxes01 m), (bbox_swap01 b), p0, p1, (swapaxes01 m).
    unfold reconcile_gaps.
    destruct (Z.eqb_spec (Z.of_nat (shape_2 (swapaxes01 m)))
                (Z.of_nat p1 - Z.of_nat p0 + 1)) as [_|Hne]; [|lia].
    cbn [negb bind]. split; [reflexivity|]. split; [apply Hnear; exact Hp0|].
    split; [apply Hnear; exact Hp1|]. split; [reflexivity|].
    split; [exact Hold|]. split; [lia|].
    split; [reflexivity | contradiction].
  - destruct (reconcile_gaps_spec (swapaxes01 m) (img_zs_of ann)
                (contour_zs_of ann) p0 p1 Himg Hcon Hold
                (conj Hle Hp1lt) Hcov Hne)
      as (mask & Hrec & Hshape & Hput & Hrest).
    exists (swapaxes01 m), (bbox_swap01 b), p0, p1, mask.
    rewrite Hrec. cbn [bind].
    split; [reflexivity|]. split; [apply Hnear; exact Hp0|].
    split; [apply Hnear; exact Hp1|]. split; [reflexivity|].
    split; [exact Hold|]. split; [lia|].
    split; [contradiction|]. intros _. split; [exact Hshape|]. split.
    + intros k cz Hk. destruct (Hcov cz (lookup_In _ _ _ Hk)) as (n & Hn & Hrange).
      exists n. split; [apply Hnear; exact Hn|]. split; [exact Hn|].
      split; [exact Hrange|]. apply (Hput k cz n Hk Hn).
    + intros idx Hnone. apply Hrest. intros k cz n Hk Hn.
      apply (Hnone k cz n Hk). apply Hnear. exact Hn.
Qed.

(** C3, amended. For a well-formed annotation whose contours lie on
    slices of the scan (every contour z-position is the z-position of an
    image), when the number of z-slices of the mask of [as_boolean_mask]
    differs from the span [zi_stop - zi_start + 1] of slice indices the
    bounding box covers, [to_volume] builds a mask with the first two
    extents of the old one and that span as its third; the old slice [k],
    the slice of the [k]-th distinct contour z-position, stands at the
    index, counted from [zi_start], of the scan slice at that z-position,
    which is the nearest one; and every slice that is the image of no old
    slice is false everywhere. *)
Theorem to_volume_bridges_skipped_slices (ann : Annotation) :
  well_formed ann -> on_scan_slices ann ->
  exists old_mask bbox zi_start zi_stop mask,
    as_boolean_mask contains_point ann = Ok (old_mask, bbox) /\
    nearest_slice ann (fst (row2 bbox)) = Ok zi_start /\
    nearest_slice ann (snd (row2 bbox)) = Ok zi_stop /\
    to_volume_mask contains_point ann = Ok (mask, bbox, (zi_start, zi_stop)) /\
    shape_2 old_mask = length (contour_zs_of ann) /\
    (shape_2 old_mask <> (zi_stop - zi_start + 1)%nat ->
       shape3 mask
       = (shape_0 old_mask, shape_1 old_mask, (zi_stop - zi_start + 1)%nat) /\
       (forall k cz, contour_zs_of ann !! k = Some cz ->
          exists n,
            nearest_slice ann cz = Ok n /\
            (zi_start <= n <= zi_stop)%nat /\
            forall i j, at3 mask i j (n - zi_start) = at3 old_mask i j k) /\
       (forall idx,
          (forall k cz n, contour_zs_of ann !! k = Some cz ->
             nearest_slice ann cz = Ok n -> (n - zi_start)%nat <> idx) ->
          forall i j, at3 mask i j idx = false)).
Proof.
  intros Hwf Hon.
  destruct (to_volume_mask_spec ann Hwf Hon)
    as (old_mask & bbox & zi_start & zi_stop & mask
        & Hmask & H0 & H1 & Hvol & Hlen & _ & _ & Hgap).
  exists old_mask, bbox, zi_start, zi_stop, mask.
  repeat (split; [assumption|]).
  intros Hne. destruct (Hgap Hne) as (Hsh & Hput & Hrest).
  split; [exact Hsh|]. split; [|exact Hrest].
  intros k cz Hk. destruct (Hput k cz Hk) as (n & Hn & _ & Hrange & Hval).
  exists n. auto.
Qed.

Variable resample :
  R -> list R -> R -> ndarray3 R -> ndarray3 bool -> ndarray3 R * ndarray3 bool.

(** [to_volume] after line 601, for a padding without a negative width:
    the three tests in their order, then the copy of the pixel values. *)
Lemma to_volume_checks (ann : Annotation) (new_spacing : option R)
    (pad : pad_t) (mask : ndarray3 bool) (bbox : bbox_t)
    (zi_start zi_stop : nat) :
  to_volume_mask contains_point ann = Ok (mask, bbox, (zi_start, zi_stop)) ->
  pad_nonneg pad = true ->
  exists (rest : result (ndarray3 R * ndarray3 bool * bbox_t)),
    (forall a lo hi, rest <> Raise (PadIndexError a lo hi)) /\
    to_volume contains_point resample ann new_spacing pad =
    (_ <- check_z (Z.of_nat zi_start) (Z.of_nat zi_stop) pad
                  (length (images (scan ann))) ;;
     _ <- check_x bbox pad ;;
     _ <- check_y bbox pad ;;
     rest).
Proof.
  intros Hmask Hpad. unfold to_volume. rewrite Hmask. cbn [bind fst snd].
  unfold np_pad3. rewrite Hpad. cbn [bind].
  eexists. split; [|reflexivity].
  intros a lo hi.
  match goal with
  | |- (nodule <- for_each ?body ?l ?s ;; _) <> _ =>
      assert (Hfill : forall l' s', for_each body l' s' <> Raise (PadIndexError a lo hi))
  end.
  { induction l' as [|ie l' IH]; intros s'; cbn [for_each]; [discriminate|].
    unfold fill_slice at 1, set_slice.
    destruct (_ <? _)%nat; cbn [bind]; [apply IH | discriminate]. }
  match goal with
  | |- (nodule <- for_each ?body ?l ?s ;; _) <> _ =>
      specialize (Hfill l s); destruct (for_each body l s)
  end; cbn [bind].
  - destruct new_spacing; discriminate.
  - congruence.
Qed.

Lemma bbox_edge_square :
  bbox edge_square
  = Ok {| row0 := (100, 101)%Z; row1 := (510, 511)%Z; row2 := (2, 2)%R |}.
Proof.
  unfold bbox, contours_to_matrix, edge_square, square, to_matrix.
  cbn [contours points image_z_position map concat app fst snd bind
       Zmin_list Zmax_list Rmin_list np_max fold_left].
  Rcmp_eval. reflexivity.
Qed.

Lemma img_zs_sample (cs : list Contour) :
  img_zs_of {| scan := sample_scan; contours := cs |} = [0; 1; 2; 3; 4]%R.
Proof.
  unfold img_zs_of. cbn [scan sample_scan images map image_position_z].
  cbn [np_unique fold_right].
  repeat (cbn [insert_unique]; Rcmp_eval). reflexivity.
Qed.

Lemma edge_square_well_formed : well_formed edge_square.
Proof. split; [discriminate | repeat constructor; discriminate]. Qed.

Lemma edge_square_on_slices : on_scan_slices edge_square.
Proof.
  unfold on_scan_slices. constructor; [|constructor].
  cbn [edge_square sample_scan scan images map image_position_z square
       image_z_position In]. auto.
Qed.

(** C6, at a failing input. The unit square [edge_square] reaches the
    last row, 511, of the 512 by 512 frame. With no padding at all the
    rows 510 to 511 of the region lie inside the frame, yet [to_volume]
    raises the error for the first axis, reporting the index 512: the
    tests for the first two axes compare the exclusive end of the range,
    [max + 1 + pad], with 512 by [>=]. The test for the third axis compares
    the inclusive [zi_stop + pad] with the number of images, and accepts
    the last slice, 4 of 5. *)
Theorem to_volume_rejects_last_row :
  bbox edge_square
  = Ok {| row0 := (100, 101)%Z; row1 := (510, 511)%Z; row2 := (2, 2)%R |} /\
  to_volume contains_point resample edge_square None no_pad
  = Raise (PadIndexError AxisX 510 512) /\
  check_z 4 4 no_pad 5 = Ok tt.
Proof.
  split; [exact bbox_edge_square|]. split; [|reflexivity].
  destruct (to_volume_mask_spec edge_square edge_square_well_formed
              edge_square_on_slices)
    as (old_mask & bbox & zi_start & zi_stop & mask
        & Hold & H0 & H1 & Hvol & _).
  destruct (as_boolean_mask_spec contains_point edge_square
              edge_square_well_formed) as (m & b & _ & Hmask & Hb & _).
  rewrite bbox_edge_square in Hb. injection Hb as <-.
  rewrite Hmask in Hold. injection Hold as _ <-.
  unfold nearest_slice in H0, H1.
  change edge_square with {| scan := sample_scan;
                             contours := [square 100 510 1 2 true] |} in H0, H1.
  rewrite img_zs_sample in H0, H1.
  cbn [bbox_swap01 row2 fst snd map np_argmin argmin_from] in H0, H1.
  revert H0 H1. Rabs_eval. Rcmp_eval. intros H0 H1.
  injection H0 as <-. injection H1 as <-.
  destruct (to_volume_checks edge_square None no_pad _ _ _ _ Hvol eq_refl)
    as (rest & _ & ->).
  reflexivity.
Qed.

End ResamplerClaims.

(** ** The attribute guard *)

Lemma off_limits_names :
  _off_limits =
  ["id"; "scan_id"; "_nodule_id"; "scan"; "subtlety"; "internalStructure";
   "calcification"; "sphericity"; "margin"; "lobulation"; "spiculation";
   "texture"; "malignancy"]%string.
Proof. reflexivity. Qed.

(** C10. Assigning to one of the thirteen protected names ([id],
    [scan_id], [_nodule_id], [scan] and the nine characteristics) raises
    the [ValueError] and leaves the object as it was; assigning to any
    other name returns, stores the value under that name and leaves every
    other attribute as it was. *)
Theorem setattr_read_only (self : gmap string pyvalue) (name : string)
    (value : pyvalue) :
  (In name ["id"; "scan_id"; "_nodule_id"; "scan"; "subtlety";
            "internalStructure"; "calcification"; "sphericity"; "margin";
            "lobulation"; "spiculation"; "texture"; "malignancy"]%string ->
     __setattr__ self name value = (self, Raise (ReadOnlyError name value)))
  /\
  (~ In name ["id"; "scan_id"; "_nodule_id"; "scan"; "subtlety";
              "internalStructure"; "calcification"; "sphericity"; "margin";
              "lobulation"; "spiculation"; "texture"; "malignancy"]%string ->
     snd (__setattr__ self name value) = Ok tt /\
     fst (__setattr__ self name value) !! name = Some value /\
     forall other : string, other <> name ->
       fst (__setattr__ self name value) !! other = self !! other).
Proof.
  rewrite <- off_limits_names. unfold __setattr__. split; intros H.
  - rewrite bool_decide_eq_true_2; [reflexivity | by apply list_elem_of_In].
  - rewrite bool_decide_eq_false_2 by (by rewrite list_elem_of_In).
    cbn [fst snd]. unfold super_setattr. split; [reflexivity | split].
    + apply lookup_insert_eq.
    + intros other Hne. apply lookup_insert_ne. congruence.
Qed.


(** ** The statements at sample annotations *)

Lemma two_slices_well_formed : well_formed two_slices.
Proof. split; [discriminate | repeat constructor; discriminate]. Qed.

Lemma two_slices_on_slices : on_scan_slices two_slices.
Proof.
  unfold on_scan_slices. constructor; [|constructor; [|constructor]];
    cbn [two_slices sample_scan scan images map image_position_z square
         image_z_position In]; auto.
Qed.

(** [to_volume_bridges_skipped_slices] applies to the two squares on the
    slices at 1 mm and 3 mm, which skip the slice at 2 mm. *)
Lemma to_volume_bridges_skipped_slices_witness :
  well_formed two_slices /\ on_scan_slices two_slices /\
  exists old_mask bbox zi_start zi_stop mask,
    as_boolean_mask in_box two_slices = Ok (old_mask, bbox) /\
    nearest_slice two_slices (fst (row2 bbox)) = Ok zi_start /\
    nearest_slice two_slices (snd (row2 bbox)) = Ok zi_stop /\
    to_volume_mask in_box two_slices = Ok (mask, bbox, (zi_start, zi_stop)) /\
    shape_2 old_mask = length (contour_zs_of two_slices) /\
    (shape_2 old_mask <> (zi_stop - zi_start + 1)%nat ->
       shape3 mask
       = (shape_0 old_mask, shape_1 old_mask, (zi_stop - zi_start + 1)%nat) /\
       (forall k cz, contour_zs_of two_slices !! k = Some cz ->
          exists n,
            nearest_slice two_slices cz = Ok n /\
            (zi_start <= n <= zi_stop)%nat /\
            forall i j, at3 mask i j (n - zi_start) = at3 old_mask i j k) /\
       (forall idx,
          (forall k cz n, contour_zs_of two_slices !! k = Some cz ->
             nearest_slice two_slices cz = Ok n -> (n - zi_start)%nat <> idx) ->
          forall i j, at3 mask i j idx = false)).
Proof.
  split; [exact two_slices_well_formed|]. split; [exact two_slices_on_slices|].
  exact (to_volume_bridges_skipped_slices in_box two_slices
           two_slices_well_formed two_slices_on_slices).
Defined.

(** [later_inclusion_contour_overwrites] applies to two inclusion contours
    on one slice. *)
Lemma later_inclusion_contour_overwrites_witness :
  well_formed two_inclusions /\
  exists mask b k,
    as_boolean_mask in_box two_inclusions = Ok (mask, bbox_swap01 b) /\
    bbox two_inclusions = Ok b /\
    np_unique (map image_z_position (contours two_inclusions)) !! k
      = Some (image_z_position (inner_square true)) /\
    (k < shape_2 mask)%nat /\
    (forall i j, (i < extent_x b)%nat -> (j < extent_y b)%nat ->
       at3 mask j i k =
       in_box (path_vertices (inner_square true)) (pixel_at b i j) &&
       not_carved in_box (contours two_inclusions)
                  (image_z_position (inner_square true)) (pixel_at b i j)) /\
    ((forall c', In c' (contours two_inclusions) -> inclusion c' = false ->
        image_z_position c' <> image_z_position (inner_square true)) ->
     forall i j, (i < extent_x b)%nat -> (j < extent_y b)%nat ->
       at3 mask j i k
       = in_box (path_vertices (inner_square true)) (pixel_at b i j)).
Proof.
  assert (Hwf : well_formed two_inclusions)
    by (split; [discriminate | repeat constructor; discriminate]).
  split; [exact Hwf|].
  apply (later_inclusion_contour_overwrites in_box two_inclusions
           [outer_square] [] (inner_square true) Hwf).
  - reflexivity.
  - reflexivity.
  - intros c' [].
Defined.

(** [exclusion_contour_carves_hole] applies to a square with a square
    hole. *)
Lemma exclusion_contour_carves_hole_witness :
  exists mask b,
    as_boolean_mask in_box
      {| scan := sample_scan; contours := [outer_square; inner_square false] |}
      = Ok (mask, bbox_swap01 b) /\
    bbox {| scan := sample_scan;
            contours := [outer_square; inner_square false] |} = Ok b /\
    shape3 mask = (extent_y b, extent_x b, 1%nat) /\
    forall i j, (i < extent_x b)%nat -> (j < extent_y b)%nat ->
      at3 mask j i 0 =
        in_box (path_vertices outer_square) (pixel_at b i j) &&
        negb (in_box (path_vertices (inner_square false)) (pixel_at b i j)) /\
      (in_box (path_vertices (inner_square false)) (pixel_at b i j) = true ->
       at3 mask j i 0 = false) /\
      (in_box (path_vertices outer_square) (pixel_at b i j) = true ->
       in_box (path_vertices (inner_square false)) (pixel_at b i j) = false ->
       at3 mask j i 0 = true).
Proof.
  apply (exclusion_contour_carves_hole in_box sample_scan outer_square
           (inner_square false) [outer_square; inner_square false]).
  - reflexivity.
  - reflexivity.
  - reflexivity.
  - discriminate.
  - discriminate.
  - left. reflexivity.
Defined.

(** [as_boolean_mask_swaps_axes] applies to the two squares on two
    slices. *)
Lemma as_boolean_mask_swaps_axes_witness :
  well_formed two_slices /\
  exists m b mask zs,
    xyz_mask in_box two_slices = Ok (m, b) /\
    bbox two_slices = Ok b /\
    as_boolean_mask in_box two_slices =
      Ok (mask, {| row0 := row1 b; row1 := row0 b; row2 := row2 b |}) /\
    (forall i j k, at3 mask i j k = at3 m j i k) /\
    shape3 m = (shape_1 mask, shape_0 mask, shape_2 mask) /\
    Z.of_nat (shape_1 mask) = (snd (row0 b) - fst (row0 b) + 1)%Z /\
    Z.of_nat (shape_0 mask) = (snd (row1 b) - fst (row1 b) + 1)%Z /\
    shape_2 mask = length zs /\
    NoDup zs /\
    (forall z, In z zs <->
               exists c, In c (contours two_slices) /\ image_z_position c = z).
Proof.
  split; [exact two_slices_well_formed|].
  exact (as_boolean_mask_swaps_axes in_box two_slices two_slices_well_formed).
Defined.

Lemma off_slices_well_formed : well_formed off_slices.
Proof. split; [discriminate | repeat constructor; discriminate]. Qed.

Lemma contour_zs_off_slices : contour_zs_of off_slices = [0.25; 2.25]%R.
Proof.
  unfold contour_zs_of.
  cbn [off_slices contours map square image_z_position np_unique fold_right].
  repeat (cbn [insert_unique]; Rcmp_eval). reflexivity.
Qed.

Lemma bbox_off_slices :
  bbox off_slices
  = Ok {| row0 := (0, 1)%Z; row1 := (0, 1)%Z; row2 := (0.25, 2.25)%R |}.
Proof.
  unfold bbox, contours_to_matrix, off_slices, square, to_matrix.
  cbn [contours points image_z_position map concat app fst snd bind
       Zmin_list Zmax_list Rmin_list np_max fold_left].
  Rcmp_eval. reflexivity.
Qed.

(** C3 as it is stated fails on contours that lie beside the slices of the
    scan. The two squares of [off_slices] are a quarter of a millimetre
    above the slices at 0 mm and 2 mm: the mask has two z-slices, the
    nearest slices are 0 and 2, the span is three, and line 601 looks the
    z-position 0.25 up in a dictionary keyed by the z-positions 0, 1 and 2
    of the images: [to_volume] raises [KeyError] and builds no mask. *)
Lemma to_volume_exact_lookup_counterexample : exists old_mask bbox,
    as_boolean_mask in_box off_slices = Ok (old_mask, bbox) /\
    shape_2 old_mask = 2%nat /\
    nearest_slice off_slices (fst (row2 bbox)) = Ok 0%nat /\
    nearest_slice off_slices (snd (row2 bbox)) = Ok 2%nat /\
    to_volume_mask in_box off_slices = Raise (KeyError 0.25).
Proof.
  destruct (as_boolean_mask_spec in_box off_slices off_slices_well_formed)
    as (m & b & _ & Hmask & Hb & Hsh & _).
  rewrite bbox_off_slices in Hb. injection Hb as <-.
  fold (contour_zs_of off_slices) in Hsh. rewrite contour_zs_off_slices in Hsh.
  assert (H0 : nearest_slice off_slices 0.25 = Ok 0%nat).
  { unfold nearest_slice, off_slices. rewrite img_zs_sample.
    cbn [map np_argmin argmin_from]. Rabs_eval. Rcmp_eval. reflexivity. }
  assert (H2 : nearest_slice off_slices 2.25 = Ok 2%nat).
  { unfold nearest_slice, off_slices. rewrite img_zs_sample.
    cbn [map np_argmin argmin_from]. Rabs_eval. Rcmp_eval. reflexivity. }
  assert (Hold : shape_2 (swapaxes01 m) = 2%nat).
  { unfold shape_2. cbn [swapaxes01 shape3 snd]. unfold shape_2. rewrite Hsh. reflexivity. }
  eexists _, _. split; [exact Hmask|]. split; [exact Hold|].
  cbn [bbox_swap01 row2 fst snd]. split; [exact H0|]. split; [exact H2|].
  unfold to_volume_mask. rewrite Hmask. cbn [bind fst snd bbox_swap01 row2].
  fold (img_zs_of off_slices) (contour_zs_of off_slices).
  fold (nearest_slice off_slices 0.25) (nearest_slice off_slices 2.25).
  rewrite H0, H2. cbn [bind].
  unfold reconcile_gaps. rewrite Hold.
  change (negb (Z.of_nat 2 =? Z.of_nat 2 - Z.of_nat 0 + 1)%Z) with true.
  change (Z.of_nat 2 - Z.of_nat 0 + 1 <? 0)%Z with false.
  change (Z.of_nat 2 + 1)%Z with (Z.of_nat 3).
  cbn [seq for_each]. unfold place_slice at 1, get_slice. rewrite Hold.
  cbn [Nat.ltb Nat.leb bind]. rewrite contour_zs_off_slices.
  rewrite (getitem_nat [0.25; 2.25]%R 0 0.25%R eq_refl). cbn [bind].
  unfold off_slices at 1. rewrite img_zs_sample.
  rewrite py_slice_nat by (cbn [length]; lia). cbn [Nat.sub take drop].
  rewrite zip_range_missing; [reflexivity|].
  intros [H|[H|[H|[]]]]; lra.
Qed.

(** ** Further properties *)

Lemma removelast_cons2 {A} (a b : A) (l : list A) :
  removelast (a :: b :: l) = a :: removelast (b :: l).
Proof. reflexivity. Qed.

Lemma shoelace_sides_dot (first p : R * R) (t : list (R * R)) :
  shoelace_sides first (p :: t) =
  (np_dot (map snd t) (removelast (map fst (p :: t)))
   - np_dot (map fst t) (removelast (map snd (p :: t)))
   + (fst (List.last (p :: t) p) * snd first
      - fst first * snd (List.last (p :: t) p)))%R.
Proof.
  revert p. induction t as [|q t IH]; intros p.
  - cbn. ring.
  - change (shoelace_sides first (p :: q :: t))
      with ((fst p * snd q - fst q * snd p) + shoelace_sides first (q :: t))%R.
    rewrite IH. cbn [map]. rewrite !removelast_cons2. cbn [np_dot].
    change (List.last (p :: q :: t) p) with (List.last (q :: t) p).
    rewrite (last_default t q p q). ring.
Qed.

Lemma last_map {A B} (f : A -> B) (l : list A) (d : A) :
  List.last (map f l) (f d) = f (List.last l d).
Proof.
  induction l as [|a l IH]; [reflexivity|].
  destruct l as [|b l]; [reflexivity|]. exact IH.
Qed.

Lemma shoelace_area_formula (contour_array : list (R * R * R)) :
  shoelace_area contour_array = shoelace_formula (map fst contour_array).
Proof.
  unfold shoelace_area, shoelace_formula.
  destruct contour_array as [|r l].
  { cbn [map np_roll1 np_dot]. replace (0 - 0)%R with 0%R by lra.
    rewrite Rabs_R0. lra. }
  set (pts := map fst (r :: l)).
  replace (map (fun r0 : R * R * R => fst (fst r0)) (r :: l)) with (map fst pts)
    by (subst pts; rewrite map_map; reflexivity).
  replace (map (fun r0 : R * R * R => snd (fst r0)) (r :: l)) with (map snd pts)
    by (subst pts; rewrite map_map; reflexivity).
  subst pts. cbn [map]. set (p := fst r). set (t := map fst l).
  rewrite (shoelace_sides_dot p p t). f_equal.
  change (fst p :: map fst t) with (map fst (p :: t)).
  change (snd p :: map snd t) with (map snd (p :: t)).
  unfold np_roll1. cbn [map].
  change (fst p :: map fst t) with (map fst (p :: t)).
  change (snd p :: map snd t) with (map snd (p :: t)).
  rewrite (last_map fst (p :: t) p), (last_map snd (p :: t) p).
  cbn [map np_dot].
  change (fst p :: map fst t) with (map fst (p :: t)).
  change (snd p :: map snd t) with (map snd (p :: t)).
  rewrite <- Rabs_Ropp. f_equal. ring.
Qed.

(** X2. Line 289 computes the shoelace formula on the first two columns
    of the scaled matrix. *)
Theorem shoelace_area_is_shoelace_formula (contour_array : list (R * R * R)) :
  shoelace_area contour_array = shoelace_formula (map fst contour_array).
Proof. exact (shoelace_area_formula contour_array). Qed.

(** X4. [close_contour] appends the first point exactly when the last
    point differs from it in both coordinates. *)
Theorem close_contour_appends_iff (first : point) (m : list point) :
  let last := List.last (first :: m) first in
  (fst first <> fst last /\ snd first <> snd last ->
   close_contour (first :: m) = Ok ((first :: m) ++ [first])) /\
  (fst first = fst last \/ snd first = snd last ->
   close_contour (first :: m) = Ok (first :: m)).
Proof.
  cbn zeta. rewrite close_contour_appends. split.
  - intros [Hx Hy].
    destruct (Z.eqb_spec (fst first) (fst (List.last (first :: m) first)));
      [contradiction|].
    destruct (Z.eqb_spec (snd first) (snd (List.last (first :: m) first)));
      [contradiction|]. reflexivity.
  - intros [Hx|Hy].
    + rewrite <- Hx, Z.eqb_refl. reflexivity.
    + rewrite <- Hy, Z.eqb_refl, andb_false_r. reflexivity.
Qed.

Section ResamplerFurther.

Variable contains_point : list point -> point -> bool.
Variable resample :
  R -> list R -> R -> ndarray3 R -> ndarray3 bool -> ndarray3 R * ndarray3 bool.

(** X1. When lines 570-601 have returned and no padding width is negative,
    [to_volume] raises a padding error exactly as the first failing test
    says, in the order z, first axis, second axis: the z test compares
    [zi_start - pad] with 0 and [zi_stop + pad] with the number of images;
    the tests of the first two axes compare [min - pad] with 0 and
    [max + pad + 1] with 512. The error carries the axis and the two
    computed indices. *)
Theorem to_volume_padding_error (ann : Annotation) (new_spacing : option R)
    (pad : pad_t) (mask : ndarray3 bool) (bbox : bbox_t)
    (zi_start zi_stop : nat) :
  to_volume_mask contains_point ann = Ok (mask, bbox, (zi_start, zi_stop)) ->
  pad_nonneg pad = true ->
  let z_lo := (Z.of_nat zi_start - fst (pad_2 pad))%Z in
  let z_hi := (Z.of_nat zi_stop + snd (pad_2 pad))%Z in
  let x_lo := (fst (row0 bbox) - fst (pad_0 pad))%Z in
  let x_hi := (snd (row0 bbox) + snd (pad_0 pad) + 1)%Z in
  let y_lo := (fst (row1 bbox) - fst (pad_1 pad))%Z in
  let y_hi := (snd (row1 bbox) + snd (pad_1 pad) + 1)%Z in
  let z_out := (z_lo < 0 \/ Z.of_nat (length (images (scan ann))) <= z_hi)%Z in
  let x_out := (x_lo < 0 \/ 512 <= x_hi)%Z in
  let y_out := (y_lo < 0 \/ 512 <= y_hi)%Z in
  forall a lo hi,
    to_volume contains_point resample ann new_spacing pad
      = Raise (PadIndexError a lo hi) <->
    (z_out /\ a = AxisZ /\ lo = z_lo /\ hi = z_hi) \/
    (~ z_out /\ x_out /\ a = AxisX /\ lo = x_lo /\ hi = x_hi) \/
    (~ z_out /\ ~ x_out /\ y_out /\ a = AxisY /\ lo = y_lo /\ hi = y_hi).
Proof.
  intros Hmask Hpad. cbn zeta. intros a lo hi.
  destruct (to_volume_checks contains_point resample ann new_spacing pad
              mask bbox zi_start zi_stop Hmask Hpad) as (rest & Hrest & ->).
  unfold check_z, check_x, check_y.
  destruct (Z.ltb_spec (Z.of_nat zi_start - fst (pad_2 pad)) 0) as [Hz0|Hz0];
  destruct (Z.leb_spec (Z.of_nat (length (images (scan ann))))
              (Z.of_nat zi_stop + snd (pad_2 pad))) as [Hz1|Hz1];
  cbn [orb bind];
  try (split;
       [ intros H; injection H as <- <- <-; left; repeat split; lia
       | intros [(_ & -> & -> & ->)|[(Hn & _)|(Hn & _)]];
         [reflexivity | exfalso; apply Hn; lia | exfalso; apply Hn; lia] ]).
  destruct (Z.ltb_spec (fst (row0 bbox) - fst (pad_0 pad)) 0) as [Hx0|Hx0];
  destruct (Z.leb_spec 512 (snd (row0 bbox) + 1 + snd (pad_0 pad))) as [Hx1|Hx1];
  cbn [orb bind];
  try (split;
       [ intros H; injection H as <- <- <-; right; left;
         repeat split; lia
       | intros [(Hz & _)|[(_ & _ & -> & -> & ->)|(_ & Hn & _)]];
         [ exfalso; lia | f_equal; f_equal; lia | exfalso; apply Hn; lia] ]).
  destruct (Z.ltb_spec (fst (row1 bbox) - fst (pad_1 pad)) 0) as [Hy0|Hy0];
  destruct (Z.leb_spec 512 (snd (row1 bbox) + 1 + snd (pad_1 pad))) as [Hy1|Hy1];
  cbn [orb bind];
  try (split;
       [ intros H; injection H as <- <- <-; right; right;
         repeat split; lia
       | intros [(Hz & _)|[(_ & Hx & _)|(_ & _ & _ & -> & -> & ->)]];
         [ exfalso; lia | exfalso; lia | f_equal; f_equal; lia] ]).
  split.
  - intros H. exfalso. exact (Hrest a lo hi H).
  - intros [(Hz & _)|[(_ & Hx & _)|(_ & _ & Hy & _)]]; exfalso; lia.
Qed.

End ResamplerFurther.

(** [to_volume_padding_error] applies to [edge_square] without padding. *)
Lemma to_volume_padding_error_witness :
  exists mask bbox zi_start zi_stop,
    to_volume_mask in_box edge_square = Ok (mask, bbox, (zi_start, zi_stop)) /\
    pad_nonneg no_pad = true /\
    forall a lo hi,
      to_volume in_box (fun _ _ _ v m => (v, m)) edge_square None no_pad
        = Raise (PadIndexError a lo hi) <->
      (((Z.of_nat zi_start - 0 < 0 \/ 5 <= Z.of_nat zi_stop + 0)
        /\ a = AxisZ /\ lo = Z.of_nat zi_start - 0 /\ hi = Z.of_nat zi_stop + 0) \/
       (~ (Z.of_nat zi_start - 0 < 0 \/ 5 <= Z.of_nat zi_stop + 0) /\
        (fst (row0 bbox) - 0 < 0 \/ 512 <= snd (row0 bbox) + 0 + 1) /\
        a = AxisX /\ lo = fst (row0 bbox) - 0 /\ hi = snd (row0 bbox) + 0 + 1) \/
       (~ (Z.of_nat zi_start - 0 < 0 \/ 5 <= Z.of_nat zi_stop + 0) /\
        ~ (fst (row0 bbox) - 0 < 0 \/ 512 <= snd (row0 bbox) + 0 + 1) /\
        (fst (row1 bbox) - 0 < 0 \/ 512 <= snd (row1 bbox) + 0 + 1) /\
        a = AxisY /\ lo = fst (row1 bbox) - 0 /\ hi = snd (row1 bbox) + 0 + 1))%Z.
Proof.
  destruct (to_volume_mask_spec in_box edge_square edge_square_well_formed
              edge_square_on_slices)
    as (old_mask & bbox & zi_start & zi_stop & mask & _ & _ & _ & Hvol & _).
  exists mask, bbox, zi_start, zi_stop.
  split; [exact Hvol|]. split; [reflexivity|].
  exact (to_volume_padding_error in_box (fun _ _ _ v m => (v, m)) edge_square
           None no_pad mask bbox zi_start zi_stop Hvol eq_refl).
Defined.

Lemma np_argmin_unique (l : list R) (p : nat) (v : R) :
  l !! p = Some v ->
  (forall q w, l !! q = Some w -> q <> p -> (v < w)%R) ->
  np_argmin l = Ok p.
Proof.
  intros Hp Hothers. unfold np_argmin.
  destruct l as [|x xs]; [discriminate|]. f_equal. destruct p as [|p].
  - injection Hp as ->. apply argmin_from_keep.
    intros y Hy. destruct (In_lookup _ _ Hy) as [q Hq].
    left. apply (Hothers (S q) y); [exact Hq | lia].
  - rewrite (argmin_from_unique xs x 0 1 p v Hp).
    + reflexivity.
    + apply (Hothers 0%nat x); [reflexivity | lia].
    + intros q w Hq Hne. apply (Hothers (S q) w); [exact Hq | lia].
Qed.

Lemma lookup_padded (zs : list R) (q : nat) (w : R) :
  (0 :: 0 :: zs ++ [0; 0])%R !! q = Some w ->
  w = 0%R \/ exists q', q = S (S q') /\ zs !! q' = Some w.
Proof.
  intros H. destruct q as [|[|q]].
  - change (Some 0%R = Some w) in H. left. congruence.
  - change (Some 0%R = Some w) in H. left. congruence.
  - change ((zs ++ [0; 0]%R) !! q = Some w) in H.
    destruct (lookup_app_Some zs [0; 0]%R q w) as [Hsplit _].
    destruct (Hsplit H) as [Hin|[_ Hpad]].
    + right. eauto.
    + left. destruct (q - length zs)%nat as [|[|k]].
      * change (Some 0%R = Some w) in Hpad. congruence.
      * change (Some 0%R = Some w) in Hpad. congruence.
      * discriminate.
Qed.

Lemma lookup_padded_next (zs : list R) (p : nat) :
  (p < length zs)%nat ->
  (0 :: 0 :: zs ++ [0; 0])%R !! S (S (S p)) = Some (nth (S p) zs 0%R).
Proof.
  intros Hp. change ((zs ++ [0; 0]%R) !! S p = Some (nth (S p) zs 0%R)).
  destruct (Nat.lt_ge_cases (S p) (length zs)) as [Hlt|Hge].
  - rewrite lookup_app_l by exact Hlt.
    destruct (lookup_lt_is_Some_2 zs (S p) Hlt) as [w Hw]. rewrite Hw.
    f_equal. symmetry. apply nth_lookup_Some with (d := 0%R) in Hw. exact Hw.
  - rewrite lookup_app_r by exact Hge.
    replace (S p - length zs)%nat with 0%nat by lia.
    rewrite nth_overflow by lia. reflexivity.
Qed.

Lemma spacing_of_padded (ann : Annotation) (zs : list R)
    (c : Contour) (p : nat) :
  StronglySorted Rlt zs ->
  zs !! p = Some (image_z_position c) ->
  image_z_position c <> 0%R ->
  spacing_of ann (Some (0 :: 0 :: zs ++ [0; 0])%R) c =
  Ok (0.5 * (nth (S p) zs 0 - match p with
                               | O => 0
                               | S p' => nth p' zs 0
                               end))%R.
Proof.
  intros Hs Hp Hz.
  set (z := image_z_position c) in *.
  set (padded := (0 :: 0 :: zs ++ [0; 0])%R).
  pose proof (lookup_lt_Some _ _ _ Hp) as Hlt.
  assert (Hself : padded !! S (S p) = Some z).
  { subst padded. change ((zs ++ [0; 0]%R) !! p = Some z).
    rewrite lookup_app_l by exact Hlt. exact Hp. }
  assert (Hmin : np_argmin (map (fun w => Rabs (z - w)) padded) = Ok (S (S p))).
  { apply (np_argmin_unique _ (S (S p)) 0%R).
    - rewrite list_lookup_fmap, Hself. cbn. f_equal.
      replace (z - z)%R with 0%R by ring. apply Rabs_R0.
    - intros q w Hq Hne. rewrite list_lookup_fmap in Hq.
      destruct (padded !! q) as [u|] eqn:Hu; [|discriminate].
      injection Hq as <-. apply Rabs_pos_lt.
      destruct (lookup_padded zs q u Hu) as [->|(q' & -> & Hq')]; [lra|].
      intros Heq. apply Hne. f_equal. f_equal.
      assert (u = z) by lra. subst u.
      eapply sorted_lookup_inj; eassumption. }
  unfold spacing_of. fold z. fold padded. rewrite Hmin. cbn [bind].
  replace (Z.of_nat (S (S p)) + 1)%Z with (Z.of_nat (S (S (S p)))) by lia.
  replace (Z.of_nat (S (S p)) - 1)%Z with (Z.of_nat (S p)) by lia.
  rewrite (getitem_nat padded (S (S (S p))) _ (lookup_padded_next zs p Hlt)).
  cbn [bind].
  assert (Hprev : padded !! S p = Some (match p with
                                        | O => 0
                                        | S p' => nth p' zs 0
                                        end)%R).
  { destruct p as [|p']; [reflexivity|].
    subst padded. change ((zs ++ [0; 0]%R) !! p' = Some (nth p' zs 0%R)).
    rewrite lookup_app_l by lia.
    destruct (lookup_lt_is_Some_2 zs p') as [w Hw]; [lia|]. rewrite Hw.
    f_equal. symmetry. apply nth_lookup_Some with (d := 0%R) in Hw. exact Hw. }
  rewrite (getitem_nat padded (S p) _ Hprev). reflexivity.
Qed.


(** X5. The thickness line 293 gives a contour, for the array that lines
    278-280 build: half the difference of the next and the previous
    distinct z-position, where a zero of the padding stands in for the
    neighbour the first and the last z-position lack. The contour is the
    one at the [p]-th distinct z-position and that position is not 0. *)
Theorem thickness_between_neighbours (ann : Annotation) (zs : list R)
    (c : Contour) (p : nat) :
  StronglySorted Rlt zs ->
  zs !! p = Some (image_z_position c) ->
  image_z_position c <> 0%R ->
  pad_zvals zs = Ok (0 :: 0 :: zs ++ [0; 0])%R /\
  spacing_of ann (Some (0 :: 0 :: zs ++ [0; 0])%R) c =
  Ok (0.5 * (nth (S p) zs 0 - match p with
                               | O => 0
                               | S p' => nth p' zs 0
                               end))%R.
Proof.
  intros Hs Hp Hz. split; [apply pad_zvals_zeros|].
  apply spacing_of_padded; assumption.
Qed.

(** [thickness_between_neighbours] applies to the first of the two squares
    on the slices at 1 mm and 3 mm: its thickness is half of 3 - 0. *)
Lemma thickness_between_neighbours_witness :
  StronglySorted Rlt [1; 3]%R /\
  pad_zvals [1; 3]%R = Ok [0; 0; 1; 3; 0; 0]%R /\
  spacing_of two_slices (Some [0; 0; 1; 3; 0; 0]%R) (square 0 0 1 1 true)
  = Ok (0.5 * (3 - 0))%R.
Proof.
  assert (Hs : StronglySorted Rlt [1; 3]%R).
  { repeat constructor. lra. }
  split; [exact Hs|].
  apply (thickness_between_neighbours two_slices [1; 3]%R
           (square 0 0 1 1 true) 0 Hs eq_refl).
  cbn. lra.
Defined.

(** X6. On a well-formed annotation [bbox] returns, and its rows enclose
    every contour point: the first two rows bound the x and y coordinates
    of the points, the third row bounds the z-positions of the contours,
    and both ends of the third row are z-positions of contours. *)
Theorem bbox_encloses_contours (ann : Annotation) :
  well_formed ann ->
  exists b, bbox ann = Ok b /\
    (forall c p, In c (contours ann) -> In p (points c) ->
       (fst (row0 b) <= fst p <= snd (row0 b))%Z /\
       (fst (row1 b) <= snd p <= snd (row1 b))%Z) /\
    (forall c, In c (contours ann) ->
       (fst (row2 b) <= image_z_position c <= snd (row2 b))%R) /\
    (exists c, In c (contours ann) /\ image_z_position c = fst (row2 b)) /\
    (exists c, In c (contours ann) /\ image_z_position c = snd (row2 b)).
Proof. exact (bbox_spec ann). Qed.

(** [bbox_encloses_contours] applies to the two squares on two slices. *)
Lemma bbox_encloses_contours_witness :
  well_formed two_slices /\
  exists b, bbox two_slices = Ok b /\
    (forall c p, In c (contours two_slices) -> In p (points c) ->
       (fst (row0 b) <= fst p <= snd (row0 b))%Z /\
       (fst (row1 b) <= snd p <= snd (row1 b))%Z) /\
    (forall c, In c (contours two_slices) ->
       (fst (row2 b) <= image_z_position c <= snd (row2 b))%R) /\
    (exists c, In c (contours two_slices) /\ image_z_position c = fst (row2 b)) /\
    (exists c, In c (contours two_slices) /\ image_z_position c = snd (row2 b)).
Proof.
  split; [exact two_slices_well_formed|].
  exact (bbox_encloses_contours two_slices two_slices_well_formed).
Defined.

(** ** [estimate_volume]: what it returns *)

Lemma position_lookup (l : list R) (p : nat) (z : R) :
  StronglySorted Rlt l -> l !! p = Some z -> position z l = p.
Proof.
  intros Hs. revert p. induction Hs as [|y l Hs IH Hy]; intros p Hp.
  - discriminate.
  - cbn [position]. destruct p as [|p].
    + injection Hp as ->. rewrite Reqb_eq by reflexivity. reflexivity.
    + change (l !! p = Some z) in Hp. rewrite Reqb_ne.
      * f_equal. apply IH. exact Hp.
      * intros ->. rewrite List.Forall_forall in Hy.
        specialize (Hy y (lookup_In _ _ _ Hp)). cbv beta in Hy. lra.
Qed.

Lemma spacing_of_padded_zero (ann : Annotation) (zs : list R) (c : Contour) :
  image_z_position c = 0%R ->
  spacing_of ann (Some (0 :: 0 :: zs ++ [0; 0])%R) c = Ok 0%R.
Proof.
  intros Hz. unfold spacing_of. rewrite Hz. cbn [map np_argmin].
  rewrite argmin_from_keep.
  - cbn [bind]. set (l := (0 :: 0 :: zs ++ [0; 0])%R).
    assert (Hlen : length l = (length zs + 4)%nat).
    { subst l. cbn [length]. rewrite length_app. cbn [length]. lia. }
    assert (H1 : getitem l (Z.of_nat 0 + 1) = Ok 0%R)
      by (apply (getitem_nat l 1); reflexivity).
    assert (H2 : getitem l (Z.of_nat 0 - 1) = Ok 0%R).
    { apply (getitem_neg l 1); [rewrite Hlen; lia|].
      rewrite Hlen. subst l.
      replace (length zs + 4 - 1)%nat with (S (S (length zs + 1))) by lia.
      change ((zs ++ [0; 0]%R) !! (length zs + 1)%nat = Some 0%R).
      rewrite lookup_app_r by lia.
      replace (length zs + 1 - length zs)%nat with 1%nat by lia. reflexivity. }
    rewrite H1. cbn [bind]. rewrite H2. cbn [bind]. f_equal. lra.
  - intros x Hx. replace (0 - 0)%R with 0%R in * by lra. rewrite Rabs_R0 in *.
    destruct Hx as [<-|Hx]; [lra|].
    apply in_map_iff in Hx as (w & <- & _). apply Rabs_pos.
Qed.

Lemma spacing_of_slice_spacing (ann : Annotation) (c : Contour) :
  (length (contours ann) =? 1)%nat = false ->
  In c (contours ann) ->
  spacing_of ann (Some (0 :: 0 :: contour_zs_of ann ++ [0; 0])%R) c
  = Ok (slice_spacing ann c).
Proof.
  intros Hlen Hc. unfold slice_spacing. rewrite Hlen.
  destruct (Req_dec_T (image_z_position c) 0) as [Hz|Hz].
  - rewrite Reqb_eq by exact Hz. apply spacing_of_padded_zero. exact Hz.
  - rewrite Reqb_ne by exact Hz.
    pose proof (np_unique_sorted (map image_z_position (contours ann))) as Hs.
    fold (contour_zs_of ann) in Hs.
    assert (Hin : In (image_z_position c) (contour_zs_of ann))
      by (apply np_unique_In, in_map; exact Hc).
    destruct (In_lookup _ _ Hin) as [p Hp].
    cbn zeta. rewrite (position_lookup _ p _ Hs Hp).
    apply spacing_of_padded; assumption.
Qed.

Lemma estimate_volume_sum (ann : Annotation) :
  estimate_volume ann =
  Ok (fold_left
        (fun volume c =>
           volume + (if inclusion c then 1 else -1)
                    * contour_area ann c * slice_spacing ann c)%R
        (contours ann) 0%R).
Proof.
  unfold estimate_volume.
  destruct (length (contours ann) =? 1)%nat eqn:Hlen; cbn [negb bind].
  - assert (Hsp : forall c, slice_spacing ann c = slice_thickness (scan ann))
      by (intros c; unfold slice_spacing; rewrite Hlen; reflexivity).
    assert (Hloop : forall cs v,
              for_each (volume_step ann None) cs v =
              Ok (fold_left
                    (fun volume c =>
                       volume + (if inclusion c then 1 else -1)
                                * contour_area ann c * slice_spacing ann c)%R
                    cs v)).
    { induction cs as [|c cs IH]; intros v; [reflexivity|].
      cbn [for_each fold_left]. unfold volume_step at 1, spacing_of.
      cbn [bind]. rewrite IH, (Hsp c). reflexivity. }
    apply Hloop.
  - rewrite pad_zvals_zeros. cbn [bind]. fold (contour_zs_of ann).
    assert (Hloop : forall cs v, (forall c, In c cs -> In c (contours ann)) ->
              for_each (volume_step ann
                          (Some (0 :: 0 :: contour_zs_of ann ++ [0; 0])%R)) cs v =
              Ok (fold_left
                    (fun volume c =>
                       volume + (if inclusion c then 1 else -1)
                                * contour_area ann c * slice_spacing ann c)%R
                    cs v)).
    { induction cs as [|c cs IH]; intros v Hsub; [reflexivity|].
      cbn [for_each fold_left]. unfold volume_step at 1.
      rewrite (spacing_of_slice_spacing ann c Hlen) by (apply Hsub; left; reflexivity).
      cbn [bind]. apply IH. intros c' Hc'. apply Hsub. right. exact Hc'. }
    apply Hloop. auto.
Qed.

(** X7. [estimate_volume] never raises: for every annotation it returns
    the sum, over the contours in their order, of the area of the contour
    times its thickness, added for an inclusion contour and subtracted for
    an exclusion contour. The thickness is the closed form
    [slice_spacing]. *)
Theorem estimate_volume_signed_sum (ann : Annotation) :
  estimate_volume ann =
  Ok (fold_left
        (fun volume c =>
           volume + (if inclusion c then 1 else -1)
                    * contour_area ann c * slice_spacing ann c)%R
        (contours ann) 0%R).
Proof. exact (estimate_volume_sum ann). Qed.

Lemma sorted_same_elements (l1 l2 : list R) :
  StronglySorted Rlt l1 -> StronglySorted Rlt l2 ->
  (forall x, In x l1 <-> In x l2) -> l1 = l2.
Proof.
  intros H1. revert l2. induction H1 as [|a l1 H1 IH Ha]; intros l2 H2 Hsame.
  - destruct l2 as [|b l2]; [reflexivity|].
    exfalso. apply (Hsame b). left. reflexivity.
  - destruct H2 as [|b l2 H2 Hb].
    { exfalso. apply (Hsame a). left. reflexivity. }
    rewrite List.Forall_forall in Ha, Hb.
    assert (Hab : a = b).
    { destruct (proj1 (Hsame a) (or_introl eq_refl)) as [Heq|Hin]; [congruence|].
      destruct (proj2 (Hsame b) (or_introl eq_refl)) as [Heq|Hin']; [congruence|].
      specialize (Hb a Hin). specialize (Ha b Hin'). cbv beta in Ha, Hb. lra. }
    subst b. f_equal. apply IH; [exact H2|].
    intros x. split; intros Hx.
    + destruct (proj1 (Hsame x) (or_intror Hx)) as [Heq|Hin]; [|exact Hin].
      subst x. specialize (Ha a Hx). cbv beta in Ha. lra.
    + destruct (proj2 (Hsame x) (or_intror Hx)) as [Heq|Hin]; [|exact Hin].
      subst x. specialize (Hb a Hx). cbv beta in Hb. lra.
Qed.

Lemma fold_left_pointwise {A B} (g1 g2 : B -> A -> B) (l : list A) (v : B) :
  (forall v a, g1 v a = g2 v a) -> fold_left g1 l v = fold_left g2 l v.
Proof.
  intros H. revert v. induction l as [|a l IH]; intros v; cbn [fold_left];
    [reflexivity|]. rewrite H. apply IH.
Qed.

Lemma fold_left_sum_shift {A} (f : A -> R) (l : list A) (v : R) :
  fold_left (fun acc a => acc + f a)%R l v
  = (v + fold_left (fun acc a => acc + f a)%R l 0)%R.
Proof.
  revert v. induction l as [|a l IH]; intros v; cbn [fold_left]; [lra|].
  rewrite (IH (v + f a)%R), (IH (0 + f a)%R). lra.
Qed.

Lemma fold_left_sum_permutation {A} (f : A -> R) (l1 l2 : list A) :
  Permutation l1 l2 ->
  fold_left (fun acc a => acc + f a)%R l1 0%R
  = fold_left (fun acc a => acc + f a)%R l2 0%R.
Proof.
  induction 1 as [|a l1 l2 _ IH|a b l|l1 l2 l3 _ IH1 _ IH2].
  - reflexivity.
  - cbn [fold_left]. rewrite (fold_left_sum_shift f l1), (fold_left_sum_shift f l2), IH.
    reflexivity.
  - cbn [fold_left]. rewrite (fold_left_sum_shift f l (0 + f b + f a)),
      (fold_left_sum_shift f l (0 + f a + f b)). lra.
  - congruence.
Qed.

(** X8. The volume does not depend on the order of the contours: two
    annotations of the same scan whose contour lists are permutations of
    each other have the same volume. *)
Theorem estimate_volume_order_independent (s : Scan) (cs1 cs2 : list Contour) :
  Permutation cs1 cs2 ->
  estimate_volume {| scan := s; contours := cs1 |}
  = estimate_volume {| scan := s; contours := cs2 |}.
Proof.
  intros Hperm. rewrite !estimate_volume_sum. cbn [contours]. f_equal.
  assert (Hzs : contour_zs_of {| scan := s; contours := cs1 |}
                = contour_zs_of {| scan := s; contours := cs2 |}).
  { unfold contour_zs_of. cbn [contours].
    apply sorted_same_elements; try apply np_unique_sorted.
    intros x. rewrite !np_unique_In, !in_map_iff.
    split; intros (c & Hc & Hin); exists c; split; auto.
    - eapply Permutation_in; eassumption.
    - eapply Permutation_in; [symmetry|]; eassumption. }
  assert (Hterm : forall c,
            ((if inclusion c then 1 else -1)
             * contour_area {| scan := s; contours := cs1 |} c
             * slice_spacing {| scan := s; contours := cs1 |} c
             = (if inclusion c then 1 else -1)
               * contour_area {| scan := s; contours := cs2 |} c
               * slice_spacing {| scan := s; contours := cs2 |} c)%R).
  { intros c. unfold slice_spacing. rewrite Hzs. cbn [contours scan].
    rewrite (Permutation_length Hperm). reflexivity. }
  rewrite (fold_left_sum_permutation
             (fun c => (if inclusion c then 1 else -1)
                       * contour_area {| scan := s; contours := cs1 |} c
                       * slice_spacing {| scan := s; contours := cs1 |} c)%R
             cs1 cs2 Hperm).
  apply fold_left_pointwise. intros v c. cbv beta. rewrite Hterm. reflexivity.
Qed.

(** [estimate_volume_order_independent] applies to the two squares on two
    slices, taken in either order. *)
Lemma estimate_volume_order_independent_witness :
  Permutation [square 0 0 1 1 true; square 0 0 1 3 true]
              [square 0 0 1 3 true; square 0 0 1 1 true] /\
  estimate_volume two_slices
  = estimate_volume {| scan := sample_scan;
                       contours := [square 0 0 1 3 true; square 0 0 1 1 true] |}.
Proof.
  split; [apply perm_swap|].
  exact (estimate_volume_order_independent sample_scan _ _ (perm_swap _ _ _)).
Defined.

(** ** The area of a contour *)

Lemma np_roll1_map (f : R -> R) (l : list R) :
  np_roll1 (map f l) = map f (np_roll1 l).
Proof.
  destruct l as [|x l]; [reflexivity|].
  unfold np_roll1. cbn [map].
  change (f x :: map f l) with (map f (x :: l)).
  rewrite (last_map f (x :: l) x). f_equal.
  generalize (x :: l). clear. intros l.
  induction l as [|a l IH]; [reflexivity|].
  destruct l as [|b l]; [reflexivity|].
  cbn [map] in *. rewrite !removelast_cons2. cbn [map]. f_equal. exact IH.
Qed.

Lemma length_np_roll1 (l : list R) : length (np_roll1 l) = length l.
Proof.
  destruct l as [|x l]; [reflexivity|]. unfold np_roll1.
  cbn [length]. f_equal.
  revert x. induction l as [|a l IH]; intros x; [reflexivity|].
  rewrite removelast_cons2. cbn [length]. f_equal. apply IH.
Qed.

Lemma Rsum_app (l1 l2 : list R) : Rsum (l1 ++ l2) = (Rsum l1 + Rsum l2)%R.
Proof. induction l1 as [|x l1 IH]; cbn [app Rsum]; [lra | rewrite IH; lra]. Qed.

Lemma Rsum_np_roll1 (l : list R) : Rsum (np_roll1 l) = Rsum l.
Proof.
  destruct l as [|x l]; [reflexivity|]. unfold np_roll1.
  rewrite (app_removelast_last x (l := x :: l)) at 3 by discriminate.
  rewrite Rsum_app. cbn [Rsum]. lra.
Qed.

Lemma np_dot_scale (s : R) (a b : list R) :
  np_dot (map (fun v => v * s)%R a) (map (fun v => v * s)%R b)
  = (s * s * np_dot a b)%R.
Proof.
  revert b. induction a as [|x a IH]; intros b; cbn [map np_dot]; [lra|].
  destruct b as [|y b]; cbn [map np_dot]; [lra|]. rewrite IH. ring.
Qed.

Lemma np_dot_shift (u v : R) (a b : list R) :
  length a = length b ->
  np_dot (map (fun w => w + u)%R a) (map (fun w => w + v)%R b)
  = (np_dot a b + v * Rsum a + u * Rsum b + INR (length a) * (u * v))%R.
Proof.
  revert b. induction a as [|x a IH]; intros b Hlen.
  - destruct b; [|discriminate]. cbn. lra.
  - destruct b as [|y b]; [discriminate|]. injection Hlen as Hlen.
    cbn [map np_dot Rsum]. rewrite (IH b Hlen).
    change (length (x :: a)) with (S (length a)). rewrite S_INR. ring.
Qed.

Lemma columns_scale (m : list (Z * Z * R)) (s : R) :
  map (fun r : R * R * R => fst (fst r)) (scale_xyz m s)
  = map (fun v => v * s)%R (map (fun r : Z * Z * R => IZR (fst (fst r))) m) /\
  map (fun r : R * R * R => snd (fst r)) (scale_xyz m s)
  = map (fun v => v * s)%R (map (fun r : Z * Z * R => IZR (snd (fst r))) m).
Proof. unfold scale_xyz. rewrite !map_map. split; reflexivity. Qed.

(** X9. The area of a contour grows with the square of the pixel spacing:
    at spacing [s] it is [s * s] times the area at unit spacing. *)
Theorem shoelace_area_scales (c : Contour) (s : R) :
  shoelace_area (scale_xyz (to_matrix c) s)
  = (s * s * shoelace_area (scale_xyz (to_matrix c) 1))%R.
Proof.
  unfold shoelace_area. cbv zeta.
  destruct (columns_scale (to_matrix c) s) as [-> ->].
  destruct (columns_scale (to_matrix c) 1) as [-> ->].
  set (xs := map (fun r : Z * Z * R => IZR (fst (fst r))) (to_matrix c)).
  set (ys := map (fun r : Z * Z * R => IZR (snd (fst r))) (to_matrix c)).
  rewrite !np_roll1_map, !np_dot_scale.
  replace (s * s * np_dot xs (np_roll1 ys) - s * s * np_dot ys (np_roll1 xs))%R
    with (s * s * (np_dot xs (np_roll1 ys) - np_dot ys (np_roll1 xs)))%R by ring.
  replace (1 * 1 * np_dot xs (np_roll1 ys) - 1 * 1 * np_dot ys (np_roll1 xs))%R
    with (np_dot xs (np_roll1 ys) - np_dot ys (np_roll1 xs))%R by ring.
  rewrite Rabs_mult, (Rabs_right (s * s)) by nra. ring.
Qed.

Lemma shoelace_area_translate (c : Contour) (dx dy : Z) (s : R) :
  shoelace_area (scale_xyz (to_matrix (translate dx dy c)) s)
  = shoelace_area (scale_xyz (to_matrix c) s).
Proof.
  unfold shoelace_area. cbv zeta. f_equal. f_equal.
  set (xs := map (fun r : R * R * R => fst (fst r)) (scale_xyz (to_matrix c) s)).
  set (ys := map (fun r : R * R * R => snd (fst r)) (scale_xyz (to_matrix c) s)).
  assert (Hx : map (fun r : R * R * R => fst (fst r))
                   (scale_xyz (to_matrix (translate dx dy c)) s)
               = map (fun w => w + IZR dx * s)%R xs).
  { subst xs. unfold scale_xyz, to_matrix, translate. cbn [points image_z_position].
    rewrite !map_map. apply map_ext. intros [x y]. cbn [fst snd].
    rewrite plus_IZR. ring. }
  assert (Hy : map (fun r : R * R * R => snd (fst r))
                   (scale_xyz (to_matrix (translate dx dy c)) s)
               = map (fun w => w + IZR dy * s)%R ys).
  { subst ys. unfold scale_xyz, to_matrix, translate. cbn [points image_z_position].
    rewrite !map_map. apply map_ext. intros [x y]. cbn [fst snd].
    rewrite plus_IZR. ring. }
  rewrite Hx, Hy, !np_roll1_map.
  assert (Hlen : length xs = length ys).
  { subst xs ys. rewrite !length_map. reflexivity. }
  rewrite !np_dot_shift by (rewrite length_np_roll1; congruence).
  rewrite !Rsum_np_roll1, Hlen. ring.
Qed.

(** X10. The area of a contour does not change when the contour is moved
    by a whole number of pixels. *)
Theorem shoelace_area_translation (c : Contour) (dx dy : Z) (s : R) :
  shoelace_area (scale_xyz (to_matrix (translate dx dy c)) s)
  = shoelace_area (scale_xyz (to_matrix c) s).
Proof. exact (shoelace_area_translate c dx dy s). Qed.

(** X11. A contour of one or two points has the area 0, whatever the
    pixel spacing. *)
Theorem shoelace_area_degenerate (c : Contour) (s : R) :
  (length (points c) <= 2)%nat ->
  shoelace_area (scale_xyz (to_matrix c) s) = 0%R.
Proof.
  intros Hlen. unfold shoelace_area, scale_xyz, to_matrix.
  destruct (points c) as [|p [|q [|r l]]]; [| | |cbn [length] in Hlen; lia];
    cbn [map fst snd np_roll1 List.last removelast np_dot];
    match goal with
    | |- (_ * Rabs ?e)%R = _ => replace e with 0%R by ring
    end; rewrite Rabs_R0; lra.
Qed.

(** [shoelace_area_degenerate] applies to the contour with the two points
    (0,0) and (3,4). *)
Lemma shoelace_area_degenerate_witness :
  (length (points segment_3_4) <= 2)%nat /\
  shoelace_area (scale_xyz (to_matrix segment_3_4) 1) = 0%R.
Proof.
  assert (H : (length (points segment_3_4) <= 2)%nat) by (cbn; lia).
  split; [exact H | exact (shoelace_area_degenerate segment_3_4 1 H)].
Defined.

Lemma shoelace_area_rect (x y w h : Z) (z s : R) (incl : bool) :
  shoelace_area (scale_xyz (to_matrix (rectangle x y w h z incl)) s)
  = (Rabs (IZR w * IZR h) * (s * s))%R.
Proof.
  unfold shoelace_area, scale_xyz, to_matrix, rectangle.
  cbn [points image_z_position map fst snd np_roll1 List.last removelast np_dot].
  rewrite !plus_IZR.
  match goal with
  | |- (_ * Rabs ?e)%R = _ =>
      replace e with (- (2 * (s * s) * (IZR w * IZR h)))%R by ring
  end.
  rewrite Rabs_Ropp, Rabs_mult, (Rabs_right (2 * (s * s))) by nra. lra.
Qed.

(** X3. The area of a rectangle of [w] by [h] pixels is [|w * h|] times
    the square of the pixel spacing, wherever it lies. *)
Theorem shoelace_area_rectangle (x y w h : Z) (z s : R) (incl : bool) :
  shoelace_area (scale_xyz (to_matrix (rectangle x y w h z incl)) s)
  = (Rabs (IZR w * IZR h) * (s * s))%R.
Proof. exact (shoelace_area_rect x y w h z s incl). Qed.

(** C5. For an annotation with exactly one contour [estimate_volume]
    returns [A * T] when the contour is an inclusion contour and
    [- (A * T)] when it is an exclusion contour, where [T] is the slice
    thickness of the scan and [A] is the area the shoelace formula gives
    the polygon whose vertices are the points of the contour with both
    coordinates multiplied by the pixel spacing: half the absolute value
    of the sum over the sides of [x_i * y_(i+1) - x_(i+1) * y_i]. For a
    rectangle of [w] by [h] pixels [A] is [|w * h|] times the square of
    the pixel spacing. *)
Theorem estimate_volume_single_contour :
  (forall (s : Scan) (c : Contour),
     let A := shoelace_formula
                (map (fun p : point => (IZR (fst p) * pixel_spacing s,
                                        IZR (snd p) * pixel_spacing s)%R)
                     (points c)) in
     let T := slice_thickness s in
     estimate_volume {| scan := s; contours := [c] |}
     = Ok (if inclusion c then A * T else - (A * T))%R) /\
  (forall (s : Scan) (x y w h : Z) (z : R) (incl : bool),
     let A := (Rabs (IZR w * IZR h) * (pixel_spacing s * pixel_spacing s))%R in
     let T := slice_thickness s in
     estimate_volume {| scan := s; contours := [rectangle x y w h z incl] |}
     = Ok (if incl then A * T else - (A * T))%R).
Proof.
  split.
  - intros s c. cbv zeta. rewrite estimate_volume_one_contour. cbv zeta.
    rewrite shoelace_area_formula.
    assert (Hpts : map fst (scale_xyz (to_matrix c) (pixel_spacing s))
                   = map (fun p : point => (IZR (fst p) * pixel_spacing s,
                                            IZR (snd p) * pixel_spacing s)%R)
                         (points c)).
    { unfold scale_xyz, to_matrix. rewrite !map_map. apply map_ext.
      intros [x y]. reflexivity. }
    rewrite Hpts. reflexivity.
  - intros s x y w h z incl. cbv zeta. rewrite estimate_volume_one_contour.
    cbv zeta. rewrite shoelace_area_rect. reflexivity.
Qed.

(** ** [estimate_diameter]: the edge case and the reported indices *)

Lemma diameter_loop_skips (s : R) (cs : list Contour) (n : nat)
    (st : diam * (nat * nat * nat)) :
  Forall (fun c => length (points c) = 1%nat) cs ->
  for_each (diameter_step s) (enumerate_from n cs) st = Ok st.
Proof.
  revert n. induction cs as [|c cs IH]; intros n Hcs; [reflexivity|].
  inversion Hcs as [|? ? Hc Hcs']; subst.
  cbn [enumerate_from for_each]. rewrite diameter_step_skip by exact Hc.
  cbn [bind]. apply IH. exact Hcs'.
Qed.

(** X12. When no contour has two points or more (every contour is a
    single point, or there is no contour at all), [estimate_diameter]
    returns minus infinity, and the indices it reports are the
    placeholders (0, 0, 1). *)
Theorem estimate_diameter_nothing_to_measure (ann : Annotation) :
  Forall (fun c => length (points c) = 1%nat) (contours ann) ->
  estimate_diameter ann false = Ok (NegInf, None) /\
  estimate_diameter ann true = Ok (NegInf, Some (0, 0, 1)%nat).
Proof.
  intros H. unfold estimate_diameter, enumerate.
  rewrite (diameter_loop_skips _ _ _ _ H). split; reflexivity.
Qed.

(** [estimate_diameter_nothing_to_measure] applies to an annotation of one
    single-point contour. *)
Lemma estimate_diameter_nothing_to_measure_witness :
  Forall (fun c => length (points c) = 1%nat)
         [{| points := [(7, 9)%Z]; image_z_position := 2; inclusion := true |}] /\
  estimate_diameter
    {| scan := sample_scan;
       contours := [{| points := [(7, 9)%Z]; image_z_position := 2;
                       inclusion := true |}] |} true
  = Ok (NegInf, Some (0, 0, 1)%nat).
Proof.
  assert (H : Forall (fun c => length (points c) = 1%nat)
                [{| points := [(7, 9)%Z]; image_z_position := 2;
                    inclusion := true |}])
    by (repeat constructor).
  split; [exact H|].
  exact (proj2 (estimate_diameter_nothing_to_measure
                  {| scan := sample_scan;
                     contours := [{| points := [(7, 9)%Z];
                                     image_z_position := 2;
                                     inclusion := true |}] |} H)).
Defined.

Lemma argmax_from_spec (l : list R) (best : R) (besti i : nat) :
  snd (argmax_from best besti i l) = fold_left Rmax l best /\
  ((fst (argmax_from best besti i l) = besti /\
    snd (argmax_from best besti i l) = best) \/
   exists q, fst (argmax_from best besti i l) = (i + q)%nat /\
             l !! q = Some (snd (argmax_from best besti i l))).
Proof.
  revert best besti i. induction l as [|x l IH]; intros best besti i.
  - cbn. auto.
  - cbn [argmax_from fold_left]. destruct (Rltb best x) eqn:Hcmp.
    + apply Rltb_true_iff in Hcmp. rewrite (Rmax_right best x) by lra.
      destruct (IH x i (S i)) as [Hval Hidx]. split; [exact Hval|]. right.
      destruct Hidx as [[Hi Hv]|(q & Hi & Hq)].
      * exists 0%nat. rewrite Hi, Hv. split; [lia | reflexivity].
      * exists (S q). rewrite Hi. split; [lia | exact Hq].
    + apply Rltb_false_iff in Hcmp. rewrite (Rmax_left best x) by lra.
      destruct (IH best besti (S i)) as [Hval Hidx]. split; [exact Hval|].
      destruct Hidx as [Hkeep|(q & Hi & Hq)]; [left; exact Hkeep|].
      right. exists (S q). rewrite Hi. split; [lia | exact Hq].
Qed.

Lemma np_argmax_is_max (l : list R) (a : nat) (m : R) :
  np_argmax l = Ok a -> np_max l = Ok m -> l !! a = Some m.
Proof.
  destruct l as [|x l]; [discriminate|]. cbn [np_argmax np_max].
  intros Ha Hm. injection Ha as <-. injection Hm as <-.
  destruct (argmax_from_spec l x 0 1) as [Hval [[-> Hv]|(q & -> & Hq)]].
  - rewrite <- Hval, Hv. reflexivity.
  - rewrite <- Hval. exact Hq.
Qed.

Lemma lookup_concat_uniform {A} (rows : list (list A)) (n a : nat) (v : A) :
  (0 < n)%nat -> Forall (fun row => length row = n) rows ->
  concat rows !! a = Some v ->
  exists row, rows !! (a / n)%nat = Some row /\ row !! (a mod n)%nat = Some v.
Proof.
  intros Hn Hrows. revert a. induction Hrows as [|row rows Hrow _ IH]; intros a Ha.
  - discriminate.
  - cbn [concat] in Ha. destruct (Nat.lt_ge_cases a n) as [Hlt|Hge].
    + rewrite lookup_app_l in Ha by lia.
      exists row. rewrite Nat.div_small, Nat.mod_small by exact Hlt. auto.
    + rewrite lookup_app_r in Ha by lia. rewrite Hrow in Ha.
      destruct (IH _ Ha) as (row' & Hr & Hv). exists row'.
      replace a with ((a - n) + 1 * n)%nat at 1 2 by lia.
      rewrite Nat.div_add, Nat.Div0.mod_add by lia.
      rewrite Nat.add_1_r. auto.
Qed.

Lemma diameter_step_indices (s : R) (done : list Contour)
    (st st' : diam * (nat * nat * nat)) (c : Contour) :
  indices_realize s done st -> points c <> [] ->
  diameter_step s st (length done, c) = Ok st' ->
  indices_realize s (done ++ [c]) st'.
Proof.
  intros Hinv Hne Hstep.
  assert (Hkeep : indices_realize s (done ++ [c]) st).
  { unfold indices_realize in *. destruct (fst st); [exact I|].
    destruct Hinv as (c0 & p & q & Hc0 & Hrest). exists c0, p, q.
    split; [apply lookup_app_l_Some; exact Hc0 | exact Hrest]. }
  unfold diameter_step in Hstep. cbn [fst snd] in Hstep.
  rewrite points_of_matrix in Hstep.
  set (arr := scale_xy (points c) s) in *.
  destruct (length arr =? 1)%nat; [injection Hstep as <-; exact Hkeep|].
  destruct (np_max (concat (squareform_pdist arr))) as [d|e] eqn:Hd;
    [|discriminate].
  cbn [bind] in Hstep.
  destruct (diam_gt d (fst st)); [|injection Hstep as <-; exact Hkeep].
  destruct (np_argmax (concat (squareform_pdist arr))) as [a|e] eqn:Ha;
    [|discriminate].
  cbn [bind] in Hstep. injection Hstep as <-.
  pose proof (np_argmax_is_max _ _ _ Ha Hd) as Hlook.
  assert (Harr : arr <> []).
  { subst arr. unfold scale_xy. destruct (points c); [congruence | discriminate]. }
  assert (Hsq : squareform_pdist arr
                = map (fun p => map (fun q => euclidean p q) arr) arr)
    by (unfold squareform_pdist; destruct arr; [congruence | reflexivity]).
  rewrite Hsq in Hlook |- *. rewrite length_map.
  assert (Hpos : (0 < length arr)%nat)
    by (destruct arr; [congruence | cbn; lia]).
  assert (Hrows : Forall (fun row : list R => length row = length arr)
                    (map (fun p => map (fun q => euclidean p q) arr) arr)).
  { apply List.Forall_forall. intros row Hrow.
    apply in_map_iff in Hrow as (p & <- & _). apply length_map. }
  destruct (lookup_concat_uniform _ (length arr) a d Hpos Hrows Hlook)
    as (row & Hrow & Hv).
  rewrite list_lookup_fmap in Hrow.
  destruct (arr !! (a / length arr)%nat) as [p'|] eqn:Hp'; [|discriminate].
  cbn [fmap option_fmap option_map] in Hrow. injection Hrow as <-.
  rewrite list_lookup_fmap in Hv.
  destruct (arr !! (a mod length arr)%nat) as [q'|] eqn:Hq'; [|discriminate].
  cbn [fmap option_fmap option_map] in Hv. injection Hv as <-.
  assert (Hlen : length arr = length (points c))
    by (subst arr; unfold scale_xy; apply length_map).
  rewrite Hlen in *. clear Hlen Hsq Hrows Hlook Hd Ha.
  subst arr. unfold scale_xy in Hp', Hq'. rewrite list_lookup_fmap in Hp', Hq'.
  apply fmap_Some in Hp' as (p & Hp & ->).
  apply fmap_Some in Hq' as (q & Hq & ->).
  unfold indices_realize. cbn [fst snd].
  exists c, p, q. split; [apply list_lookup_middle; reflexivity|].
  split; [exact Hp|]. split; [exact Hq | reflexivity].
Qed.

Lemma diameter_loop_indices (s : R) (cs done : list Contour)
    (st st' : diam * (nat * nat * nat)) :
  indices_realize s done st -> Forall (fun c => points c <> []) cs ->
  for_each (diameter_step s) (enumerate_from (length done) cs) st = Ok st' ->
  indices_realize s (done ++ cs) st'.
Proof.
  revert done st. induction cs as [|c cs IH]; intros done st Hinv Hcs Hloop.
  - cbn in Hloop. injection Hloop as <-. rewrite app_nil_r. exact Hinv.
  - inversion Hcs as [|? ? Hc Hcs']; subst.
    cbn [enumerate_from for_each] in Hloop.
    destruct (diameter_step s st (length done, c)) as [st1|e] eqn:Hstep;
      [|discriminate].
    cbn [bind] in Hloop.
    pose proof (diameter_step_indices s done st st1 c Hinv Hc Hstep) as Hinv1.
    replace (S (length done)) with (length (done ++ [c])) in Hloop
      by (rewrite length_app; cbn; lia).
    pose proof (IH (done ++ [c]) st1 Hinv1 Hcs' Hloop) as Hfin.
    rewrite <- app_assoc in Hfin. exact Hfin.
Qed.

(** X13. The indices [estimate_diameter] returns with a finite diameter
    name the place of the maximum: [i] is the position of a contour and
    [j] and [k] are positions of two of its points, and the distance of
    these two points, scaled by the pixel spacing, is the diameter
    returned. Every contour has a point. *)
Theorem estimate_diameter_indices (ann : Annotation) (D : R) (i j k : nat) :
  Forall (fun c => points c <> []) (contours ann) ->
  estimate_diameter ann true = Ok (Finite D, Some (i, j, k)) ->
  exists c p q,
    contours ann !! i = Some c /\
    points c !! j = Some p /\
    points c !! k = Some q /\
    pair_distance (pixel_spacing (scan ann)) p q = D.
Proof.
  intros Hpts Hres. unfold estimate_diameter, enumerate in Hres.
  destruct (for_each _ _ _) as [st|e] eqn:Hloop; [|discriminate].
  cbn [bind negb] in Hres. injection Hres as Hd Hijk.
  pose proof (diameter_loop_indices (pixel_spacing (scan ann)) (contours ann) []
                (NegInf, (0, 0, 1)%nat) st I Hpts Hloop) as Hinv.
  cbn [app] in Hinv. unfold indices_realize in Hinv.
  rewrite Hd, Hijk in Hinv. exact Hinv.
Qed.

(** [estimate_diameter_indices] applies to the contour with the points
    (0,0) and (3,4): the indices are (0, 0, 1). *)
Lemma estimate_diameter_indices_witness :
  Forall (fun c => points c <> []) (contours one_segment) /\
  estimate_diameter one_segment true = Ok (Finite 5, Some (0, 0, 1)%nat) /\
  exists c p q,
    contours one_segment !! 0%nat = Some c /\
    points c !! 0%nat = Some p /\
    points c !! 1%nat = Some q /\
    pair_distance (pixel_spacing (scan one_segment)) p q = 5%R.
Proof.
  assert (H : Forall (fun c => points c <> []) (contours one_segment))
    by (repeat constructor; discriminate).
  split; [exact H|]. split; [exact (proj2 estimate_diameter_3_4)|].
  exact (estimate_diameter_indices one_segment 5 0 0 1 H
           (proj2 estimate_diameter_3_4)).
Defined.

(** ** [centroid] *)

Lemma Rsum_between (l : list R) (lo hi : R) :
  (forall x, In x l -> lo <= x <= hi)%R ->
  (lo * INR (length l) <= Rsum l <= hi * INR (length l))%R.
Proof.
  induction l as [|x l IH]; intros H.
  - cbn. lra.
  - cbn [Rsum length]. rewrite S_INR.
    assert (Hx : (lo <= x <= hi)%R) by (apply H; left; reflexivity).
    assert (Hl : (lo * INR (length l) <= Rsum l <= hi * INR (length l))%R)
      by (apply IH; intros y Hy; apply H; right; exact Hy).
    lra.
Qed.

Lemma np_mean_between (l : list R) (lo hi : R) :
  l <> [] -> (forall x, In x l -> lo <= x <= hi)%R ->
  exists m, np_mean l = Some m /\ (lo <= m <= hi)%R.
Proof.
  intros Hne H.
  assert (Hn : (0 < INR (length l))%R).
  { apply lt_0_INR. destruct l; [congruence | cbn; lia]. }
  exists (Rsum l / INR (length l))%R.
  split; [destruct l; [congruence | reflexivity]|].
  pose proof (Rsum_between l lo hi H) as [Hlo Hhi].
  split.
  - apply (Rmult_le_reg_r (INR (length l))); [exact Hn|].
    unfold Rdiv. rewrite Rmult_assoc, Rinv_l by lra. lra.
  - apply (Rmult_le_reg_r (INR (length l))); [exact Hn|].
    unfold Rdiv. rewrite Rmult_assoc, Rinv_l by lra. lra.
Qed.

(** X14. On a well-formed annotation [centroid] returns three numbers
    (none of them [nan]), and the point they give lies in the bounding
    box [bbox] returns. *)
Theorem centroid_inside_bbox (ann : Annotation) :
  well_formed ann ->
  exists b cx cy cz,
    bbox ann = Ok b /\
    centroid ann = Ok (Some cx, Some cy, Some cz) /\
    (IZR (fst (row0 b)) <= cx <= IZR (snd (row0 b)))%R /\
    (IZR (fst (row1 b)) <= cy <= IZR (snd (row1 b)))%R /\
    (fst (row2 b) <= cz <= snd (row2 b))%R.
Proof.
  intros Hwf. destruct (bbox_spec ann Hwf) as (b & Hb & Hxy & Hz & _).
  pose proof (stacked_nonempty ann Hwf) as Hne.
  unfold centroid, contours_to_matrix.
  destruct (contours ann) as [|c0 cs0] eqn:Ecs; [destruct Hwf; congruence|].
  rewrite <- Ecs in *. cbn [bind].
  set (matrix := concat (map to_matrix (contours ann))) in *.
  assert (Hrow : forall r, In r matrix ->
            exists c, In c (contours ann) /\ In (fst r) (points c) /\
                      snd r = image_z_position c)
    by (intros r Hr; apply In_stacked; exact Hr).
  destruct (np_mean_between (map (fun r : Z * Z * R => IZR (fst (fst r))) matrix)
              (IZR (fst (row0 b))) (IZR (snd (row0 b)))) as (cx & Hcx & Hbx).
  { intros H. apply map_eq_nil in H. contradiction. }
  { intros x Hx. apply in_map_iff in Hx as (r & <- & Hr).
    destruct (Hrow r Hr) as (c & Hc & Hp & _).
    destruct (Hxy c (fst r) Hc Hp) as [[H1 H2] _].
    split; apply IZR_le; assumption. }
  destruct (np_mean_between (map (fun r : Z * Z * R => IZR (snd (fst r))) matrix)
              (IZR (fst (row1 b))) (IZR (snd (row1 b)))) as (cy & Hcy & Hby).
  { intros H. apply map_eq_nil in H. contradiction. }
  { intros x Hx. apply in_map_iff in Hx as (r & <- & Hr).
    destruct (Hrow r Hr) as (c & Hc & Hp & _).
    destruct (Hxy c (fst r) Hc Hp) as [_ [H1 H2]].
    split; apply IZR_le; assumption. }
  destruct (np_mean_between (map (fun r : Z * Z * R => snd r) matrix)
              (fst (row2 b)) (snd (row2 b))) as (cz & Hcz & Hbz).
  { intros H. apply map_eq_nil in H. contradiction. }
  { intros x Hx. apply in_map_iff in Hx as (r & <- & Hr).
    destruct (Hrow r Hr) as (c & Hc & _ & Hzr). rewrite Hzr. apply Hz. exact Hc. }
  exists b, cx, cy, cz. rewrite Hcx, Hcy, Hcz. auto.
Qed.

(** [centroid_inside_bbox] applies to the two squares on two slices. *)
Lemma centroid_inside_bbox_witness :
  well_formed two_slices /\
  exists b cx cy cz,
    bbox two_slices = Ok b /\
    centroid two_slices = Ok (Some cx, Some cy, Some cz) /\
    (IZR (fst (row0 b)) <= cx <= IZR (snd (row0 b)))%R /\
    (IZR (fst (row1 b)) <= cy <= IZR (snd (row1 b)))%R /\
    (fst (row2 b) <= cz <= snd (row2 b))%R.
Proof.
  split; [exact two_slices_well_formed|].
  exact (centroid_inside_bbox two_slices two_slices_well_formed).
Defined.

(** ** [as_boolean_mask]: what a marked voxel means *)

Lemma turned_on_inv (contains_point : list point -> point -> bool)
    (cs : list Contour) (z : R) (p : point) (acc : bool) :
  fold_left
    (fun acc c =>
       if inclusion c && on_slice z c
       then contains_point (path_vertices c) p
       else acc)
    cs acc = true ->
  acc = true \/
  exists c, In c cs /\ inclusion c = true /\ image_z_position c = z /\
            contains_point (path_vertices c) p = true.
Proof.
  revert acc. induction cs as [|c cs IH]; intros acc H; cbn [fold_left] in H.
  - left. exact H.
  - destruct (IH _ H) as [Hacc | (c' & Hc' & Hrest)].
    + destruct (inclusion c && on_slice z c) eqn:Hsel; [|left; exact Hacc].
      right. exists c. apply andb_true_iff in Hsel as [Hinc Hz].
      unfold on_slice in Hz. apply Reqb_true_iff in Hz.
      split; [left; reflexivity | auto].
    + right. exists c'. split; [right; exact Hc' | exact Hrest].
Qed.

Lemma not_carved_inv (contains_point : list point -> point -> bool)
    (cs : list Contour) (z : R) (p : point) :
  not_carved contains_point cs z p = true ->
  forall c, In c cs -> inclusion c = false -> image_z_position c = z ->
    contains_point (path_vertices c) p = false.
Proof.
  intros H c Hc Hinc Hz. unfold not_carved in H.
  rewrite forallb_forall in H. specialize (H c Hc).
  rewrite Hinc in H. unfold on_slice in H. rewrite Reqb_eq in H by exact Hz.
  cbn [negb andb] in H. destruct (contains_point (path_vertices c) p);
    [discriminate | reflexivity].
Qed.

(** X15. The mask marks no voxel without a reason. On a well-formed
    annotation [as_boolean_mask] returns a mask [m] and a box [b] (rows
    and columns first: [row0 b] bounds y and [row1 b] bounds x), and
    wherever [m] is true at row [i], column [j] of the slice of the
    z-position [z], the pixel [(x, y)] = [(fst (row1 b) + j, fst (row0 b)
    + i)] passes the containment test of an inclusion contour at [z], and
    fails the test of every exclusion contour at [z]. *)
Theorem as_boolean_mask_sound (contains_point : list point -> point -> bool)
    (ann : Annotation) :
  well_formed ann ->
  exists m b,
    as_boolean_mask contains_point ann = Ok (m, b) /\
    forall i j k z,
      (i < shape_0 m)%nat -> (j < shape_1 m)%nat ->
      contour_zs_of ann !! k = Some z ->
      at3 m i j k = true ->
      let p := (fst (row1 b) + Z.of_nat j, fst (row0 b) + Z.of_nat i)%Z in
      (exists c, In c (contours ann) /\ inclusion c = true /\
                 image_z_position c = z /\
                 contains_point (path_vertices c) p = true) /\
      (forall c, In c (contours ann) -> inclusion c = false ->
                 image_z_position c = z ->
                 contains_point (path_vertices c) p = false).
Proof.
  intros Hwf.
  destruct (as_boolean_mask_spec contains_point ann Hwf)
    as (m & b & _ & Hmask & _ & Hsh & Hval).
  exists (swapaxes01 m), (bbox_swap01 b). split; [exact Hmask|].
  intros i j k z Hi Hj Hk Hat.
  unfold shape_0, shape_1 in Hi, Hj.
  cbn [swapaxes01 shape3 fst snd] in Hi, Hj.
  unfold shape_0, shape_1 in Hi, Hj. rewrite Hsh in Hi, Hj.
  cbn [fst snd] in Hi, Hj.
  cbn [swapaxes01 at3] in Hat.
  rewrite (Hval j i k z Hj Hi Hk) in Hat.
  apply andb_true_iff in Hat as [Hon Hoff].
  cbn [bbox_swap01 row0 row1]. cbv zeta. fold (pixel_at b j i). split.
  - destruct (turned_on_inv contains_point _ _ _ _ Hon) as [H | H];
      [discriminate | exact H].
  - exact (not_carved_inv contains_point _ _ _ Hoff).
Qed.

(** [as_boolean_mask_sound] applies to the square with a square hole, with
    the box test for the containment test. *)
Lemma as_boolean_mask_sound_witness :
  well_formed holed_square /\
  exists m b,
    as_boolean_mask in_box holed_square = Ok (m, b) /\
    forall i j k z,
      (i < shape_0 m)%nat -> (j < shape_1 m)%nat ->
      contour_zs_of holed_square !! k = Some z ->
      at3 m i j k = true ->
      let p := (fst (row1 b) + Z.of_nat j, fst (row0 b) + Z.of_nat i)%Z in
      (exists c, In c (contours holed_square) /\ inclusion c = true /\
                 image_z_position c = z /\
                 in_box (path_vertices c) p = true) /\
      (forall c, In c (contours holed_square) -> inclusion c = false ->
                 image_z_position c = z ->
                 in_box (path_vertices c) p = false).
Proof.
  assert (H : well_formed holed_square).
  { split; [discriminate|]. repeat constructor; discriminate. }
  split; [exact H|].
  exact (as_boolean_mask_sound in_box holed_square H).
Defined.

(** ** [_as_set] *)

Lemma voxel_eqb_eq (a b : voxel) : voxel_eqb a b = true <-> a = b.
Proof.
  destruct a as [[x y] z], b as [[x' y'] z']. unfold voxel_eqb. cbn [fst snd].
  rewrite !andb_true_iff, !Z.eqb_eq, Reqb_true_iff. split.
  - intros [[-> ->] ->]. reflexivity.
  - intros H. injection H as -> -> ->. auto.
Qed.

Lemma existsb_voxel (v : voxel) (s : list voxel) :
  existsb (voxel_eqb v) s = true <-> In v s.
Proof.
  rewrite existsb_exists. split.
  - intros (w & Hw & Heq). apply voxel_eqb_eq in Heq. subst. exact Hw.
  - intros H. exists v. split; [exact H | apply voxel_eqb_eq; reflexivity].
Qed.

Lemma set_add_spec (s : list voxel) (v w : voxel) :
  In w (set_add s v) <-> In w s \/ w = v.
Proof.
  unfold set_add. destruct (existsb (voxel_eqb v) s) eqn:E.
  - apply existsb_voxel in E. split; [auto|]. intros [H | ->]; assumption.
  - rewrite in_app_iff. cbn [In]. split.
    + intros [H | [H | []]]; auto.
    + intros [H | H]; auto.
Qed.

Lemma set_add_NoDup (s : list voxel) (v : voxel) :
  List.NoDup s -> List.NoDup (set_add s v).
Proof.
  intros H. unfold set_add. destruct (existsb (voxel_eqb v) s) eqn:E; [exact H|].
  assert (Hn : ~ In v s).
  { intros Hin. apply existsb_voxel in Hin. congruence. }
  clear E. induction H as [|a s Ha Hs IH]; cbn [app].
  - constructor; [intros [] | constructor].
  - constructor.
    + rewrite in_app_iff. cbn [In]. intros [H | [H | []]]; [contradiction|].
      subst. apply Hn. left. reflexivity.
    + apply IH. intros Hin. apply Hn. right. exact Hin.
Qed.

Lemma set_update_spec (l s : list voxel) (w : voxel) :
  In w (set_update s l) <-> In w s \/ In w l.
Proof.
  unfold set_update. revert s. induction l as [|v l IH]; intros s; cbn [fold_left In].
  - tauto.
  - rewrite IH, set_add_spec. split.
    + intros [[H | H] | H]; auto.
    + intros [H | [H | H]]; auto.
Qed.

Lemma set_update_NoDup (l s : list voxel) :
  List.NoDup s -> List.NoDup (set_update s l).
Proof.
  unfold set_update. revert s. induction l as [|v l IH]; intros s H; cbn [fold_left].
  - exact H.
  - apply IH. apply set_add_NoDup. exact H.
Qed.

Lemma set_difference_spec (s t : list voxel) (w : voxel) :
  In w (set_difference s t) <-> In w s /\ ~ In w t.
Proof.
  unfold set_difference. rewrite filter_In, negb_true_iff. split.
  - intros [H E]. split; [exact H|]. intros Hin.
    apply existsb_voxel in Hin. congruence.
  - intros [H Hn]. split; [exact H|].
    destruct (existsb (voxel_eqb w) t) eqn:E; [|reflexivity].
    apply existsb_voxel in E. contradiction.
Qed.

Lemma np_mgrid2_spec (x0 x1 y0 y1 : Z) (p : point) :
  In p (np_mgrid2 x0 x1 y0 y1) <->
  (x0 <= fst p < x1)%Z /\ (y0 <= snd p < y1)%Z.
Proof.
  unfold np_mgrid2. rewrite in_flat_map. split.
  - intros (i & Hi & Hp). apply in_map_iff in Hp as (j & <- & Hj).
    apply in_seq in Hi, Hj. cbn [fst snd]. lia.
  - intros [Hx Hy]. exists (Z.to_nat (fst p - x0)). split.
    + apply in_seq. lia.
    + apply in_map_iff. exists (Z.to_nat (snd p - y0)). split.
      * destruct p as [x y]. cbn [fst snd] in *. f_equal; lia.
      * apply in_seq. lia.
Qed.

Lemma In_path_vertices (c : Contour) (a : point) :
  In a (path_vertices c) <-> In a (points c).
Proof.
  unfold path_vertices. destruct (points c) as [|first l] eqn:E; [tauto|].
  destruct (negb _ && negb _); [|tauto].
  rewrite in_app_iff. cbn [In]. split.
  - intros [H | [<- | []]]; [exact H | left; reflexivity].
  - intros H. left. exact H.
Qed.

Lemma path_vertices_nonempty (c : Contour) :
  points c <> [] -> path_vertices c <> [].
Proof.
  intros H. unfold path_vertices. destruct (points c) as [|first l]; [congruence|].
  destruct (negb _ && negb _); discriminate.
Qed.

(** The four bounds of [_as_set] are those of the box of the contour. *)
Lemma contour_box_bounds (c : Contour) :
  points c <> [] ->
  exists mn0 mn1 mx0 mx1,
    Zmin_list (map fst (path_vertices c)) = Ok mn0 /\
    Zmin_list (map snd (path_vertices c)) = Ok mn1 /\
    Zmax_list (map fst (path_vertices c)) = Ok mx0 /\
    Zmax_list (map snd (path_vertices c)) = Ok mx1 /\
    forall p, in_contour_box c p <->
      (mn0 <= fst p < mx0 + 1)%Z /\ (mn1 <= snd p < mx1 + 1)%Z.
Proof.
  intros Hne. pose proof (path_vertices_nonempty c Hne) as Hv.
  assert (Hmap : forall (f : point -> Z), map f (path_vertices c) <> []).
  { intros f H. apply map_eq_nil in H. contradiction. }
  destruct (Zmin_list_spec _ (Hmap fst)) as (mn0 & E0 & Hin0 & Hlo0).
  destruct (Zmin_list_spec _ (Hmap snd)) as (mn1 & E1 & Hin1 & Hlo1).
  destruct (Zmax_list_spec _ (Hmap fst)) as (mx0 & E2 & Hin2 & Hhi0).
  destruct (Zmax_list_spec _ (Hmap snd)) as (mx1 & E3 & Hin3 & Hhi1).
  exists mn0, mn1, mx0, mx1. repeat (split; [assumption|]).
  apply in_map_iff in Hin0 as (a0 & <- & Ha0).
  apply in_map_iff in Hin1 as (a1 & <- & Ha1).
  apply in_map_iff in Hin2 as (a2 & <- & Ha2).
  apply in_map_iff in Hin3 as (a3 & <- & Ha3).
  apply In_path_vertices in Ha0, Ha1, Ha2, Ha3.
  intros p. unfold in_contour_box. split.
  - intros ((b0 & Hb0 & L0) & (b2 & Hb2 & L2) & (b1 & Hb1 & L1) & (b3 & Hb3 & L3)).
    apply In_path_vertices in Hb0, Hb1, Hb2, Hb3.
    pose proof (Hlo0 (fst b0) (in_map fst _ _ Hb0)).
    pose proof (Hlo1 (snd b1) (in_map snd _ _ Hb1)).
    pose proof (Hhi0 (fst b2) (in_map fst _ _ Hb2)).
    pose proof (Hhi1 (snd b3) (in_map snd _ _ Hb3)).
    lia.
  - intros [Hx Hy].
    split; [exists a0; split; [assumption | lia]|].
    split; [exists a2; split; [assumption | lia]|].
    split; [exists a1; split; [assumption | lia]|].
    exists a3; split; [assumption | lia].
Qed.

(** What the loop of [_as_set] has gathered after the contours [done]. *)
Lemma as_set_step_spec (contains_point : list point -> point -> bool)
    (done : list Contour) (c : Contour) (st : list voxel * list voxel) :
  (List.NoDup (fst st) /\ List.NoDup (snd st) /\
   forall v, (In v (fst st) <-> gathered contains_point done true v) /\
             (In v (snd st) <-> gathered contains_point done false v)) ->
  points c <> [] ->
  exists st', as_set_step contains_point st c = Ok st' /\
    (List.NoDup (fst st') /\ List.NoDup (snd st') /\
     forall v, (In v (fst st') <-> gathered contains_point (done ++ [c]) true v) /\
               (In v (snd st') <-> gathered contains_point (done ++ [c]) false v)).
Proof.
  intros (Hn1 & Hn2 & Hst) Hne.
  destruct (contour_box_bounds c Hne)
    as (mn0 & mn1 & mx0 & mx1 & E0 & E1 & E2 & E3 & Hbox).
  unfold as_set_step. rewrite (close_contour_path c Hne). cbn [bind].
  rewrite E0, E1, E2, E3. cbn [bind].
  set (pts := map (fun p : point => (fst p, snd p, image_z_position c))
                  (List.filter (contains_point (path_vertices c))
                               (np_mgrid2 mn0 (mx0 + 1) mn1 (mx1 + 1)))).
  assert (Hpts : forall v, In v pts <->
            image_z_position c = snd v /\ in_contour_box c (fst v) /\
            contains_point (path_vertices c) (fst v) = true).
  { intros [[x y] z]. subst pts. rewrite in_map_iff. cbn [fst snd]. split.
    - intros (p & Hp & Hin). apply filter_In in Hin as [Hg Hc].
      apply np_mgrid2_spec in Hg. apply Hbox in Hg.
      destruct p as [px py]. cbn [fst snd] in Hp. injection Hp as -> -> ->.
      auto.
    - intros (Hz & Hb & Hc). exists (x, y). cbn [fst snd]. split; [congruence|].
      apply filter_In. split; [|exact Hc]. apply np_mgrid2_spec. apply Hbox. exact Hb. }
  assert (Hsnoc : forall incl v,
            gathered contains_point (done ++ [c]) incl v <->
            gathered contains_point done incl v \/
            (inclusion c = incl /\ In v pts)).
  { intros incl v. unfold gathered. split.
    - intros (c' & Hc' & Hrest). apply in_app_iff in Hc' as [Hc' | [<- | []]].
      + left. exists c'. auto.
      + right. destruct Hrest as (Hi & Hrest). split; [exact Hi|].
        apply Hpts. exact Hrest.
    - intros [(c' & Hc' & Hrest) | (Hi & Hv)].
      + exists c'. split; [apply in_app_iff; left; exact Hc' | exact Hrest].
      + exists c. split; [apply in_app_iff; right; left; reflexivity|].
        split; [exact Hi|]. apply Hpts. exact Hv. }
  destruct (inclusion c) eqn:Hinc; eexists; (split; [reflexivity|]);
    cbn [fst snd].
  - split; [apply set_update_NoDup; exact Hn1|]. split; [exact Hn2|].
    intros v. rewrite !Hsnoc, set_update_spec. destruct (Hst v) as [H1 H2].
    rewrite H1, H2. split; [tauto|]. split; [tauto|].
    intros [H | [H _]]; [exact H | discriminate].
  - split; [exact Hn1|]. split; [apply set_update_NoDup; exact Hn2|].
    intros v. rewrite !Hsnoc, set_update_spec. destruct (Hst v) as [H1 H2].
    rewrite H1, H2. split; [|tauto]. split; [tauto|].
    intros [H | [H _]]; [exact H | discriminate].
Qed.

Lemma as_set_spec (contains_point : list point -> point -> bool)
    (ann : Annotation) :
  Forall (fun c => points c <> []) (contours ann) ->
  exists S, _as_set contains_point ann = Ok S /\ List.NoDup S /\
    forall v, In v S <->
      gathered contains_point (contours ann) true v /\
      ~ gathered contains_point (contours ann) false v.
Proof.
  intros Hpts.
  destruct (for_each_invariant (as_set_step contains_point)
              (fun c => points c <> [])
              (fun done st =>
                 List.NoDup (fst st) /\ List.NoDup (snd st) /\
                 forall v,
                   (In v (fst st) <-> gathered contains_point done true v) /\
                   (In v (snd st) <-> gathered contains_point done false v))
              (fun done c st HI Hc => as_set_step_spec contains_point done c st HI Hc)
              (contours ann) [] ([], []))
    as (st & Hloop & Hn1 & Hn2 & Hst).
  { cbn [fst snd]. split; [constructor|]. split; [constructor|].
    intros v. unfold gathered. split; split;
      solve [intros [] | intros (c & [] & _)]. }
  { exact Hpts. }
  cbn [app] in Hst. unfold _as_set. rewrite Hloop. cbn [bind].
  eexists. split; [reflexivity|]. split.
  - unfold set_difference. apply List.NoDup_filter. exact Hn1.
  - intros v. rewrite set_difference_spec. destruct (Hst v) as [H1 H2].
    rewrite H1, H2. reflexivity.
Qed.

(** X16. [_as_set] returns on every annotation whose contours all have a
    point (an annotation without contours included), each voxel once,
    and a voxel [(x, y, z)] is in the set exactly when the pixel [(x, y)]
    lies in the box of an inclusion contour at [z] and passes its
    containment test, and does so for no exclusion contour at [z]. *)
Theorem as_set_membership (contains_point : list point -> point -> bool)
    (ann : Annotation) :
  Forall (fun c => points c <> []) (contours ann) ->
  exists S, _as_set contains_point ann = Ok S /\ List.NoDup S /\
    forall v, In v S <->
      gathered contains_point (contours ann) true v /\
      ~ gathered contains_point (contours ann) false v.
Proof. exact (as_set_spec contains_point ann). Qed.

Lemma holed_square_well_formed : well_formed holed_square.
Proof. split; [discriminate|]. repeat constructor; discriminate. Qed.

(** [as_set_membership] applies to the square with a square hole. *)
Lemma as_set_membership_witness :
  Forall (fun c => points c <> []) (contours holed_square) /\
  exists S, _as_set in_box holed_square = Ok S /\ List.NoDup S /\
    forall v, In v S <->
      gathered in_box (contours holed_square) true v /\
      ~ gathered in_box (contours holed_square) false v.
Proof.
  split; [exact (proj2 holed_square_well_formed)|].
  exact (as_set_membership in_box holed_square (proj2 holed_square_well_formed)).
Defined.

Lemma turned_on_all (contains_point : list point -> point -> bool)
    (cs : list Contour) (z : R) (p : point) (acc : bool) :
  (forall c, In c cs -> inclusion c = true -> image_z_position c = z ->
     contains_point (path_vertices c) p = true) ->
  acc = true \/
  (exists c, In c cs /\ inclusion c = true /\ image_z_position c = z) ->
  fold_left
    (fun acc c =>
       if inclusion c && on_slice z c
       then contains_point (path_vertices c) p
       else acc)
    cs acc = true.
Proof.
  revert acc. induction cs as [|c cs IH]; intros acc Hall Hsome; cbn [fold_left].
  - destruct Hsome as [H | (c & [] & _)]. exact H.
  - apply IH; [intros c' Hc'; apply Hall; right; exact Hc'|].
    destruct (inclusion c && on_slice z c) eqn:Hsel.
    + left. apply andb_true_iff in Hsel as [Hinc Hz].
      unfold on_slice in Hz. apply Reqb_true_iff in Hz.
      apply Hall; [left; reflexivity | exact Hinc | exact Hz].
    + destruct Hsome as [H | (c' & [<- | Hc'] & Hinc & Hz)].
      * left. exact H.
      * unfold on_slice in Hsel. rewrite Hinc, Reqb_eq in Hsel by exact Hz.
        discriminate.
      * right. exists c'. auto.
Qed.

Lemma not_carved_intro (contains_point : list point -> point -> bool)
    (cs : list Contour) (z : R) (p : point) :
  (forall c, In c cs -> inclusion c = false -> image_z_position c = z ->
     contains_point (path_vertices c) p = false) ->
  not_carved contains_point cs z p = true.
Proof.
  intros H. unfold not_carved. apply forallb_forall. intros c Hc.
  destruct (inclusion c) eqn:Hinc; [reflexivity|].
  unfold on_slice. destruct (Reqb (image_z_position c) z) eqn:Hz; [|reflexivity].
  apply Reqb_true_iff in Hz. rewrite (H c Hc Hinc Hz). reflexivity.
Qed.

Lemma as_set_mask_spec (contains_point : list point -> point -> bool)
    (ann : Annotation) :
  well_formed ann ->
  contained_in_box contains_point ann ->
  exists S m b,
    _as_set contains_point ann = Ok S /\
    as_boolean_mask contains_point ann = Ok (m, b) /\
    (forall i j k z,
       (i < shape_0 m)%nat -> (j < shape_1 m)%nat ->
       contour_zs_of ann !! k = Some z ->
       at3 m i j k = true ->
       In (fst (row1 b) + Z.of_nat j, fst (row0 b) + Z.of_nat i, z)%Z S) /\
    (one_inclusion_per_slice ann ->
     forall x y z, In (x, y, z) S ->
       exists i j k,
         (i < shape_0 m)%nat /\ (j < shape_1 m)%nat /\
         contour_zs_of ann !! k = Some z /\
         x = (fst (row1 b) + Z.of_nat j)%Z /\
         y = (fst (row0 b) + Z.of_nat i)%Z /\
         at3 m i j k = true).
Proof.
  intros Hwf Hbox.
  destruct (as_set_spec contains_point ann (proj2 Hwf)) as (S & HS & _ & Hmem).
  destruct (as_boolean_mask_spec contains_point ann Hwf)
    as (m & b & _ & Hmask & Hb & Hsh & Hval).
  destruct (bbox_spec ann Hwf) as (b' & Hb' & Hxy & _).
  assert (b' = b) by congruence. subst b'.
  destruct (extent_x_spec ann b Hwf Hb) as [Hex Hey].
  exists S, (swapaxes01 m), (bbox_swap01 b).
  split; [exact HS|]. split; [exact Hmask|].
  unfold shape_0, shape_1. cbn [swapaxes01 shape3 fst snd bbox_swap01 row0 row1 at3].
  unfold shape_0, shape_1. rewrite Hsh. cbn [fst snd]. split.
  - intros i j k z Hi Hj Hk Hat.
    rewrite (Hval j i k z Hj Hi Hk) in Hat.
    apply andb_true_iff in Hat as [Hon Hoff]. unfold pixel_at in Hon, Hoff.
    apply Hmem. split.
    + destruct (turned_on_inv contains_point _ _ _ _ Hon)
        as [H | (c & Hc & Hinc & Hz & Hcont)]; [discriminate|].
      exists c. cbn [fst snd]. repeat (split; [assumption|]).
      split; [apply (Hbox c _ Hc Hcont) | exact Hcont].
    + intros (c & Hc & Hinc & Hz & _ & Hcont). cbn [fst snd] in Hz, Hcont.
      rewrite (not_carved_inv contains_point _ _ _ Hoff c Hc Hinc Hz) in Hcont.
      discriminate.
  - intros Hone x y z Hin. apply Hmem in Hin as [(c & Hc & Hinc & Hz & Hcb & Hcont) Hnot].
    cbn [fst snd] in Hz, Hcb, Hcont.
    destruct Hcb as ((a0 & Ha0 & L0) & (a1 & Ha1 & L1) & (a2 & Ha2 & L2) & (a3 & Ha3 & L3)).
    cbn [fst snd] in L0, L1, L2, L3.
    pose proof (proj1 (Hxy c a0 Hc Ha0)) as B0.
    pose proof (proj1 (Hxy c a1 Hc Ha1)) as B1.
    pose proof (proj2 (Hxy c a2 Hc Ha2)) as B2.
    pose proof (proj2 (Hxy c a3 Hc Ha3)) as B3.
    assert (Hk : exists k, contour_zs_of ann !! k = Some z).
    { apply In_lookup. unfold contour_zs_of. apply np_unique_In.
      rewrite <- Hz. apply in_map. exact Hc. }
    destruct Hk as (k & Hk).
    set (i := Z.to_nat (y - fst (row1 b))).
    set (j := Z.to_nat (x - fst (row0 b))).
    assert (Hi : (i < extent_y b)%nat) by (subst i; lia).
    assert (Hj : (j < extent_x b)%nat) by (subst j; lia).
    exists i, j, k. split; [exact Hi|]. split; [exact Hj|]. split; [exact Hk|].
    split; [subst j; lia|]. split; [subst i; lia|].
    rewrite (Hval j i k z Hj Hi Hk).
    assert (Hp : pixel_at b j i = (x, y)).
    { unfold pixel_at. subst i j. f_equal; lia. }
    rewrite Hp. apply andb_true_iff. split.
    + apply turned_on_all.
      * intros c' Hc' Hinc' Hz'.
        rewrite (Hone c' c Hc' Hc Hinc' Hinc) by congruence. exact Hcont.
      * right. exists c. auto.
    + apply not_carved_intro. intros c' Hc' Hinc' Hz'.
      destruct (contains_point (path_vertices c') (x, y)) eqn:Hcont'; [|reflexivity].
      exfalso. apply Hnot. exists c'. cbn [fst snd].
      repeat (split; [assumption|]).
      split; [apply (Hbox c' _ Hc' Hcont') | exact Hcont'].
Qed.

(** X17. [_as_set] and [as_boolean_mask] agree. Let the annotation be
    well formed and let the containment test hold only inside the box of
    the contour. Then every voxel the mask marks is in the set; and when
    no two inclusion contours share a slice, every voxel of the set is
    marked in the mask, at the row, the column and the slice its
    coordinates name. *)
Theorem as_set_agrees_with_mask (contains_point : list point -> point -> bool)
    (ann : Annotation) :
  well_formed ann ->
  contained_in_box contains_point ann ->
  exists S m b,
    _as_set contains_point ann = Ok S /\
    as_boolean_mask contains_point ann = Ok (m, b) /\
    (forall i j k z,
       (i < shape_0 m)%nat -> (j < shape_1 m)%nat ->
       contour_zs_of ann !! k = Some z ->
       at3 m i j k = true ->
       In (fst (row1 b) + Z.of_nat j, fst (row0 b) + Z.of_nat i, z)%Z S) /\
    (one_inclusion_per_slice ann ->
     forall x y z, In (x, y, z) S ->
       exists i j k,
         (i < shape_0 m)%nat /\ (j < shape_1 m)%nat /\
         contour_zs_of ann !! k = Some z /\
         x = (fst (row1 b) + Z.of_nat j)%Z /\
         y = (fst (row0 b) + Z.of_nat i)%Z /\
         at3 m i j k = true).
Proof. exact (as_set_mask_spec contains_point ann). Qed.

Lemma in_box_contained (ann : Annotation) : contained_in_box in_box ann.
Proof.
  intros c p _ H. unfold in_box in H.
  destruct (path_vertices c) as [|v vs] eqn:E; [discriminate|].
  apply andb_true_iff in H as [H H3]. apply andb_true_iff in H as [H H2].
  apply andb_true_iff in H as [H0 H1].
  apply Z.leb_le in H0, H1, H2, H3.
  assert (Hin : forall a, In a (v :: vs) -> In a (points c))
    by (intros a Ha; apply In_path_vertices; rewrite E; exact Ha).
  assert (Hsel : forall (f : point -> Z) (op : Z -> Z -> Z),
            (forall a b, op a b = a \/ op a b = b) ->
            exists a, In a (points c) /\ f a = fold_left op (map f vs) (f v)).
  { intros f op Hop.
    assert (Hm : In (fold_left op (map f vs) (f v)) (map f (v :: vs))).
    { cbn [map]. generalize (map f vs) (f v). intros l. induction l as [|y l IH];
        intros x; cbn [fold_left]; [left; reflexivity|].
      destruct (IH (op x y)) as [Heq | Hl]; [|right; right; exact Hl].
      destruct (Hop x y) as [Hx | Hy]; [left | right; left]; congruence. }
    apply in_map_iff in Hm as (a & Ha & Hain). exists a. split; [auto | exact Ha]. }
  unfold in_contour_box.
  destruct (Hsel fst Z.min) as (a0 & Ha0 & E0); [intros; lia|].
  destruct (Hsel fst Z.max) as (a1 & Ha1 & E1); [intros; lia|].
  destruct (Hsel snd Z.min) as (a2 & Ha2 & E2); [intros; lia|].
  destruct (Hsel snd Z.max) as (a3 & Ha3 & E3); [intros; lia|].
  split; [exists a0; split; [assumption | rewrite E0; exact H0]|].
  split; [exists a1; split; [assumption | rewrite E1; exact H1]|].
  split; [exists a2; split; [assumption | rewrite E2; exact H2]|].
  exists a3; split; [assumption | rewrite E3; exact H3].
Qed.

(** [as_set_agrees_with_mask] applies to the square with a square hole,
    with the box test for the containment test. *)
Lemma as_set_agrees_with_mask_witness :
  well_formed holed_square /\
  contained_in_box in_box holed_square /\
  exists S m b,
    _as_set in_box holed_square = Ok S /\
    as_boolean_mask in_box holed_square = Ok (m, b) /\
    (forall i j k z,
       (i < shape_0 m)%nat -> (j < shape_1 m)%nat ->
       contour_zs_of holed_square !! k = Some z ->
       at3 m i j k = true ->
       In (fst (row1 b) + Z.of_nat j, fst (row0 b) + Z.of_nat i, z)%Z S) /\
    (one_inclusion_per_slice holed_square ->
     forall x y z, In (x, y, z) S ->
       exists i j k,
         (i < shape_0 m)%nat /\ (j < shape_1 m)%nat /\
         contour_zs_of holed_square !! k = Some z /\
         x = (fst (row1 b) + Z.of_nat j)%Z /\
         y = (fst (row0 b) + Z.of_nat i)%Z /\
         at3 m i j k = true).
Proof.
  split; [exact holed_square_well_formed|].
  split; [exact (in_box_contained holed_square)|].
  exact (as_set_agrees_with_mask in_box holed_square holed_square_well_formed
           (in_box_contained holed_square)).
Defined.

(** ** [to_volume]: the region it returns *)

Lemma place_slice_loop_shape (old : ndarray3 bool) (contour_zs : list R)
    (d : list (R * nat)) (l : list nat) (m m' : ndarray3 bool) :
  for_each (place_slice old contour_zs d) l m = Ok m' -> shape3 m' = shape3 m.
Proof.
  revert m. induction l as [|k l IH]; intros m H; cbn [for_each] in H.
  - injection H as <-. reflexivity.
  - destruct (place_slice old contour_zs d m k) as [m1|e] eqn:Hstep;
      [|discriminate].
    cbn [bind] in H. rewrite (IH m1 H).
    unfold place_slice in Hstep.
    destruct (get_slice old k) as [s|e]; [|discriminate]. cbn [bind] in Hstep.
    destruct (getitem contour_zs (Z.of_nat k)) as [cz|e]; [|discriminate].
    cbn [bind] in Hstep.
    destruct (dict_get d cz) as [zi|e]; [|discriminate]. cbn [bind] in Hstep.
    unfold set_slice in Hstep. destruct (zi <? shape_2 m)%nat; [|discriminate].
    injection Hstep as <-. reflexivity.
Qed.

Lemma reconcile_gaps_shape (m m' : ndarray3 bool) (img_zs contour_zs : list R)
    (p0 p1 : nat) :
  reconcile_gaps m img_zs contour_zs p0 p1 = Ok m' ->
  shape_0 m' = shape_0 m /\ shape_1 m' = shape_1 m /\
  Z.of_nat (shape_2 m') = (Z.of_nat p1 - Z.of_nat p0 + 1)%Z.
Proof.
  unfold reconcile_gaps.
  destruct (Z.eqb_spec (Z.of_nat (shape_2 m)) (Z.of_nat p1 - Z.of_nat p0 + 1))
    as [Heq|Hne]; cbn [negb].
  - intros H. injection H as <-. auto.
  - destruct (Z.ltb_spec (Z.of_nat p1 - Z.of_nat p0 + 1) 0) as [Hneg|Hpos];
      [discriminate|].
    intros H. apply place_slice_loop_shape in H.
    unfold shape_0, shape_1, shape_2. rewrite H. cbn [np_zeros3 shape3 fst snd].
    unfold shape_0, shape_1. split; [reflexivity|]. split; [reflexivity | lia].
Qed.

Lemma fill_slice_loop (b : bbox_t) (pad : pad_t) (l : list Image) (s : nat)
    (nod : ndarray3 R) :
  (s + length l <= shape_2 nod)%nat ->
  exists nod',
    for_each (fill_slice b pad) (enumerate_from s l) nod = Ok nod' /\
    shape3 nod' = shape3 nod /\
    forall i j k,
      ((k < s)%nat -> at3 nod' i j k = at3 nod i j k) /\
      (forall image, (s <= k)%nat -> l !! (k - s)%nat = Some image ->
         at3 nod' i j k =
         pixel_array image (fst (row0 b) - fst (pad_0 pad) + Z.of_nat i)%Z
                           (fst (row1 b) - fst (pad_1 pad) + Z.of_nat j)%Z).
Proof.
  revert s nod. induction l as [|img l IH]; intros s nod Hlen.
  - exists nod. split; [reflexivity|]. split; [reflexivity|].
    intros i j k. split; [reflexivity|]. intros image _ H. discriminate.
  - cbn [length] in Hlen. cbn [enumerate_from for_each].
    unfold fill_slice at 1. cbn [fst snd]. unfold set_slice.
    rewrite (proj2 (Nat.ltb_lt s (shape_2 nod))) by lia. cbn [bind].
    match goal with
    | |- exists _, for_each _ _ ?n = _ /\ _ => set (nod1 := n)
    end.
    destruct (IH (S s) nod1) as (nod' & Hloop & Hsh & Hval).
    { unfold shape_2, nod1. cbn [shape3]. fold (shape_2 nod). lia. }
    exists nod'. split; [exact Hloop|]. split; [rewrite Hsh; reflexivity|].
    intros i j k. destruct (Hval i j k) as [Hold Hnew]. split.
    + intros Hk. rewrite Hold by lia. unfold nod1. cbn [at3].
      rewrite (proj2 (Nat.eqb_neq k s)) by lia. reflexivity.
    + intros image Hk Hlook. destruct (Nat.eq_dec k s) as [->|Hne].
      * rewrite Nat.sub_diag in Hlook. cbn in Hlook. injection Hlook as <-.
        rewrite Hold by lia. unfold nod1. cbn [at3].
        rewrite Nat.eqb_refl. reflexivity.
      * apply Hnew; [lia|].
        replace (k - s)%nat with (S (k - S s)) in Hlook by lia. exact Hlook.
Qed.

Lemma to_volume_region (contains_point : list point -> point -> bool)
    (resample : R -> list R -> R -> ndarray3 R -> ndarray3 bool
                -> ndarray3 R * ndarray3 bool)
    (ann : Annotation) (pad : pad_t) (mask : ndarray3 bool) (bbox : bbox_t)
    (zi_start zi_stop : nat) :
  well_formed ann ->
  to_volume_mask contains_point ann = Ok (mask, bbox, (zi_start, zi_stop)) ->
  pad_nonneg pad = true ->
  let z_lo := (Z.of_nat zi_start - fst (pad_2 pad))%Z in
  let z_hi := (Z.of_nat zi_stop + snd (pad_2 pad))%Z in
  let x_lo := (fst (row0 bbox) - fst (pad_0 pad))%Z in
  let y_lo := (fst (row1 bbox) - fst (pad_1 pad))%Z in
  (0 <= z_lo)%Z -> (z_hi < Z.of_nat (length (images (scan ann))))%Z ->
  (0 <= x_lo)%Z -> (snd (row0 bbox) + 1 + snd (pad_0 pad) < 512)%Z ->
  (0 <= y_lo)%Z -> (snd (row1 bbox) + 1 + snd (pad_1 pad) < 512)%Z ->
  exists nodule mask',
    to_volume contains_point resample ann None pad = Ok (nodule, mask', bbox) /\
    np_pad3 false mask pad = Ok mask' /\
    shape3 nodule = shape3 mask' /\
    forall i j k,
      (i < shape_0 nodule)%nat -> (j < shape_1 nodule)%nat ->
      (k < shape_2 nodule)%nat ->
      exists image,
        images (scan ann) !! (Z.to_nat z_lo + k)%nat = Some image /\
        at3 nodule i j k
        = pixel_array image (x_lo + Z.of_nat i)%Z (y_lo + Z.of_nat j)%Z /\
        (0 <= x_lo + Z.of_nat i <= 510)%Z /\
        (0 <= y_lo + Z.of_nat j <= 510)%Z.
Proof.
  intros Hwf Hmask Hpad. cbv zeta. intros Hz0 Hz1 Hx0 Hx1 Hy0 Hy1.
  assert (Hshape :
            Z.of_nat (shape_0 mask) = (snd (row0 bbox) - fst (row0 bbox) + 1)%Z /\
            Z.of_nat (shape_1 mask) = (snd (row1 bbox) - fst (row1 bbox) + 1)%Z /\
            Z.of_nat (shape_2 mask) = (Z.of_nat zi_stop - Z.of_nat zi_start + 1)%Z).
  { destruct (as_boolean_mask_spec contains_point ann Hwf)
      as (m & b & _ & Hab & Hb & Hsh & _).
    destruct (extent_x_spec ann b Hwf Hb) as [Hex Hey].
    pose proof Hmask as H. unfold to_volume_mask in H. rewrite Hab in H.
    cbn [bind fst snd] in H.
    match type of H with
    | bind ?c _ = _ => destruct c as [a0|e]; [|discriminate]
    end. cbn [bind] in H.
    match type of H with
    | bind ?c _ = _ => destruct c as [a1|e]; [|discriminate]
    end. cbn [bind] in H.
    match type of H with
    | bind ?c _ = _ => destruct c as [m1|e] eqn:Hrec; [|discriminate]
    end. cbn [bind] in H. injection H as -> <- -> ->.
    apply reconcile_gaps_shape in Hrec as (H0 & H1 & H2).
    rewrite H0, H1. unfold shape_0, shape_1.
    cbn [swapaxes01 shape3 fst snd bbox_swap01 row0 row1].
    unfold shape_0, shape_1. rewrite Hsh. cbn [fst snd]. auto. }
  destruct Hshape as (Hs0 & Hs1 & Hs2).
  pose proof Hpad as Hnn. unfold pad_nonneg in Hnn.
  repeat (apply andb_true_iff in Hnn as [Hnn ?]).
  repeat match goal with
         | H : (0 <=? _)%Z = true |- _ => apply Z.leb_le in H
         end.
  unfold to_volume. rewrite Hmask. cbn [bind fst snd].
  unfold check_z.
  rewrite (proj2 (Z.ltb_ge _ _)) by lia.
  rewrite (proj2 (Z.leb_gt _ _)) by lia. cbn [orb bind].
  unfold np_pad3. rewrite Hpad. cbn [bind].
  assert (E0 : shape_0 (np_zeros3 0%R (shape_0 mask) (shape_1 mask) (shape_2 mask))
               = shape_0 mask) by reflexivity.
  assert (E1 : shape_1 (np_zeros3 0%R (shape_0 mask) (shape_1 mask) (shape_2 mask))
               = shape_1 mask) by reflexivity.
  assert (E2 : shape_2 (np_zeros3 0%R (shape_0 mask) (shape_1 mask) (shape_2 mask))
               = shape_2 mask) by reflexivity.
  rewrite !E0, !E1, !E2. clear E0 E1 E2.
  unfold check_x, check_y.
  rewrite !(proj2 (Z.ltb_ge _ _)) by lia.
  rewrite !(proj2 (Z.leb_gt _ _)) by lia. cbn [orb bind].
  set (a := Z.to_nat (Z.of_nat zi_start - fst (pad_2 pad))).
  set (b := Z.to_nat (Z.of_nat zi_stop + snd (pad_2 pad) + 1)).
  replace (Z.of_nat zi_start - fst (pad_2 pad))%Z with (Z.of_nat a) by lia.
  replace (Z.of_nat zi_stop + snd (pad_2 pad) + 1)%Z with (Z.of_nat b) by lia.
  rewrite (py_slice_nat (images (scan ann)) a b) by lia.
  unfold enumerate.
  match goal with
  | |- exists _ _, bind (for_each _ _ ?n) _ = _ /\ _ => set (nod0 := n)
  end.
  destruct (fill_slice_loop bbox pad (take (b - a) (drop a (images (scan ann))))
              0 nod0) as (nodule & Hloop & Hsh & Hval).
  { rewrite length_take, length_drop. unfold shape_2 at 1. unfold nod0.
    cbn [shape3 snd]. lia. }
  rewrite Hloop. cbn [bind].
  eexists. eexists. split; [reflexivity|]. split; [reflexivity|].
  split; [rewrite Hsh; reflexivity|].
  unfold shape_0 at 1, shape_1 at 1, shape_2 at 1. rewrite Hsh. unfold nod0.
  cbn [shape3 fst snd].
  intros i j k Hi Hj Hk.
  assert (Hkw : (k < b - a)%nat) by lia.
  destruct (lookup_lt_is_Some_2 (images (scan ann)) (a + k)) as [image Himg];
    [lia|].
  exists image. split; [exact Himg|]. split.
  - apply (proj2 (Hval i j k)); [lia|].
    rewrite Nat.sub_0_r, lookup_window by exact Hkw. exact Himg.
  - lia.
Qed.

(** X18. When lines 570-601 have returned on a well-formed annotation, no
    padding width is negative and the three tests pass, [to_volume]
    without resampling returns the bounding box, the padded mask, and a
    volume of the same shape whose entry [(i, j, k)] is the pixel value at
    row [bbox[0,0] - pad + i] and column [bbox[1,0] - pad + j] of the
    image [zi_start - pad + k]. Row and column stay between 0 and 510: the
    last row and the last column of the frame are never read. *)
Theorem to_volume_returns_region
    (contains_point : list point -> point -> bool)
    (resample : R -> list R -> R -> ndarray3 R -> ndarray3 bool
                -> ndarray3 R * ndarray3 bool)
    (ann : Annotation) (pad : pad_t) (mask : ndarray3 bool) (bbox : bbox_t)
    (zi_start zi_stop : nat) :
  well_formed ann ->
  to_volume_mask contains_point ann = Ok (mask, bbox, (zi_start, zi_stop)) ->
  pad_nonneg pad = true ->
  let z_lo := (Z.of_nat zi_start - fst (pad_2 pad))%Z in
  let z_hi := (Z.of_nat zi_stop + snd (pad_2 pad))%Z in
  let x_lo := (fst (row0 bbox) - fst (pad_0 pad))%Z in
  let y_lo := (fst (row1 bbox) - fst (pad_1 pad))%Z in
  (0 <= z_lo)%Z -> (z_hi < Z.of_nat (length (images (scan ann))))%Z ->
  (0 <= x_lo)%Z -> (snd (row0 bbox) + 1 + snd (pad_0 pad) < 512)%Z ->
  (0 <= y_lo)%Z -> (snd (row1 bbox) + 1 + snd (pad_1 pad) < 512)%Z ->
  exists nodule mask',
    to_volume contains_point resample ann None pad = Ok (nodule, mask', bbox) /\
    np_pad3 false mask pad = Ok mask' /\
    shape3 nodule = shape3 mask' /\
    forall i j k,
      (i < shape_0 nodule)%nat -> (j < shape_1 nodule)%nat ->
      (k < shape_2 nodule)%nat ->
      exists image,
        images (scan ann) !! (Z.to_nat z_lo + k)%nat = Some image /\
        at3 nodule i j k
        = pixel_array image (x_lo + Z.of_nat i)%Z (y_lo + Z.of_nat j)%Z /\
        (0 <= x_lo + Z.of_nat i <= 510)%Z /\
        (0 <= y_lo + Z.of_nat j <= 510)%Z.
Proof. exact (to_volume_region contains_point resample ann pad mask bbox
                zi_start zi_stop). Qed.

Lemma bbox_two_slices :
  bbox two_slices
  = Ok {| row0 := (0, 1)%Z; row1 := (0, 1)%Z; row2 := (1, 3)%R |}.
Proof.
  unfold bbox, contours_to_matrix, two_slices, square, to_matrix.
  cbn [contours points image_z_position map concat app fst snd bind
       Zmin_list Zmax_list Rmin_list np_max fold_left].
  Rcmp_eval. reflexivity.
Qed.

Lemma to_volume_mask_two_slices (contains_point : list point -> point -> bool) :
  exists mask,
    to_volume_mask contains_point two_slices
    = Ok (mask, {| row0 := (0, 1)%Z; row1 := (0, 1)%Z; row2 := (1, 3)%R |},
          (1, 3)%nat).
Proof.
  destruct (to_volume_mask_spec contains_point two_slices two_slices_well_formed
              two_slices_on_slices)
    as (old_mask & bbox & zi_start & zi_stop & mask
        & Hold & H0 & H1 & Hvol & _).
  destruct (as_boolean_mask_spec contains_point two_slices
              two_slices_well_formed) as (m & b & _ & Hmask & Hb & _).
  rewrite bbox_two_slices in Hb. injection Hb as <-.
  rewrite Hmask in Hold. injection Hold as _ <-.
  unfold nearest_slice in H0, H1.
  change two_slices with {| scan := sample_scan;
                            contours := [square 0 0 1 1 true;
                                         square 0 0 1 3 true] |} in H0, H1.
  rewrite img_zs_sample in H0, H1.
  cbn [bbox_swap01 row2 fst snd map np_argmin argmin_from] in H0, H1.
  revert H0 H1. Rabs_eval. Rcmp_eval. intros H0 H1.
  injection H0 as <-. injection H1 as <-.
  exists mask. exact Hvol.
Qed.

(** [to_volume_returns_region] applies to the two squares on two slices,
    without padding. *)
Lemma to_volume_returns_region_witness :
  exists mask,
    well_formed two_slices /\
    to_volume_mask in_box two_slices
    = Ok (mask, {| row0 := (0, 1)%Z; row1 := (0, 1)%Z; row2 := (1, 3)%R |},
          (1, 3)%nat) /\
    pad_nonneg no_pad = true /\
    exists nodule mask',
      to_volume in_box (fun _ _ _ v m => (v, m)) two_slices None no_pad
      = Ok (nodule, mask',
            {| row0 := (0, 1)%Z; row1 := (0, 1)%Z; row2 := (1, 3)%R |}) /\
      np_pad3 false mask no_pad = Ok mask' /\
      shape3 nodule = shape3 mask' /\
      forall i j k,
        (i < shape_0 nodule)%nat -> (j < shape_1 nodule)%nat ->
        (k < shape_2 nodule)%nat ->
        exists image,
          images (scan two_slices) !! (Z.to_nat (1 - 0) + k)%nat = Some image /\
          at3 nodule i j k
          = pixel_array image (0 - 0 + Z.of_nat i)%Z (0 - 0 + Z.of_nat j)%Z /\
          (0 <= 0 - 0 + Z.of_nat i <= 510)%Z /\
          (0 <= 0 - 0 + Z.of_nat j <= 510)%Z.
Proof.
  destruct (to_volume_mask_two_slices in_box) as [mask Hmask].
  exists mask. split; [exact two_slices_well_formed|].
  split; [exact Hmask|]. split; [reflexivity|].
  apply (to_volume_returns_region in_box (fun _ _ _ v m => (v, m)) two_slices
           no_pad mask _ 1 3 two_slices_well_formed Hmask eq_refl);
    cbn; lia.
Defined.

(** ** An annotation without contours *)

(** X19. On an annotation without contours the methods that stack the
    contours raise the [ValueError] of [np.vstack]: [bbox], [centroid],
    [as_boolean_mask] and [to_volume] (whatever the spacing and the
    padding). The measurements return: the volume is 0 and the voxel set
    is empty. *)
Theorem no_contours (contains_point : list point -> point -> bool)
    (resample : R -> list R -> R -> ndarray3 R -> ndarray3 bool
                -> ndarray3 R * ndarray3 bool)
    (ann : Annotation) (new_spacing : option R) (pad : pad_t) :
  contours ann = [] ->
  bbox ann = Raise ValueError /\
  centroid ann = Raise ValueError /\
  as_boolean_mask contains_point ann = Raise ValueError /\
  to_volume contains_point resample ann new_spacing pad = Raise ValueError /\
  estimate_volume ann = Ok 0%R /\
  _as_set contains_point ann = Ok [].
Proof.
  intros H.
  assert (Hb : bbox ann = Raise ValueError)
    by (unfold bbox, contours_to_matrix; rewrite H; reflexivity).
  assert (Hm : as_boolean_mask contains_point ann = Raise ValueError)
    by (unfold as_boolean_mask, xyz_mask; rewrite Hb; reflexivity).
  split; [exact Hb|]. split.
  { unfold centroid, contours_to_matrix. rewrite H. reflexivity. }
  split; [exact Hm|]. split.
  { unfold to_volume, to_volume_mask. rewrite Hm. reflexivity. }
  split.
  - rewrite estimate_volume_sum, H. reflexivity.
  - unfold _as_set. rewrite H. reflexivity.
Qed.

(** [no_contours] applies to the annotation of the sample scan without
    contours. *)
Lemma no_contours_witness :
  contours {| scan := sample_scan; contours := [] |} = [] /\
  bbox {| scan := sample_scan; contours := [] |} = Raise ValueError /\
  centroid {| scan := sample_scan; contours := [] |} = Raise ValueError /\
  as_boolean_mask in_box {| scan := sample_scan; contours := [] |}
  = Raise ValueError /\
  to_volume in_box (fun _ _ _ v m => (v, m))
    {| scan := sample_scan; contours := [] |} None no_pad = Raise ValueError /\
  estimate_volume {| scan := sample_scan; contours := [] |} = Ok 0%R /\
  _as_set in_box {| scan := sample_scan; contours := [] |} = Ok [].
Proof.
  split; [reflexivity|].
  exact (no_contours in_box (fun _ _ _ v m => (v, m))
           {| scan := sample_scan; contours := [] |} None no_pad eq_refl).
Defined.

(** ** The semantic labels *)

Ltac score_cases n :=
  match goal with
  | H : (1 <= n < _)%Z |- _ =>
      let rec go k :=
        (destruct (Z.eq_dec n k) as [->|?];
         [| first [ exfalso; lia | let k' := eval cbv in (k + 1)%Z in go k' ] ])
      in go 1%Z
  end.

Ltac unfold_methods :=
  cbn [method attribute stop method_name] in *;
  unfold Subtlety, InternalStructure, Calcification, Sphericity, Margin,
         Lobulation, Spiculation, Texture, Malignancy in *;
  cbv zeta in *.

Lemma in_range_inv (v : pyvalue) (hi : Z) :
  in_range v 1 hi = true -> exists n, v = PyInt n /\ (1 <= n < hi)%Z.
Proof.
  destruct v as [|n|s]; cbn [in_range]; try discriminate.
  intros H. apply andb_true_iff in H as [H1 H2].
  apply Z.leb_le in H1. apply Z.ltb_lt in H2. exists n. split; [reflexivity | lia].
Qed.

Lemma in_range_intro (n hi : Z) :
  (1 <= n < hi)%Z -> in_range (PyInt n) 1 hi = true.
Proof.
  intros H. cbn [in_range]. apply andb_true_iff.
  split; [apply Z.leb_le | apply Z.ltb_lt]; lia.
Qed.

Lemma method_valid (e : characteristic) (self : gmap string pyvalue) (n : Z) :
  In e characteristics ->
  getattr self (attribute e) = PyInt n -> (1 <= n < stop e)%Z ->
  exists label,
    method e self = Return (PyStr label) /\
    (String.length label <=? 24)%nat
    = negb (String.eqb (attribute e) "texture" && (n <? 4)%Z).
Proof.
  intros Hin Hv Hn.
  repeat (destruct Hin as [<-|Hin]); try destruct Hin;
    unfold_methods; rewrite Hv; score_cases n;
    (eexists; split; [reflexivity | reflexivity]).
Qed.

Lemma method_invalid (e : characteristic) (self : gmap string pyvalue) :
  In e characteristics -> valid_score self e = false ->
  exists msg, method e self = Throw (AssertionError msg).
Proof.
  intros Hin Hv. unfold valid_score in Hv.
  repeat (destruct Hin as [<-|Hin]); try destruct Hin;
    unfold_methods; rewrite Hv; eexists; reflexivity.
Qed.

Lemma method_injective (e : characteristic) (self self' : gmap string pyvalue) :
  In e characteristics -> valid_score self e = true ->
  method e self' = method e self ->
  getattr self' (attribute e) = getattr self (attribute e).
Proof.
  intros Hin Hv Heq. unfold valid_score in Hv.
  destruct (in_range_inv _ _ Hv) as (n & Hs & Hn).
  destruct (method_valid e self n Hin Hs Hn) as (label & Hl & _).
  rewrite Hl in Heq.
  destruct (valid_score self' e) eqn:Hv'.
  - unfold valid_score in Hv'.
    destruct (in_range_inv _ _ Hv') as (n' & Hs' & Hn').
    rewrite Hs, Hs'. f_equal.
    repeat (destruct Hin as [<-|Hin]); try destruct Hin;
      unfold_methods; rewrite Hs in Hl; rewrite Hs' in Heq;
      score_cases n; score_cases n';
      first [ reflexivity | rewrite <- Heq in Hl; discriminate Hl ].
  - destruct (method_invalid e self' Hin Hv') as (msg & Hm).
    rewrite Hm in Heq. discriminate.
Qed.

(** X20. Each of the nine methods that word a characteristic returns a
    string exactly when the score is an integer of its range (1 to 5; 1
    to 4 for the internal structure, 1 to 6 for the calcification), and
    never [None]; on any other value, [None] included, its assertion
    fails. The label tells the score: two objects with the same label
    have the same score. *)
Theorem semantic_label_spec (e : characteristic)
    (self : gmap string pyvalue) :
  In e characteristics ->
  (valid_score self e = true ->
     exists label, method e self = Return (PyStr label)) /\
  (valid_score self e = false ->
     exists msg, method e self = Throw (AssertionError msg)) /\
  (forall self', valid_score self e = true ->
     method e self' = method e self ->
     getattr self' (attribute e) = getattr self (attribute e)).
Proof.
  intros Hin. split; [|split].
  - intros Hv. destruct (in_range_inv _ _ Hv) as (n & Hs & Hn).
    destruct (method_valid e self n Hin Hs Hn) as (label & Hl & _).
    exists label. exact Hl.
  - exact (method_invalid e self Hin).
  - intros self'. exact (method_injective e self self' Hin).
Qed.

(** [semantic_label_spec] applies to the texture. *)
Lemma semantic_label_spec_witness :
  In {| attribute := "texture"; method_name := "Texture";
        method := Texture; stop := 6 |} characteristics /\
  forall self,
    (valid_score self {| attribute := "texture"; method_name := "Texture";
                         method := Texture; stop := 6 |} = true ->
       exists label, Texture self = Return (PyStr label)) /\
    (valid_score self {| attribute := "texture"; method_name := "Texture";
                         method := Texture; stop := 6 |} = false ->
       exists msg, Texture self = Throw (AssertionError msg)) /\
    (forall self',
       valid_score self {| attribute := "texture"; method_name := "Texture";
                           method := Texture; stop := 6 |} = true ->
       Texture self' = Texture self ->
       getattr self' "texture" = getattr self "texture").
Proof.
  assert (H : In {| attribute := "texture"; method_name := "Texture";
                    method := Texture; stop := 6 |} characteristics)
    by (do 7 right; left; reflexivity).
  split; [exact H|]. intros self.
  exact (semantic_label_spec _ self H).
Defined.

(** X21. The scale of the subtlety is reversed: the score [n] of the
    subtlety is worded with the word that the lobulation, the spiculation
    and the malignancy give the score [6 - n]. Subtlety 1 is "High
    Subtlety" and subtlety 5 is "Low Subtlety", while malignancy 1 is "Low
    Malignancy". *)
Theorem subtlety_scale_reversed (self other : gmap string pyvalue) (n : Z) :
  (1 <= n < 6)%Z ->
  getattr self "subtlety" = PyInt n ->
  getattr other "lobulation" = PyInt (6 - n) ->
  getattr other "spiculation" = PyInt (6 - n) ->
  getattr other "malignancy" = PyInt (6 - n) ->
  exists word,
    In word _char_to_word_ /\
    Subtlety self = Return (PyStr (word ++ " Subtlety")%string) /\
    Lobulation other = Return (PyStr (word ++ " Lobulation")%string) /\
    Spiculation other = Return (PyStr (word ++ " Spiculation")%string) /\
    Malignancy other = Return (PyStr (word ++ " Malignancy")%string) /\
    (n = 1%Z -> word = "High") /\ (n = 5%Z -> word = "Low").
Proof.
  intros Hn Hs Hl Hp Hm.
  unfold Subtlety, Lobulation, Spiculation, Malignancy. cbv zeta.
  rewrite Hs, Hl, Hp, Hm.
  assert (Hfin : forall word : string, forall k : Z,
            (k = 1%Z -> word = "High") -> (k = 5%Z -> word = "Low") ->
            (k = 1%Z -> word = "High") /\ (k = 5%Z -> word = "Low"))
    by (intros; split; assumption).
  score_cases n.
  - exists "High". split; [do 4 right; left; reflexivity|].
    do 4 (split; [reflexivity|]). apply Hfin; intros H; [reflexivity | discriminate H].
  - exists "Medium-High". split; [do 3 right; left; reflexivity|].
    do 4 (split; [reflexivity|]). apply Hfin; intros H; discriminate H.
  - exists "Medium". split; [do 2 right; left; reflexivity|].
    do 4 (split; [reflexivity|]). apply Hfin; intros H; discriminate H.
  - exists "Medium-Low". split; [right; left; reflexivity|].
    do 4 (split; [reflexivity|]). apply Hfin; intros H; discriminate H.
  - exists "Low". split; [left; reflexivity|].
    do 4 (split; [reflexivity|]). apply Hfin; intros H; [discriminate H | reflexivity].
Qed.

(** [subtlety_scale_reversed] applies to the subtlety 1 and the other
    scores 5. *)
Lemma subtlety_scale_reversed_witness :
  (1 <= 1 < 6)%Z /\
  exists word,
    In word _char_to_word_ /\
    Subtlety {["subtlety" := PyInt 1]}
    = Return (PyStr (word ++ " Subtlety")%string) /\
    Lobulation (<["lobulation" := PyInt 5]>
                  (<["spiculation" := PyInt 5]> {["malignancy" := PyInt 5]}))
    = Return (PyStr (word ++ " Lobulation")%string) /\
    Spiculation (<["lobulation" := PyInt 5]>
                   (<["spiculation" := PyInt 5]> {["malignancy" := PyInt 5]}))
    = Return (PyStr (word ++ " Spiculation")%string) /\
    Malignancy (<["lobulation" := PyInt 5]>
                  (<["spiculation" := PyInt 5]> {["malignancy" := PyInt 5]}))
    = Return (PyStr (word ++ " Malignancy")%string) /\
    (1 = 1 -> word = "High")%Z /\ (1 = 5 -> word = "Low")%Z.
Proof.
  split; [lia|].
  apply (subtlety_scale_reversed
           {["subtlety" := PyInt 1]}
           (<["lobulation" := PyInt 5]>
              (<["spiculation" := PyInt 5]> {["malignancy" := PyInt 5]})) 1);
    [lia | reflexivity | reflexivity | reflexivity | reflexivity].
Defined.

(** ** The table of the characteristics *)

Lemma string_app_assoc (s1 s2 s3 : string) :
  (s1 ++ (s2 ++ s3))%string = ((s1 ++ s2) ++ s3)%string.
Proof.
  induction s1 as [|c s1 IH]; [reflexivity|].
  change (String c (s1 ++ (s2 ++ s3)) = String c ((s1 ++ s2) ++ s3))%string.
  rewrite IH. reflexivity.
Qed.

Lemma string_length_app (s1 s2 : string) :
  String.length (s1 ++ s2)%string = (String.length s1 + String.length s2)%nat.
Proof.
  induction s1 as [|c s1 IH]; [reflexivity|].
  change (S (String.length (s1 ++ s2)%string)
          = S (String.length s1 + String.length s2)).
  rewrite IH. reflexivity.
Qed.

Lemma string_length_blanks (n : nat) :
  String.length (string_of_list_ascii (repeat " "%char n)) = n.
Proof.
  induction n as [|n IH]; [reflexivity|].
  change (S (String.length (string_of_list_ascii (repeat " "%char n))) = S n).
  rewrite IH. reflexivity.
Qed.

Lemma length_ljust (w : nat) (s : string) :
  String.length (ljust w s) = Nat.max w (String.length s).
Proof. unfold ljust. rewrite string_length_app, string_length_blanks. lia. Qed.

Lemma drop_last_newline (s : string) : drop_last (s ++ newline)%string = s.
Proof.
  induction s as [|c s IH]; [reflexivity|].
  change (String c s ++ newline)%string with (String c (s ++ newline)%string).
  cbn [drop_last]. destruct (s ++ newline)%string as [|c' s'] eqn:E.
  - destruct s; discriminate E.
  - rewrite IH. reflexivity.
Qed.

Lemma table_row_width (name label : string) (n : Z) :
  (String.length name <= 18)%nat -> (String.length (str_of_int n) <= 2)%nat ->
  (String.length (table_row name label n) =? 50)%nat
  = (String.length label <=? 24)%nat.
Proof.
  intros Hn Hd. unfold table_row.
  rewrite !string_length_app, !length_ljust. cbn [String.length].
  destruct (Nat.leb_spec (String.length label) 24) as [H|H].
  - apply Nat.eqb_eq. lia.
  - apply Nat.eqb_neq. lia.
Qed.

(** The names under which the loop looks the methods up: the attributes in
    title case, with the capital inside [InternalStructure] restored. *)
Lemma method_names_computed :
  and_then (list_index (map title _all_characteristics_) "Internalstructure")
           (fun k => Return (<[k := "InternalStructure"%string]>
                               (map title _all_characteristics_)))
  = Return (map method_name characteristics).
Proof. reflexivity. Qed.

Lemma attributes_listed :
  _all_characteristics_ = map attribute characteristics.
Proof. reflexivity. Qed.

(** The body of the loop for the characteristic at position [i]. *)
Lemma characteristic_row_spec (self : gmap string pyvalue) (s : string)
    (i : nat) (e : characteristic) :
  characteristics !! i = Some e ->
  characteristic_row self _all_characteristics_
                     (map method_name characteristics) s i
  = and_then (method e self) (fun label =>
    and_then (format_d 2 (getattr self (attribute e))) (fun d =>
    Return (s ++ (ljust 18 (method_name e) ++ " | " ++ format_s 24 label
                  ++ " | " ++ d) ++ newline)%string)).
Proof.
  intros H.
  do 9 (destruct i as [|i]; [injection H as <-; reflexivity|]).
  discriminate H.
Qed.

Lemma shown_exists (self : gmap string pyvalue) (e : characteristic) :
  In e characteristics -> valid_score self e = true ->
  exists row, shown self row e.
Proof.
  intros Hin Hv. unfold valid_score in Hv.
  destruct (in_range_inv _ _ Hv) as (n & Hs & Hn).
  destruct (method_valid e self n Hin Hs Hn) as (label & Hl & Hw).
  exists (table_row (method_name e) label n), label, n.
  repeat (split; [assumption || reflexivity|]).
  rewrite <- Hw. apply table_row_width.
  - repeat (destruct Hin as [<-|Hin]); try destruct Hin; cbn; lia.
  - assert (Hn' : (1 <= n < 7)%Z).
    { repeat (destruct Hin as [<-|Hin]); try destruct Hin;
        cbn [stop] in Hn; lia. }
    clear Hn Hl Hw Hs. score_cases n; cbn; lia.
Qed.

Lemma shown_rows (self : gmap string pyvalue) (l : list characteristic) :
  (forall e, In e l -> In e characteristics /\ valid_score self e = true) ->
  exists rows, Forall2 (shown self) rows l.
Proof.
  induction l as [|e l IH]; intros H.
  - exists []. constructor.
  - destruct (H e (or_introl eq_refl)) as [Hin Hv].
    destruct (shown_exists self e Hin Hv) as (row & Hrow).
    destruct IH as (rows & Hrows); [intros e' He'; apply H; right; exact He'|].
    exists (row :: rows). constructor; assumption.
Qed.

Lemma shown_row_step (self : gmap string pyvalue) (s row : string) (i : nat)
    (e : characteristic) :
  characteristics !! i = Some e -> shown self row e ->
  characteristic_row self _all_characteristics_
                     (map method_name characteristics) s i
  = Return (s ++ row ++ newline)%string.
Proof.
  intros Hi (label & n & Hl & Hs & _ & -> & _).
  rewrite (characteristic_row_spec self s i e Hi), Hl, Hs. reflexivity.
Qed.

Lemma for_each_rows (body : string -> nat -> outcome string)
    (rows : list string) (a : nat) (s : string) :
  (forall i r s, rows !! i = Some r ->
     body s (a + i)%nat = Return (s ++ r ++ newline)%string) ->
  for_each_row body (seq a (length rows)) s
  = Return (fold_left (fun s r => (s ++ r ++ newline)%string) rows s).
Proof.
  revert a s. induction rows as [|r rows IH]; intros a s H; [reflexivity|].
  cbn [length seq for_each_row fold_left].
  specialize (H 0%nat r s eq_refl) as H0. rewrite Nat.add_0_r in H0.
  rewrite H0. cbn [and_then]. apply IH. intros i r' s' Hi.
  replace (S a + i)%nat with (a + S i)%nat by lia. apply H. exact Hi.
Qed.

Lemma for_each_rows_throw (body : string -> nat -> outcome string)
    (rows : list string) (a n : nat) (s : string) (ex : char_exc) :
  (forall i r s, rows !! i = Some r ->
     body s (a + i)%nat = Return (s ++ r ++ newline)%string) ->
  (forall s, body s (a + length rows)%nat = Throw ex) ->
  (length rows < n)%nat ->
  for_each_row body (seq a n) s = Throw ex.
Proof.
  revert a n s. induction rows as [|r rows IH]; intros a n s H Hex Hn.
  - destruct n as [|n]; [cbn in Hn; lia|]. cbn [seq for_each_row].
    cbn [length] in Hex. rewrite Nat.add_0_r in Hex. rewrite Hex. reflexivity.
  - destruct n as [|n]; [cbn in Hn; lia|]. cbn [seq for_each_row].
    specialize (H 0%nat r s eq_refl) as H0. rewrite Nat.add_0_r in H0.
    rewrite H0. cbn [and_then]. apply IH.
    + intros i r' s' Hi.
      replace (S a + i)%nat with (a + S i)%nat by lia. apply H. exact Hi.
    + intros s'. replace (S a + length rows)%nat with (a + length (r :: rows))%nat
        by (cbn [length]; lia). apply Hex.
    + cbn [length] in Hn. lia.
Qed.

Lemma concat_prefix (p r : string) (rows : list string) :
  String.concat newline ((p ++ r)%string :: rows)
  = (p ++ String.concat newline (r :: rows))%string.
Proof.
  destruct rows as [|r' rows]; [reflexivity|].
  change ((p ++ r) ++ newline ++ String.concat newline (r' :: rows)
          = p ++ r ++ newline ++ String.concat newline (r' :: rows))%string.
  rewrite <- string_app_assoc. reflexivity.
Qed.

Lemma rows_joined (rows : list string) (x : string) :
  fold_left (fun s r => (s ++ r ++ newline)%string) rows (x ++ newline)%string
  = (String.concat newline (x :: rows) ++ newline)%string.
Proof.
  revert x. induction rows as [|r rows IH]; intros x; [reflexivity|].
  cbn [fold_left].
  change (String.concat newline (x :: r :: rows))
    with (x ++ newline ++ String.concat newline (r :: rows))%string.
  rewrite (string_app_assoc (x ++ newline) r newline), IH, concat_prefix.
  rewrite (string_app_assoc x newline). reflexivity.
Qed.

(** The table, when every score is valid. *)
Lemma table_spec (self : gmap string pyvalue) :
  Forall (fun e => valid_score self e = true) characteristics ->
  exists rows,
    all_characteristics_as_string self
    = Return (String.concat newline
                ("Characteristic       Semantic value             # "%string
                 :: "-                    -                          - "%string
                 :: rows)) /\
    Forall2 (shown self) rows characteristics.
Proof.
  intros Hv. rewrite List.Forall_forall in Hv.
  destruct (shown_rows self characteristics) as (rows & Hrows);
    [intros e He; split; [exact He | apply Hv; exact He]|].
  exists rows. split; [|exact Hrows].
  unfold all_characteristics_as_string. cbv zeta.
  change (list_index (map title _all_characteristics_) "Internalstructure")
    with (Return (A := nat) 1%nat).
  cbn [and_then].
  change (<[1%nat := "InternalStructure"%string]> (map title _all_characteristics_))
    with (map method_name characteristics).
  change (length _all_characteristics_) with (length characteristics).
  rewrite <- (Forall2_length _ _ _ Hrows).
  rewrite (for_each_rows _ rows 0).
  - cbn [and_then]. f_equal.
    match goal with
    | |- drop_last (fold_left _ _ ?s0) = _ =>
        change s0 with
          ((("Characteristic       Semantic value             # " ++ newline)
            ++ "-                    -                          - ")
           ++ newline)%string
    end.
    rewrite rows_joined, drop_last_newline, concat_prefix.
    rewrite <- string_app_assoc. reflexivity.
  - intros i r s Hi. cbn [Nat.add].
    destruct (Forall2_lookup_l _ _ _ _ _ Hrows Hi) as (e & He & Hshown).
    exact (shown_row_step self s r i e He Hshown).
Qed.

(** X22. When the nine scores are valid, [all_characteristics_as_string]
    returns the two heading lines followed by one line per
    characteristic, in the order of [_all_characteristics_], joined by
    newlines and without a newline at the end. The line of a
    characteristic shows the name of its method, the label the method
    returns and the score. Every such line is 50 characters wide exactly
    when the texture is 4 or 5: the labels of the textures 1, 2 and 3 are
    longer than the 24 columns of the label. *)
Theorem all_characteristics_as_string_table (self : gmap string pyvalue) :
  Forall (fun e => valid_score self e = true) characteristics ->
  exists rows,
    all_characteristics_as_string self
    = Return (String.concat newline
                ("Characteristic       Semantic value             # "%string
                 :: "-                    -                          - "%string
                 :: rows)) /\
    Forall2 (fun row e =>
               exists label n,
                 method e self = Return (PyStr label) /\
                 getattr self (attribute e) = PyInt n /\
                 row = table_row (method_name e) label n)
            rows characteristics /\
    (Forall (fun row => String.length row = 50%nat) rows <->
     in_range (getattr self "texture") 4 6 = true).
Proof.
  intros Hv. destruct (table_spec self Hv) as (rows & Htab & Hrows).
  exists rows. split; [exact Htab|]. split.
  - eapply Forall2_impl; [exact Hrows|].
    intros row e (label & n & Hl & Hs & _ & Hr & _). exists label, n. auto.
  - split.
    + intros Hall.
      destruct (Forall2_lookup_r _ _ _ 7%nat _ Hrows eq_refl)
        as (row & Hrow & label & n & _ & Hs & Hn & _ & Hw).
      rewrite List.Forall_forall in Hall.
      specialize (Hall row (lookup_In _ _ _ Hrow)).
      cbn [attribute stop] in Hs, Hn, Hw. rewrite Hs. cbn [in_range].
      rewrite Hall, Nat.eqb_refl in Hw.
      change (String.eqb "texture" "texture") with true in Hw.
      cbn [andb] in Hw. symmetry in Hw. apply negb_true_iff, Z.ltb_ge in Hw.
      apply andb_true_iff. split; [apply Z.leb_le | apply Z.ltb_lt]; lia.
    + intros Htex. apply List.Forall_forall. intros row Hin.
      destruct (In_lookup _ _ Hin) as (i & Hi).
      destruct (Forall2_lookup_l _ _ _ _ _ Hrows Hi)
        as (e & He & label & n & _ & Hs & Hn & _ & Hw).
      apply Nat.eqb_eq. rewrite Hw. apply negb_true_iff.
      destruct (String.eqb_spec (attribute e) "texture") as [Ea|Ea];
        [|reflexivity].
      rewrite Ea in Hs. rewrite Hs in Htex. cbn [in_range] in Htex.
      apply andb_true_iff in Htex as [H4 _]. apply Z.leb_le in H4.
      cbn [andb]. apply Z.ltb_ge. exact H4.
Qed.

Lemma sample_scores_valid :
  Forall (fun e => valid_score sample_scores e = true) characteristics.
Proof. repeat constructor. Qed.

(** [all_characteristics_as_string_table] applies to an object with the
    scores 5, 1, 6, 3, 4, 1, 4, 5, 3. *)
Lemma all_characteristics_as_string_table_witness :
  Forall (fun e => valid_score sample_scores e = true) characteristics /\
  exists rows,
    all_characteristics_as_string sample_scores
    = Return (String.concat newline
                ("Characteristic       Semantic value             # "%string
                 :: "-                    -                          - "%string
                 :: rows)) /\
    Forall2 (fun row e =>
               exists label n,
                 method e sample_scores = Return (PyStr label) /\
                 getattr sample_scores (attribute e) = PyInt n /\
                 row = table_row (method_name e) label n)
            rows characteristics /\
    (Forall (fun row => String.length row = 50%nat) rows <->
     in_range (getattr sample_scores "texture") 4 6 = true).
Proof.
  split; [exact sample_scores_valid|].
  exact (all_characteristics_as_string_table sample_scores sample_scores_valid).
Defined.

(** X23. When a score is not valid, [all_characteristics_as_string]
    returns no table: the assertion of the first characteristic, in the
    order of [_all_characteristics_], whose score is not valid fails, with
    the message of its method. *)
Theorem all_characteristics_as_string_assertion (self : gmap string pyvalue)
    (i : nat) (e : characteristic) :
  characteristics !! i = Some e ->
  (forall j e', (j < i)%nat -> characteristics !! j = Some e' ->
     valid_score self e' = true) ->
  valid_score self e = false ->
  exists msg,
    method e self = Throw (AssertionError msg) /\
    all_characteristics_as_string self = Throw (AssertionError msg).
Proof.
  intros Hi Hbefore Hbad.
  destruct (method_invalid e self (lookup_In _ _ _ Hi) Hbad) as (msg & Hmsg).
  exists msg. split; [exact Hmsg|].
  pose proof (lookup_lt_Some _ _ _ Hi) as Hlt.
  destruct (shown_rows self (take i characteristics)) as (rows & Hrows).
  { intros e' He'. destruct (In_lookup _ _ He') as (j & Hj).
    apply lookup_take_Some in Hj as [Hj Hji].
    split; [exact (lookup_In _ _ _ Hj) | exact (Hbefore j e' Hji Hj)]. }
  assert (Hlen : length rows = i).
  { rewrite (Forall2_length _ _ _ Hrows), length_take. lia. }
  unfold all_characteristics_as_string. cbv zeta.
  change (list_index (map title _all_characteristics_) "Internalstructure")
    with (Return (A := nat) 1%nat).
  cbn [and_then].
  change (<[1%nat := "InternalStructure"%string]> (map title _all_characteristics_))
    with (map method_name characteristics).
  rewrite (for_each_rows_throw _ rows 0 _ _ (AssertionError msg));
    [reflexivity | | |].
  - intros j r s Hj. cbn [Nat.add].
    destruct (Forall2_lookup_l _ _ _ _ _ Hrows Hj) as (e' & He' & Hshown).
    apply lookup_take_Some in He' as [He' _].
    exact (shown_row_step self s r j e' He' Hshown).
  - intros s. cbn [Nat.add]. rewrite Hlen.
    rewrite (characteristic_row_spec self s i e Hi), Hmsg. reflexivity.
  - rewrite Hlen. exact Hlt.
Qed.

(** [all_characteristics_as_string_assertion] applies to an object
    without any score: the assertion of [Subtlety] fails. *)
Lemma all_characteristics_as_string_assertion_witness :
  characteristics !! 0%nat
  = Some {| attribute := "subtlety"; method_name := "Subtlety";
            method := Subtlety; stop := 6 |} /\
  valid_score ∅ {| attribute := "subtlety"; method_name := "Subtlety";
                   method := Subtlety; stop := 6 |} = false /\
  exists msg,
    Subtlety ∅ = Throw (AssertionError msg) /\
    all_characteristics_as_string ∅ = Throw (AssertionError msg).
Proof.
  split; [reflexivity|]. split; [reflexivity|].
  apply (all_characteristics_as_string_assertion ∅ 0
           {| attribute := "subtlety"; method_name := "Subtlety";
              method := Subtlety; stop := 6 |}).
  - reflexivity.
  - intros j e' Hj. lia.
  - reflexivity.
Defined.

(** ** Moving an annotation in the image plane *)

Lemma squareform_pdist_translate (pts : list point) (dx dy : Z) (s : R) :
  squareform_pdist
    (scale_xy (map (fun p => (fst p + dx, snd p + dy)%Z) pts) s)
  = squareform_pdist (scale_xy pts s).
Proof.
  assert (Hmove : scale_xy (map (fun p => (fst p + dx, snd p + dy)%Z) pts) s
                  = map (fun q => (fst q + IZR dx * s, snd q + IZR dy * s)%R)
                        (scale_xy pts s)).
  { unfold scale_xy. rewrite !map_map. apply map_ext. intros [x y].
    cbn [fst snd]. rewrite !plus_IZR. f_equal; ring. }
  rewrite Hmove. generalize (scale_xy pts s). intros a.
  unfold squareform_pdist. destruct a as [|p a]; [reflexivity|].
  set (l := p :: a).
  destruct (map (fun q => (fst q + IZR dx * s, snd q + IZR dy * s)%R) l)
    as [|p' a'] eqn:E; [discriminate E|]. rewrite <- E. clear E p' a'.
  rewrite map_map. apply map_ext. intros u.
  rewrite map_map. apply map_ext. intros v.
  unfold euclidean. cbn [fst snd]. f_equal. ring.
Qed.

Lemma diameter_step_translate (s : R) (dx dy : Z)
    (st : diam * (nat * nat * nat)) (i : nat) (c : Contour) :
  diameter_step s st (i, translate dx dy c) = diameter_step s st (i, c).
Proof.
  unfold diameter_step. cbn [fst snd]. rewrite !points_of_matrix.
  unfold translate. cbn [points].
  rewrite squareform_pdist_translate.
  assert (Hlen : length (scale_xy (map (fun p => (fst p + dx, snd p + dy)%Z)
                                       (points c)) s)
                 = length (scale_xy (points c) s))
    by (unfold scale_xy; rewrite !length_map; reflexivity).
  rewrite Hlen. reflexivity.
Qed.

Lemma diameter_loop_translate (s : R) (dx dy : Z) (cs : list Contour)
    (n : nat) (st : diam * (nat * nat * nat)) :
  for_each (diameter_step s) (enumerate_from n (map (translate dx dy) cs)) st
  = for_each (diameter_step s) (enumerate_from n cs) st.
Proof.
  revert n st. induction cs as [|c cs IH]; intros n st; [reflexivity|].
  cbn [map enumerate_from for_each]. rewrite diameter_step_translate.
  destruct (diameter_step s st (n, c)) as [st'|e]; [|reflexivity].
  cbn [bind]. apply IH.
Qed.

Lemma volume_loop_translate (ann ann' : Annotation) (dx dy : Z)
    (zvals : option (list R)) (cs : list Contour) (v : R) :
  scan ann' = scan ann ->
  for_each (volume_step ann' zvals) (map (translate dx dy) cs) v
  = for_each (volume_step ann zvals) cs v.
Proof.
  intros Hscan. revert v. induction cs as [|c cs IH]; intros v; [reflexivity|].
  cbn [map for_each].
  assert (Hstep : volume_step ann' zvals v (translate dx dy c)
                  = volume_step ann zvals v c).
  { unfold volume_step. rewrite Hscan, shoelace_area_translate.
    unfold spacing_of. rewrite Hscan. reflexivity. }
  rewrite Hstep. destruct (volume_step ann zvals v c) as [v'|e]; [|reflexivity].
  cbn [bind]. apply IH.
Qed.

(** X24. The measurements do not depend on where the nodule lies in the
    image: when every contour is moved by the same whole number of
    pixels, [estimate_volume] and [estimate_diameter] return what they
    returned before, the indices of the diameter included. *)
Theorem measurements_translation_invariant (ann : Annotation) (dx dy : Z)
    (return_indices : bool) :
  let moved := {| scan := scan ann;
                  contours := map (translate dx dy) (contours ann) |} in
  estimate_volume moved = estimate_volume ann /\
  estimate_diameter moved return_indices = estimate_diameter ann return_indices.
Proof.
  cbv zeta. split.
  - unfold estimate_volume. cbn [contours scan]. cbv zeta.
    rewrite length_map, map_map.
    change (map (fun x => image_z_position (translate dx dy x)) (contours ann))
      with (map image_z_position (contours ann)).
    destruct (if negb (length (contours ann) =? 1)%nat
              then z <- pad_zvals (np_unique (map image_z_position (contours ann))) ;;
                   Ok (Some z)
              else Ok None) as [zvals|e]; [|reflexivity].
    cbn [bind]. apply volume_loop_translate. reflexivity.
  - unfold estimate_diameter, enumerate. cbn [contours scan].
    rewrite diameter_loop_translate. reflexivity.
Qed.

(** ** [estimate_diameter] on the distances as computed *)

Section ComputedDistanceFacts.

Variable dist : R -> point -> point -> R.
Hypothesis dist_nonneg : forall s p q, (0 <= dist s p q)%R.

(** The entries of the matrix of line 232: zero, on the diagonal, and the
    computed distance of every pair of rows. *)
Lemma In_squareform_of (s : R) (m : list point) (x : R) :
  m <> [] ->
  In x (concat (squareform_pdist_of dist s m)) <->
  x = 0%R \/
  exists j k p q,
    (j < k)%nat /\ m !! j = Some p /\ m !! k = Some q /\ x = dist s p q.
Proof.
  intros Hne. unfold squareform_pdist_of.
  destruct m as [|r a]; [congruence|]. set (l := r :: a).
  rewrite in_concat. split.
  - intros (row & Hrow & Hx).
    apply list_elem_of_In, elem_of_lookup_imap in Hrow as (j & p & -> & Hj).
    apply list_elem_of_In, elem_of_lookup_imap in Hx as (k & q & -> & Hk).
    destruct (Nat.eqb_spec j k) as [_|Hjk]; [left; reflexivity|].
    right. destruct (Nat.ltb_spec j k) as [Hlt|Hge].
    + exists j, k, p, q. auto.
    + exists k, j, q, p. repeat split; auto; lia.
  - intros [-> | (j & k & p & q & Hjk & Hj & Hk & ->)].
    + eexists. split.
      * apply list_elem_of_In. apply (elem_of_lookup_imap_2 _ l r 0). reflexivity.
      * apply list_elem_of_In. apply (elem_of_lookup_imap _ l).
        exists 0%nat, r. split; reflexivity.
    + eexists. split.
      * apply list_elem_of_In. apply (elem_of_lookup_imap_2 _ l p j). exact Hj.
      * apply list_elem_of_In. apply (elem_of_lookup_imap _ l).
        exists k, q. split; [|exact Hk].
        rewrite (proj2 (Nat.eqb_neq j k)) by lia.
        rewrite (proj2 (Nat.ltb_lt j k)) by lia. reflexivity.
Qed.

(** A contour with two points or more has a greatest computed distance,
    and it is what [diameters.max()] returns. *)
Lemma contour_max_of (s : R) (c : Contour) :
  measured c ->
  exists d,
    np_max (concat (squareform_pdist_of dist s (map fst (to_matrix c)))) = Ok d /\
    computed_diameter dist s c d.
Proof.
  intros Hm. rewrite points_of_matrix. unfold measured in Hm.
  assert (Hne : points c <> []) by (destruct (points c); [cbn in Hm; lia | discriminate]).
  assert (Hzero : In 0%R (concat (squareform_pdist_of dist s (points c))))
    by (apply In_squareform_of; [exact Hne | left; reflexivity]).
  assert (Hcat : concat (squareform_pdist_of dist s (points c)) <> [])
    by (intros Hnil; rewrite Hnil in Hzero; destruct Hzero).
  destruct (np_max_spec _ Hcat) as (d & Hd & Hin & Hmax).
  exists d. split; [exact Hd|].
  assert (Hall : forall j k p q,
            (j < k)%nat -> points c !! j = Some p -> points c !! k = Some q ->
            (dist s p q <= d)%R).
  { intros j k p q Hjk Hj Hk. apply Hmax. apply In_squareform_of; [exact Hne|].
    right. exists j, k, p, q. auto. }
  split; [|exact Hall].
  apply In_squareform_of in Hin; [|exact Hne].
  destruct Hin as [-> | (j & k & p & q & Hjk & Hj & Hk & ->)];
    [|exists j, k, p, q; auto].
  destruct (points c) as [|p [|q l]] eqn:E; [cbn in Hm; lia | cbn in Hm; lia|].
  exists 0%nat, 1%nat, p, q.
  split; [lia|]. split; [reflexivity|]. split; [reflexivity|].
  apply Rle_antisym; [|apply dist_nonneg].
  apply (Hall 0%nat 1%nat p q); [lia | reflexivity | reflexivity].
Qed.

Lemma computed_diameter_unique (s : R) (c : Contour) (d d' : R) :
  computed_diameter dist s c d -> computed_diameter dist s c d' -> d = d'.
Proof.
  intros [(j & k & p & q & Hjk & Hj & Hk & <-) Hmax]
         [(j' & k' & p' & q' & Hjk' & Hj' & Hk' & <-) Hmax'].
  apply Rle_antisym; eauto.
Qed.

Lemma length_points_of_matrix (c : Contour) :
  length (map fst (to_matrix c)) = length (points c).
Proof. rewrite points_of_matrix. reflexivity. Qed.

Lemma diameter_step_of_skip (s : R) (st : diam * (nat * nat * nat)) (n : nat)
    (c : Contour) :
  length (points c) = 1%nat -> diameter_step_of dist s st (n, c) = Ok st.
Proof.
  intros H. unfold diameter_step_of. cbn [fst snd].
  rewrite length_points_of_matrix, H. reflexivity.
Qed.

Lemma diameter_step_of_invariant (s : R) (done : list Contour)
    (st : diam * (nat * nat * nat)) (c : Contour) :
  computed_invariant dist s done st -> points c <> [] ->
  exists st', diameter_step_of dist s st (length done, c) = Ok st' /\
              computed_invariant dist s (done ++ [c]) st'.
Proof.
  intros Hinv Hne.
  destruct (Nat.eq_dec (length (points c)) 1) as [H1|H1].
  { exists st. split; [apply diameter_step_of_skip; exact H1|].
    unfold computed_invariant in *. destruct (fst st) as [|D].
    - apply Forall_app. split; [exact Hinv | repeat constructor; exact H1].
    - destruct Hinv as (c0 & Hc0 & Hm0 & Hd0 & Hall & Hfirst).
      exists c0. split; [apply lookup_app_l_Some; exact Hc0|].
      split; [exact Hm0|]. split; [exact Hd0|]. split.
      + intros c' d' Hin Hm Hd. apply in_app_or in Hin as [Hin|[<-|[]]].
        * eapply Hall; eassumption.
        * unfold measured in Hm. lia.
      + intros i' c' d' Hi Hl Hm Hd.
        pose proof (lookup_lt_Some _ _ _ Hc0) as Hlt.
        rewrite lookup_app_l in Hl by lia. eapply Hfirst; eassumption. }
  assert (Hmeas : measured c).
  { unfold measured. destruct (points c) as [|p [|q l]]; cbn in *; [congruence | lia | lia]. }
  destruct (contour_max_of s c Hmeas) as (d & Hd & Hdiam).
  unfold diameter_step_of. cbn [fst snd]. rewrite length_points_of_matrix.
  destruct (Nat.eqb_spec (length (points c)) 1) as [|_]; [contradiction|].
  rewrite Hd. cbn [bind].
  assert (Hargmax : exists a,
            np_argmax (concat (squareform_pdist_of dist s
                                 (map fst (to_matrix c)))) = Ok a).
  { unfold np_max in Hd. unfold np_argmax.
    destruct (concat _); [discriminate | eauto]. }
  destruct Hargmax as [a Ha]. rewrite Ha. cbn [bind].
  assert (Hnew : forall jk : nat * nat,
            (forall c' d', In c' done -> measured c' ->
               computed_diameter dist s c' d' -> (d' < d)%R) ->
            computed_invariant dist s (done ++ [c])
              (Finite d, (length done, fst jk, snd jk))).
  { intros jk Hlt. unfold computed_invariant. cbn [fst snd].
    exists c. split; [apply list_lookup_middle; reflexivity|].
    split; [exact Hmeas|]. split; [exact Hdiam|]. split.
    - intros c' d' Hin Hm Hd'. apply in_app_or in Hin as [Hin|[<-|[]]].
      + left. eapply Hlt; eassumption.
      + rewrite (computed_diameter_unique s c d' d Hd' Hdiam). lra.
    - intros i' c' d' Hi Hl Hm Hd'. rewrite lookup_app_l in Hl by lia.
      eapply Hlt; [eapply lookup_In|..]; eassumption. }
  unfold computed_invariant in Hinv. destruct st as [g ijk]. cbn [fst snd] in *.
  destruct g as [|D]; cbn [diam_gt].
  - eexists. split; [reflexivity|].
    apply (Hnew ((a / _)%nat, (a mod _)%nat)).
    intros c' d' Hin Hm _. rewrite List.Forall_forall in Hinv.
    specialize (Hinv c' Hin). unfold measured in Hm. cbv beta in Hinv. lia.
  - destruct Hinv as (c0 & Hc0 & Hm0 & Hd0 & Hall & Hfirst).
    destruct (Rltb D d) eqn:Hcmp.
    + apply Rltb_true_iff in Hcmp. eexists. split; [reflexivity|].
      apply (Hnew ((a / _)%nat, (a mod _)%nat)).
      intros c' d' Hin Hm Hd'. pose proof (Hall c' d' Hin Hm Hd'). lra.
    + apply Rltb_false_iff in Hcmp. eexists. split; [reflexivity|].
      unfold computed_invariant. cbn [fst snd].
      exists c0. split; [apply lookup_app_l_Some; exact Hc0|].
      split; [exact Hm0|]. split; [exact Hd0|]. split.
      * intros c' d' Hin Hm Hd'. apply in_app_or in Hin as [Hin|[<-|[]]].
        -- eapply Hall; eassumption.
        -- rewrite (computed_diameter_unique s c d' d Hd' Hdiam). exact Hcmp.
      * intros i' c' d' Hi Hl Hm Hd'.
        pose proof (lookup_lt_Some _ _ _ Hc0) as Hlt.
        rewrite lookup_app_l in Hl by lia. eapply Hfirst; eassumption.
Qed.

Lemma diameter_loop_of (s : R) (cs done : list Contour)
    (st : diam * (nat * nat * nat)) :
  computed_invariant dist s done st -> Forall (fun c => points c <> []) cs ->
  exists st',
    for_each (diameter_step_of dist s) (enumerate_from (length done) cs) st
    = Ok st' /\
    computed_invariant dist s (done ++ cs) st'.
Proof.
  revert done st. induction cs as [|c cs IH]; intros done st Hinv Hcs.
  - exists st. rewrite app_nil_r. split; [reflexivity | exact Hinv].
  - inversion Hcs as [|? ? Hc Hcs']; subst.
    destruct (diameter_step_of_invariant s done st c Hinv Hc) as (st1 & H1 & Hinv1).
    destruct (IH (done ++ [c]) st1 Hinv1 Hcs') as (st2 & H2 & Hinv2).
    exists st2. cbn [enumerate_from for_each]. rewrite H1. cbn [bind].
    rewrite length_app in H2. cbn [length] in H2.
    rewrite Nat.add_1_r in H2. rewrite H2. split; [reflexivity|].
    rewrite <- app_assoc in Hinv2. exact Hinv2.
Qed.

(** The result of [estimate_diameter] on the computed distances. *)
Lemma estimate_diameter_of_spec (ann : Annotation) :
  well_formed ann ->
  (exists c, In c (contours ann) /\ measured c) ->
  exists D i j k c,
    estimate_diameter_of dist ann false = Ok (Finite D, None) /\
    estimate_diameter_of dist ann true = Ok (Finite D, Some (i, j, k)) /\
    contours ann !! i = Some c /\
    measured c /\
    computed_diameter dist (pixel_spacing (scan ann)) c D /\
    (forall c' j' k' p q, In c' (contours ann) -> measured c' ->
       (j' < k')%nat -> points c' !! j' = Some p -> points c' !! k' = Some q ->
       (dist (pixel_spacing (scan ann)) p q <= D)%R) /\
    (forall i' c' j' k' p q, (i' < i)%nat -> contours ann !! i' = Some c' ->
       measured c' ->
       (j' < k')%nat -> points c' !! j' = Some p -> points c' !! k' = Some q ->
       (dist (pixel_spacing (scan ann)) p q < D)%R) /\
    (forall c' n st, In c' (contours ann) -> ~ measured c' ->
       diameter_step_of dist (pixel_spacing (scan ann)) st (n, c') = Ok st).
Proof.
  intros [Hne Hpts] (cm & Hcm & Hmeas).
  set (s := pixel_spacing (scan ann)).
  destruct (diameter_loop_of s (contours ann) [] (NegInf, (0, 0, 1)%nat))
    as ([g [[i j] k]] & Hloop & Hinv).
  { constructor. }
  { exact Hpts. }
  cbn [app length] in Hloop, Hinv. unfold computed_invariant in Hinv.
  cbn [fst snd] in Hinv. destruct g as [|D].
  { rewrite List.Forall_forall in Hinv. specialize (Hinv cm Hcm).
    unfold measured in Hmeas. cbv beta in Hinv. lia. }
  destruct Hinv as (c & Hc & Hm & Hd & Hall & Hfirst).
  exists D, i, j, k, c.
  unfold estimate_diameter_of, enumerate. fold s. rewrite Hloop.
  cbn [bind negb fst snd].
  split; [reflexivity|]. split; [reflexivity|]. split; [exact Hc|].
  split; [exact Hm|]. split; [exact Hd|].
  split; [|split].
  - intros c' j' k' p q Hin Hm' Hjk Hj Hk.
    destruct (contour_max_of s c' Hm') as (d' & _ & Hd').
    apply Rle_trans with d'; [exact (proj2 Hd' j' k' p q Hjk Hj Hk)|].
    eapply Hall; eassumption.
  - intros i' c' j' k' p q Hi Hl Hm' Hjk Hj Hk.
    destruct (contour_max_of s c' Hm') as (d' & _ & Hd').
    apply Rle_lt_trans with d'; [exact (proj2 Hd' j' k' p q Hjk Hj Hk)|].
    eapply Hfirst; eassumption.
  - intros c' n st Hin Hnm. apply diameter_step_of_skip.
    rewrite List.Forall_forall in Hpts. specialize (Hpts c' Hin).
    unfold measured in Hnm.
    destruct (points c') as [|p [|q l]]; cbn in *; [congruence | reflexivity | lia].
Qed.

End ComputedDistanceFacts.

Lemma lookup_scale_xy (m : list point) (s : R) (j : nat) :
  scale_xy m s !! j
  = (fun p : point => (IZR (fst p) * s, IZR (snd p) * s)%R) <$> (m !! j).
Proof. unfold scale_xy. apply list_lookup_fmap. Qed.

(** With exact distances the matrix of line 232 is the matrix of the
    Euclidean distances of the scaled points. *)
Lemma squareform_pdist_of_exact (s : R) (m : list point) :
  squareform_pdist_of pair_distance s m = squareform_pdist (scale_xy m s).
Proof.
  unfold squareform_pdist_of, squareform_pdist.
  destruct m as [|r a]; [reflexivity|]. set (l := r :: a).
  assert (Hsc : scale_xy l s <> []) by (subst l; discriminate).
  destruct (scale_xy l s) as [|r' a'] eqn:E; [congruence|]. rewrite <- E.
  clear E Hsc r' a'.
  apply list_eq. intros j.
  rewrite list_lookup_imap, list_lookup_fmap, lookup_scale_xy.
  destruct (l !! j) as [p|] eqn:Hj; [|reflexivity].
  cbn [fmap option_fmap option_map]. f_equal.
  apply list_eq. intros k.
  rewrite list_lookup_imap, list_lookup_fmap, lookup_scale_xy.
  destruct (l !! k) as [q|] eqn:Hk; [|reflexivity].
  cbn [fmap option_fmap option_map]. f_equal.
  destruct (Nat.eqb_spec j k) as [Hjk|Hjk].
  - subst k. assert (p = q) by congruence. subst q.
    symmetry. apply euclidean_refl.
  - destruct (Nat.ltb_spec j k) as [_|_]; unfold pair_distance;
      [reflexivity | apply euclidean_sym].
Qed.

Lemma diameter_step_of_exact (s : R) (st : diam * (nat * nat * nat))
    (ce : nat * Contour) :
  diameter_step_of pair_distance s st ce = diameter_step s st ce.
Proof.
  unfold diameter_step_of, diameter_step. cbv zeta.
  rewrite squareform_pdist_of_exact.
  assert (Hlen : length (scale_xy (map fst (to_matrix (snd ce))) s)
                 = length (map fst (to_matrix (snd ce))))
    by (unfold scale_xy; apply length_map).
  rewrite Hlen. reflexivity.
Qed.

Lemma estimate_diameter_of_exact (ann : Annotation) (return_indices : bool) :
  estimate_diameter_of pair_distance ann return_indices
  = estimate_diameter ann return_indices.
Proof.
  unfold estimate_diameter_of, estimate_diameter. f_equal.
  generalize (enumerate (contours ann)) (NegInf, (0, 0, 1)%nat).
  intros l. induction l as [|ce l IH]; intros st; [reflexivity|].
  cbn [for_each]. rewrite diameter_step_of_exact.
  destruct (diameter_step (pixel_spacing (scan ann)) st ce) as [st'|e];
    [|reflexivity].
  cbn [bind]. apply IH.
Qed.

Lemma pair_distance_nonneg (s : R) (p q : point) : (0 <= pair_distance s p q)%R.
Proof. unfold pair_distance, euclidean. apply sqrt_pos. Qed.

(** C4. The maximum, the comparison and the indices of
    [estimate_diameter] act on the distances as they were computed, so the
    statement is made for every way [dist] of computing the distance of
    two scaled points that returns no negative number: the float64 values
    of the program, or the exact Euclidean distances [pair_distance]. For
    an annotation with a contour of two points or more,
    [estimate_diameter] returns a finite diameter [D], the same with and
    without the indices; [D] is the greatest computed distance between
    two points of the reported contour [i], which has two points or more;
    no two points of a contour with two points or more are computed to be
    farther apart than [D]; in every such contour before [i] all computed
    distances are strictly smaller than [D], so that [i] is the first
    contour that attains the maximum; and a contour with one point leaves
    the running maximum and the indices as they are. With exact distances
    this is [estimate_diameter] as embedded above, and at unit spacing the
    contour with the points (0,0) and (3,4) yields 5. *)
Theorem estimate_diameter_greatest :
  (forall (dist : R -> point -> point -> R) (ann : Annotation),
     (forall s p q, (0 <= dist s p q)%R) ->
     well_formed ann ->
     (exists c, In c (contours ann) /\ measured c) ->
     exists D i j k c,
       estimate_diameter_of dist ann false = Ok (Finite D, None) /\
       estimate_diameter_of dist ann true = Ok (Finite D, Some (i, j, k)) /\
       contours ann !! i = Some c /\
       measured c /\
       computed_diameter dist (pixel_spacing (scan ann)) c D /\
       (forall c' j' k' p q, In c' (contours ann) -> measured c' ->
          (j' < k')%nat ->
          points c' !! j' = Some p -> points c' !! k' = Some q ->
          (dist (pixel_spacing (scan ann)) p q <= D)%R) /\
       (forall i' c' j' k' p q, (i' < i)%nat ->
          contours ann !! i' = Some c' -> measured c' ->
          (j' < k')%nat ->
          points c' !! j' = Some p -> points c' !! k' = Some q ->
          (dist (pixel_spacing (scan ann)) p q < D)%R) /\
       (forall c' n st, In c' (contours ann) -> ~ measured c' ->
          diameter_step_of dist (pixel_spacing (scan ann)) st (n, c')
          = Ok st)) /\
  (forall ann return_indices,
     estimate_diameter_of pair_distance ann return_indices
     = estimate_diameter ann return_indices) /\
  pixel_spacing (scan one_segment) = 1%R /\
  estimate_diameter_of pair_distance one_segment false = Ok (Finite 5, None).
Proof.
  split; [|split; [|split]].
  - intros dist ann Hnn. exact (estimate_diameter_of_spec dist Hnn ann).
  - exact estimate_diameter_of_exact.
  - reflexivity.
  - rewrite estimate_diameter_of_exact. exact (proj1 estimate_diameter_3_4).
Qed.

(** [estimate_diameter_greatest] applies to the exact distances and the
    contour with the points (0,0) and (3,4). *)
Lemma estimate_diameter_greatest_witness :
  (forall s p q, (0 <= pair_distance s p q)%R) /\
  well_formed one_segment /\
  (exists c, In c (contours one_segment) /\ measured c) /\
  exists D i j k c,
    estimate_diameter_of pair_distance one_segment false = Ok (Finite D, None) /\
    estimate_diameter_of pair_distance one_segment true
    = Ok (Finite D, Some (i, j, k)) /\
    contours one_segment !! i = Some c /\
    measured c /\
    computed_diameter pair_distance (pixel_spacing (scan one_segment)) c D.
Proof.
  assert (Hwf : well_formed one_segment)
    by (split; [discriminate | repeat constructor; discriminate]).
  assert (Hm : exists c, In c (contours one_segment) /\ measured c).
  { exists segment_3_4. split; [left; reflexivity | unfold measured; cbn; lia]. }
  split; [exact pair_distance_nonneg|]. split; [exact Hwf|]. split; [exact Hm|].
  destruct (proj1 estimate_diameter_greatest pair_distance one_segment
              pair_distance_nonneg Hwf Hm)
    as (D & i & j & k & c & H1 & H2 & H3 & H4 & H5 & _).
  exists D, i, j, k, c. auto.
Defined.

(** ** The hole of an exclusion contour, for squares left open *)

Lemma open_holed_square_well_formed : well_formed open_holed_square.
Proof. split; [discriminate | repeat constructor; discriminate]. Qed.

Lemma bbox_open_holed_square :
  bbox open_holed_square
  = Ok {| row0 := (0, 6)%Z; row1 := (0, 6)%Z; row2 := (2, 2)%R |}.
Proof.
  unfold bbox, contours_to_matrix, open_holed_square, open_outer, open_inner,
         square, to_matrix.
  cbn [contours points image_z_position map concat app fst snd bind
       Zmin_list Zmax_list Rmin_list np_max fold_left].
  Rcmp_eval. reflexivity.
Qed.

(** The mask of the open squares, for every containment test: the test of
    the four corners of the outer square as they are listed, and-ed with
    the negated test of the four corners of the inner square. *)
Lemma open_holed_square_mask (contains_point : list point -> point -> bool) :
  exists mask,
    as_boolean_mask contains_point open_holed_square
    = Ok (mask, {| row0 := (0, 6)%Z; row1 := (0, 6)%Z; row2 := (2, 2)%R |}) /\
    forall i j, (i <= 6)%nat -> (j <= 6)%nat ->
      at3 mask j i 0 =
      contains_point [(0, 0); (6, 0); (6, 6); (0, 6)]%Z (Z.of_nat i, Z.of_nat j)
      && negb (contains_point [(2, 2); (4, 2); (4, 4); (2, 4)]%Z
                              (Z.of_nat i, Z.of_nat j)).
Proof.
  destruct (inclusion_exclusion_mask contains_point sample_scan
              open_outer open_inner [open_outer; open_inner])
    as (mask & b & Hmask & Hb & _ & Hpix);
    [reflexivity | reflexivity | reflexivity | discriminate | discriminate
    | left; reflexivity |].
  fold open_holed_square in Hmask, Hb.
  rewrite bbox_open_holed_square in Hb. injection Hb as <-.
  exists mask. split; [exact Hmask|].
  intros i j Hi Hj.
  destruct (Hpix i j) as [Heq _].
  { unfold extent_x. cbn [row0 fst snd]. lia. }
  { unfold extent_y. cbn [row1 fst snd]. lia. }
  rewrite Heq. unfold pixel_at. cbn [row0 row1 fst snd].
  rewrite !Z.add_0_l. reflexivity.
Qed.

(** C8, at a failing input. The inclusion square with the corners (0,0),
    (6,0), (6,6), (0,6) encloses the exclusion square with the corners
    (2,2), (4,2), (4,4), (2,4), on one slice; each is drawn from its lower
    left corner and ends at a corner that is not the first one. Neither
    contour is closed by the code, because its last point shares the x of
    its first point: the four corners reach the containment test as they
    are, and every pixel of the mask is the test of the one sequence
    and-ed with the negated test of the other. A path built with
    [closed=True] takes the last vertex of its sequence for the closing
    of the path: for every polygon test run on such paths the mask is
    that of the triangle (0,0), (6,0), (6,6) without the triangle (2,2),
    (4,2), (4,4), the fourth corners being lost. With the even-odd rule
    the pixel (1,5), which is inside the outer square and outside the
    inner one, is false in the mask. *)
Theorem exclusion_hole_of_open_squares :
  hd (0, 0)%Z (points open_outer) <> List.last (points open_outer) (0, 0)%Z /\
  hd (0, 0)%Z (points open_inner) <> List.last (points open_inner) (0, 0)%Z /\
  close_contour (map fst (to_matrix open_outer)) = Ok (points open_outer) /\
  close_contour (map fst (to_matrix open_inner)) = Ok (points open_inner) /\
  (forall contains_point : list point -> point -> bool,
     exists mask,
       as_boolean_mask contains_point open_holed_square
       = Ok (mask, {| row0 := (0, 6)%Z; row1 := (0, 6)%Z; row2 := (2, 2)%R |}) /\
       forall i j, (i <= 6)%nat -> (j <= 6)%nat ->
         at3 mask j i 0 =
         contains_point [(0, 0); (6, 0); (6, 6); (0, 6)]%Z
                        (Z.of_nat i, Z.of_nat j)
         && negb (contains_point [(2, 2); (4, 2); (4, 4); (2, 4)]%Z
                                 (Z.of_nat i, Z.of_nat j))) /\
  (forall polygon_test : list point -> point -> bool,
     exists mask,
       as_boolean_mask (fun vertices => polygon_test (removelast vertices))
                       open_holed_square
       = Ok (mask, {| row0 := (0, 6)%Z; row1 := (0, 6)%Z; row2 := (2, 2)%R |}) /\
       forall i j, (i <= 6)%nat -> (j <= 6)%nat ->
         at3 mask j i 0 =
         polygon_test [(0, 0); (6, 0); (6, 6)]%Z (Z.of_nat i, Z.of_nat j)
         && negb (polygon_test [(2, 2); (4, 2); (4, 4)]%Z
                               (Z.of_nat i, Z.of_nat j))) /\
  (exists mask b,
     as_boolean_mask closed_path_test open_holed_square = Ok (mask, b) /\
     even_odd (points open_outer) (1, 5)%Z = true /\
     even_odd (points open_inner) (1, 5)%Z = false /\
     at3 mask 5 1 0 = false).
Proof.
  split; [|split; [|split; [|split; [|split; [|split]]]]].
  - unfold open_outer, square. cbn [points hd List.last]. intros H. injection H. lia.
  - unfold open_inner, square. cbn [points hd List.last]. intros H. injection H. lia.
  - reflexivity.
  - reflexivity.
  - exact open_holed_square_mask.
  - intros polygon_test.
    exact (open_holed_square_mask
             (fun vertices => polygon_test (removelast vertices))).
  - destruct (open_holed_square_mask closed_path_test) as (mask & Hmask & Hpix).
    exists mask. eexists. split; [exact Hmask|].
    split; [reflexivity|]. split; [reflexivity|].
    rewrite (Hpix 1%nat 5%nat) by lia. reflexivity.
Qed.
